(** * VibeCheck scanner: the heuristic detection engine

    A shallow embedding of the engine of the vibecheck code scanner
    (rule runner, discovery prepass, snippet object-scanner, baseline
    suppression, report exit code) and the properties its specification
    states about it, followed by further properties of the same code and
    of what surrounds it: the rule registry, the console and SARIF
    reports, the Next.js route rules, the CORS rule and the helpers of
    the tenant-boundary rule.

    JavaScript strings are sequences of UTF-16 code units; they are modelled
    as lists of code units ([N]).  Optional fields are [option]s.  Code that
    can throw, or whose promise can be rejected, runs in the error monad
    [Result]: [x <- c ;; k] awaits [c], [catch] is the source's
    [try]/[catch] and [.catch].  Where it matters whether a function
    throws or returns a promise that is rejected, its call is a [Call]. *)

From Stdlib Require Import Ascii String DecimalString DecimalNat.
From Stdlib Require Import Bool Arith NArith ZArith Lia List Sorted.
From ExtLib Require Import Structures.Monad Structures.MonadExc.
Import ListNotations.
Import MonadNotation.

(* ================================================================== *)
(** ** Strings *)
(* ================================================================== *)

(** A string: its UTF-16 code units. *)
Definition text := list N.

(** A literal of the source, from its characters. *)
Fixpoint str (s : string) : text :=
  match s with
  | EmptyString => []
  | String a r => N_of_ascii a :: str r
  end.

Definition text_eqb (a b : text) : bool :=
  if list_eq_dec N.eq_dec a b then true else false.

Module Ch.
Definition TAB : N := 9.
Definition NL : N := 10.
Definition CR : N := 13.
Definition SPACE : N := 32.
Definition DOLLAR : N := 36.
Definition LPAREN : N := 40.
Definition RPAREN : N := 41.
Definition STAR : N := 42.
Definition PLUS : N := 43.
Definition DOT : N := 46.
Definition SLASH : N := 47.
Definition COLON : N := 58.
Definition QUESTION : N := 63.
Definition LBRACKET : N := 91.
Definition BACKSLASH : N := 92.
Definition RBRACKET : N := 93.
Definition CARET : N := 94.
Definition UNDERSCORE : N := 95.
Definition LBRACE : N := 123.
Definition PIPE : N := 124.
Definition RBRACE : N := 125.
End Ch.

(** The class [\s] of a regular expression, which is also what [trim]
    strips: white space and line terminators. *)
Definition isSpace (c : N) : bool :=
  ((9 <=? c) && (c <=? 13) || (c =? 32) || (c =? 160) || (c =? 5760)
   || (8192 <=? c) && (c <=? 8202) || (c =? 8232) || (c =? 8233)
   || (c =? 8239) || (c =? 8287) || (c =? 12288) || (c =? 65279))%N.

(** The class [\w]: [A-Za-z0-9_]. *)
Definition isWordChar (c : N) : bool :=
  ((48 <=? c) && (c <=? 57) || (65 <=? c) && (c <=? 90)
   || (97 <=? c) && (c <=? 122) || (c =? 95))%N.

(** Line terminators: what [.] refuses and where [^] and [$] hold under
    the [m] flag. *)
Definition isLineTerminator (c : N) : bool :=
  ((c =? 10) || (c =? 13) || (c =? 8232) || (c =? 8233))%N.

Module JsString.

Fixpoint startsWith (s needle : text) : bool :=
  match needle, s with
  | [], _ => true
  | _ :: _, [] => false
  | n :: needle', c :: s' => (c =? n)%N && startsWith s' needle'
  end.

Definition endsWith (s needle : text) : bool :=
  startsWith (rev s) (rev needle).

(** The first position [k + d] at which [needle] occurs in [rest], [rest]
    being the part of the string from position [k] on. *)
Fixpoint findFrom (needle rest : text) (k : nat) : option nat :=
  if startsWith rest needle then Some k
  else match rest with
       | [] => None
       | _ :: rest' => findFrom needle rest' (S k)
       end.

(** [s.indexOf(needle, from)]; [None] is the source's [-1]. *)
Definition indexOf (s needle : text) (from : nat) : option nat :=
  findFrom needle (skipn from s) (Nat.min from (length s)).

Definition includes (s needle : text) : bool :=
  match indexOf s needle 0 with Some _ => true | None => false end.

(** [s.slice(a, b)] for [0 <= a]. *)
Definition slice (s : text) (a b : nat) : text :=
  firstn (b - a) (skipn a s).

(** [s[i] === c]; false when [s[i]] is [undefined]. *)
Definition charIs (s : text) (i : nat) (c : N) : bool :=
  match nth_error s i with
  | Some x => (x =? c)%N
  | None => false
  end.

Fixpoint dropSpaces (s : text) : text :=
  match s with
  | c :: s' => if isSpace c then dropSpaces s' else s
  | [] => []
  end.

Definition trim (s : text) : text :=
  rev (dropSpaces (rev (dropSpaces s))).

Fixpoint join (sep : text) (parts : list text) : text :=
  match parts with
  | [] => []
  | [p] => p
  | p :: rest => p ++ sep ++ join sep rest
  end.

(** [String(n)] for a natural number. *)
Definition ofNat (n : nat) : text :=
  str (NilEmpty.string_of_uint (Nat.to_uint n)).

End JsString.

(* ================================================================== *)
(** ** Snippet object-scanner (rules/prisma/writeTenantBoundary.ts) *)
(* ================================================================== *)

Module Scanner.
Import JsString.

(** How the comment-skipping loop ends. *)
Inductive SkipOutcome : Type :=
| Break (i : nat)   (** the loop is left with the cursor at [i] *)
| ReturnNull        (** [return null] from inside the loop *)
| OutOfFuel.        (** the model's iteration bound was reached *)

(** The [while (i < snippet.length)] loop.  Every iteration moves the
    cursor forward, so [length snippet] iterations are enough (see
    [skipTrivia_fuel]). *)
Fixpoint skipTrivia (fuel : nat) (snippet : text) (i : nat) : SkipOutcome :=
  match fuel with
  | O => OutOfFuel
  | S fuel' =>
    match nth_error snippet i with
    | None => Break i
    | Some ch =>
      if isSpace ch then skipTrivia fuel' snippet (i + 1)
      else if (ch =? Ch.SLASH)%N && charIs snippet (i + 1) Ch.SLASH then
        match indexOf snippet [Ch.NL] (i + 2) with
        | None => ReturnNull
        | Some nl => skipTrivia fuel' snippet (nl + 1)
        end
      else if (ch =? Ch.SLASH)%N && charIs snippet (i + 1) Ch.STAR then
        match indexOf snippet [Ch.STAR; Ch.SLASH] (i + 2) with
        | None => ReturnNull
        | Some e => skipTrivia fuel' snippet (e + 2)
        end
      else Break i
    end
  end.

Definition depthStep (depth : Z) (ch : N) : Z :=
  if (ch =? Ch.LBRACE)%N then (depth + 1)%Z
  else if (ch =? Ch.RBRACE)%N then (depth - 1)%Z
  else depth.

(** The [for (let j = start; j < length; j++)] loop over the characters
    [rest] from [j] on: the first [j] after which the depth is zero. *)
Fixpoint scanDepth (rest : text) (depth : Z) (j : nat) : option nat :=
  match rest with
  | [] => None
  | ch :: rest' =>
    let depth' := depthStep depth ch in
    if (depth' =? 0)%Z then Some j else scanDepth rest' depth' (S j)
  end.

(** The balanced block that starts at [start], as both extractors cut it. *)
Definition balancedFrom (s : text) (start : nat) : option text :=
  match scanDepth (skipn start s) 0 start with
  | Some j => Some (slice s start (j + 1))
  | None => None
  end.

Definition extractInlineFirstArgObject (snippet : text) : option text :=
  match indexOf snippet [Ch.LPAREN] 0 with
  | None => None
  | Some openParen =>
    match skipTrivia (S (length snippet)) snippet (openParen + 1) with
    | Break i =>
      if charIs snippet i Ch.LBRACE then balancedFrom snippet i else None
    | ReturnNull => None
    | OutOfFuel => None
    end
  end.

(** *** Key detection: [new RegExp(`\\b${key}\\b\\s*:`, "m")]

    The pattern's source text is parsed and matched here for the part of
    the regular-expression syntax the rule's own text uses, plus the
    characters a key can bring in with no further syntax: literal
    characters, [.], [^] and [$].  Any other syntax character in the source
    ([\ ] outside [\b] and [\s*], or one of [* + ? ( ) [ ] { } |]) is
    outside this fragment and parses to [None]. *)

Inductive atom : Type :=
| Lit (c : N)     (** a pattern character *)
| AnyChar         (** [.] *)
| LineStart       (** [^] with the [m] flag *)
| LineEnd         (** [$] with the [m] flag *)
| WordBoundary    (** [\b] *)
| SpaceStar.      (** [\s*] *)

Definition pattern := list atom.

Definition isSyntaxChar (c : N) : bool :=
  ((c =? Ch.CARET) || (c =? Ch.DOLLAR) || (c =? Ch.BACKSLASH) || (c =? Ch.DOT)
   || (c =? Ch.STAR) || (c =? Ch.PLUS) || (c =? Ch.QUESTION)
   || (c =? Ch.LPAREN) || (c =? Ch.RPAREN) || (c =? Ch.LBRACKET)
   || (c =? Ch.RBRACKET) || (c =? Ch.LBRACE) || (c =? Ch.RBRACE)
   || (c =? Ch.PIPE))%N.

Definition consAtom (a : atom) (r : option pattern) : option pattern :=
  match r with
  | Some p => Some (a :: p)
  | None => None
  end.

Fixpoint parsePattern (src : text) : option pattern :=
  match src with
  | [] => Some []
  | c :: rest =>
    if (c =? Ch.BACKSLASH)%N then
      match rest with
      | e :: rest' =>
        if (e =? 98)%N (* b *) then consAtom WordBoundary (parsePattern rest')
        else if (e =? 115)%N (* s *) then
          match rest' with
          | q :: rest'' =>
            if (q =? Ch.STAR)%N then consAtom SpaceStar (parsePattern rest'')
            else None
          | [] => None
          end
        else None
      | [] => None
      end
    else if (c =? Ch.DOT)%N then consAtom AnyChar (parsePattern rest)
    else if (c =? Ch.CARET)%N then consAtom LineStart (parsePattern rest)
    else if (c =? Ch.DOLLAR)%N then consAtom LineEnd (parsePattern rest)
    else if isSyntaxChar c then None
    else consAtom (Lit c) (parsePattern rest)
  end.

Definition isWordAt (c : option N) : bool :=
  match c with
  | Some x => isWordChar x
  | None => false
  end.

Definition atLineEdge (c : option N) : bool :=
  match c with
  | Some x => isLineTerminator x
  | None => true
  end.

(** Does the pattern match at the current position?  [prev] is the
    character before the position (none at the start of the input), [rest]
    the input from the position on. *)
Fixpoint matchHere (p : pattern) : option N -> text -> bool :=
  match p with
  | [] => fun _ _ => true
  | a :: p' =>
    match a with
    | Lit c => fun _ rest =>
        match rest with
        | x :: r => (x =? c)%N && matchHere p' (Some x) r
        | [] => false
        end
    | AnyChar => fun _ rest =>
        match rest with
        | x :: r => negb (isLineTerminator x) && matchHere p' (Some x) r
        | [] => false
        end
    | LineStart => fun prev rest => atLineEdge prev && matchHere p' prev rest
    | LineEnd => fun prev rest =>
        atLineEdge (hd_error rest) && matchHere p' prev rest
    | WordBoundary => fun prev rest =>
        xorb (isWordAt prev) (isWordAt (hd_error rest))
        && matchHere p' prev rest
    | SpaceStar =>
        fix star (prev : option N) (rest : text) {struct rest} : bool :=
          matchHere p' prev rest
          || match rest with
             | x :: r => isSpace x && star (Some x) r
             | [] => false
             end
    end
  end.

(** [re.test(s)] for a pattern without the [g] flag: a match at some
    position. *)
Fixpoint searchFrom (p : pattern) (prev : option N) (rest : text) : bool :=
  matchHere p prev rest
  || match rest with
     | x :: r => searchFrom p (Some x) r
     | [] => false
     end.

Definition test (p : pattern) (s : text) : bool := searchFrom p None s.

Definition tenantKeyPatternSource (key : text) : text :=
  str "\b" ++ key ++ str "\b\s*:".

(** [None]: the pattern of some key tried is outside the fragment above. *)
Fixpoint whereHasTenantKey (whereBlock : text) (tenantKeys : list text)
  : option bool :=
  match tenantKeys with
  | [] => Some false
  | key :: keys =>
    match parsePattern (tenantKeyPatternSource key) with
    | None => None
    | Some re =>
      if test re whereBlock then Some true
      else whereHasTenantKey whereBlock keys
    end
  end.

End Scanner.

(* ================================================================== *)
(** ** Finding model (engine/types.ts) *)
(* ================================================================== *)

Inductive Severity : Type := blocker | high | med | low | info.

Inductive StackName : Type := auto | nextjs | vite | nestjs.

Inductive AuthKind : Type :=
| authAuto | nextauth | clerk | betterauth | custom | authNone.

Definition Severity_eqb (a b : Severity) : bool :=
  match a, b with
  | blocker, blocker | high, high | med, med | low, low | info, info => true
  | _, _ => false
  end.

Definition StackName_eqb (a b : StackName) : bool :=
  match a, b with
  | auto, auto | nextjs, nextjs | vite, vite | nestjs, nestjs => true
  | _, _ => false
  end.

(** The string a severity is at run time. *)
Definition severityText (s : Severity) : text :=
  match s with
  | blocker => str "blocker"
  | high => str "high"
  | med => str "med"
  | low => str "low"
  | info => str "info"
  end.

Record Finding : Type := mkFinding {
  ruleId : text;
  severity : Severity;
  message : text;
  file : text;
  line : option nat;
  col : option nat;
  fixHint : option text
}.

(** What a failing operation throws, through what the engine reads of it.
    For most values that is [e?.message] when it is neither [null] nor
    [undefined], and [String(e)].  Reading the message or turning the
    value into a string runs code of the value itself (a getter,
    [toString]), which can throw in its turn: such a value is given by
    what it throws then. *)
Inductive Thrown : Type :=
| mkThrown (thrownMessage : option text) (thrownString : text)
| mkUnprintable (raised : Thrown).

Inductive Result (A : Type) : Type :=
| Ok (a : A)
| Threw (e : Thrown).

Arguments Ok {A} a.
Arguments Threw {A} e.

(** [String(e?.message ?? e)] *)
Definition failureText (e : Thrown) : Result text :=
  match e with
  | mkThrown (Some m) _ => Ok m
  | mkThrown None s => Ok s
  | mkUnprintable raised => Threw raised
  end.

#[global] Instance Monad_Result : Monad Result :=
  {| ret := fun _ a => Ok a;
     bind := fun _ _ m k =>
               match m with
               | Ok a => k a
               | Threw e => Threw e
               end |}.

#[global] Instance Exc_Result : MonadExc Thrown Result :=
  {| raise := fun _ e => Threw e;
     catch := fun _ m handler =>
                match m with
                | Ok a => Ok a
                | Threw e => handler e
                end |}.

(* ================================================================== *)
(** ** Positions (rules/_shared.ts) and their SARIF rendering *)
(* ================================================================== *)

Module Shared.

(** [pre.split(/\r?\n/)]: [cur] holds the current piece, reversed. *)
Fixpoint splitLinesFrom (cur : text) (s : text) : list text :=
  match s with
  | [] => [rev cur]
  | c :: rest =>
    if (c =? Ch.NL)%N then rev cur :: splitLinesFrom [] rest
    else if (c =? Ch.CR)%N then
      match rest with
      | d :: rest' =>
        if (d =? Ch.NL)%N then rev cur :: splitLinesFrom [] rest'
        else splitLinesFrom (c :: cur) rest
      | [] => splitLinesFrom (c :: cur) rest
      end
    else splitLinesFrom (c :: cur) rest
  end.

Definition splitLines (s : text) : list text := splitLinesFrom [] s.

Record LineCol : Type := mkLineCol { lcLine : nat; lcCol : nat }.

Definition firstLineCol (code : text) (idx : Z) : LineCol :=
  let pre := JsString.slice code 0 (Z.to_nat (Z.max 0 idx)) in
  let lines := splitLines pre in
  {| lcLine := length lines; lcCol := length (last lines []) |}.

(** A finding located with [...firstLineCol(code, idx)]. *)
Definition located (f : Finding) (code : text) (idx : Z) : Finding :=
  let lc := firstLineCol code idx in
  {| ruleId := ruleId f; severity := severity f; message := message f;
     file := file f; line := Some (lcLine lc); col := Some (lcCol lc);
     fixHint := fixHint f |}.

End Shared.

Module Sarif.

Record Region : Type := mkRegion { startLine : nat; startColumn : nat }.

(** [region: { startLine: f.line ?? 1, startColumn: (f.col ?? 0) + 1 }] *)
Definition region (f : Finding) : Region :=
  {| startLine := match line f with Some l => l | None => 1 end;
     startColumn := match col f with Some c => c | None => 0 end + 1 |}.

Inductive Level : Type := error | warning | note.

Definition level (f : Finding) : Level :=
  match severity f with
  | blocker | high => error
  | med => warning
  | _ => note
  end.

(** One entry of [results], with its single location. *)
Record SarifResult : Type := mkSarifResult {
  resultRuleId : text;
  resultLevel : Level;
  resultText : text;
  resultUri : text;
  resultRegion : Region
}.

Definition toSarif (findings : list Finding) (rootDir : text)
  : list SarifResult :=
  map (fun f =>
         {| resultRuleId := ruleId f;
            resultLevel := level f;
            resultText := message f;
            resultUri :=
              if JsString.startsWith (file f) rootDir
              then JsString.slice (file f) (length rootDir + 1)
                                  (length (file f))
              else file f;
            resultRegion := region f |})
      findings.

End Sarif.

(* ================================================================== *)
(** ** Baseline suppression (engine/baseline.ts) *)
(* ================================================================== *)

(** [Map<string, number>]: the entries in insertion order, one per key. *)
Module JsMap.

Definition t := list (text * nat).

Definition empty : t := [].

Fixpoint get (m : t) (k : text) : option nat :=
  match m with
  | [] => None
  | (k', v) :: m' => if text_eqb k' k then Some v else get m' k
  end.

(** [m.set(k, v)]: a key already present keeps its place. *)
Fixpoint set (m : t) (k : text) (v : nat) : t :=
  match m with
  | [] => [(k, v)]
  | (k', v') :: m' =>
    if text_eqb k' k then (k', v) :: m' else (k', v') :: set m' k v
  end.

(** [new Map(pairs)]: the pairs are set one after the other. *)
Definition ofEntries (pairs : list (text * nat)) : t :=
  fold_left (fun m kv => set m (fst kv) (snd kv)) pairs empty.

(** [m.get(k) ?? 0] *)
Definition getOr0 (m : t) (k : text) : nat :=
  match get m k with
  | Some v => v
  | None => 0
  end.

End JsMap.

Module Baseline.

Record Item : Type := mkItem { key : text; count : nat }.

(** The baseline document; [version] is the constant 1. *)
Record t : Type := mkBaseline { items : list Item }.

Definition sep : text := str "|".

Definition optNat (n : option nat) : text :=
  match n with
  | Some v => JsString.ofNat v
  | None => []
  end.

Definition keyOf (f : Finding) : text :=
  JsString.join sep
    [ruleId f; severityText (severity f); file f;
     optNat (line f); optNat (col f); message f].

(** The counting loop of [writeBaseline]. *)
Definition countKeys (findings : list Finding) : JsMap.t :=
  fold_left
    (fun counts f =>
       let k := keyOf f in JsMap.set counts k (JsMap.getOr0 counts k + 1))
    findings JsMap.empty.

(** The document [writeBaseline] serialises. *)
Definition baselineOf (findings : list Finding) : t :=
  {| items := map (fun kv => {| key := fst kv; count := snd kv |})
                  (countKeys findings) |}.

(** The files baselines are kept in: a path holds a document, or nothing
    that parses as one. *)
Definition Files := text -> option t.

Definition writeBaseline (p : text) (findings : list Finding) (fs : Files)
  : Files :=
  fun q => if text_eqb q p then Some (baselineOf findings) else fs q.

Definition loadBaseline (p : text) (fs : Files) : t :=
  match fs p with
  | Some b => b
  | None => {| items := [] |}
  end.

(** The loop of [applyBaseline]: [seen] and [out] are its state. *)
Fixpoint applyLoop (allowed seen : JsMap.t) (findings : list Finding)
  : list Finding :=
  match findings with
  | [] => []
  | f :: rest =>
    let k := keyOf f in
    let cur := JsMap.getOr0 seen k in
    let lim := JsMap.getOr0 allowed k in
    if cur <? lim then applyLoop allowed (JsMap.set seen k (cur + 1)) rest
    else f :: applyLoop allowed seen rest
  end.

(** [new Map(baseline.items.map((i) => [i.key, i.count]))] *)
Definition allowedOf (baseline : t) : JsMap.t :=
  JsMap.ofEntries (map (fun i => (key i, count i)) (items baseline)).

Definition applyBaseline (findings : list Finding) (baseline : t)
  : list Finding :=
  let allowed := allowedOf baseline in
  applyLoop allowed JsMap.empty findings.

End Baseline.

(* ================================================================== *)
(** ** Report summary and exit code (engine/report.ts) *)
(* ================================================================== *)

Module Report.

Record Summary : Type := mkSummary {
  nBlocker : nat; nHigh : nat; nMed : nat; nLow : nat; nInfo : nat
}.

Definition bump (acc : Summary) (f : Finding) : Summary :=
  match severity f with
  | blocker => {| nBlocker := nBlocker acc + 1; nHigh := nHigh acc;
                  nMed := nMed acc; nLow := nLow acc; nInfo := nInfo acc |}
  | high => {| nBlocker := nBlocker acc; nHigh := nHigh acc + 1;
               nMed := nMed acc; nLow := nLow acc; nInfo := nInfo acc |}
  | med => {| nBlocker := nBlocker acc; nHigh := nHigh acc;
              nMed := nMed acc + 1; nLow := nLow acc; nInfo := nInfo acc |}
  | low => {| nBlocker := nBlocker acc; nHigh := nHigh acc;
              nMed := nMed acc; nLow := nLow acc + 1; nInfo := nInfo acc |}
  | info => {| nBlocker := nBlocker acc; nHigh := nHigh acc;
               nMed := nMed acc; nLow := nLow acc; nInfo := nInfo acc + 1 |}
  end.

Definition summarize (findings : list Finding) : Summary :=
  fold_left bump findings
    {| nBlocker := 0; nHigh := 0; nMed := 0; nLow := 0; nInfo := 0 |}.

(** A count is truthy when it is not zero. *)
Definition truthy (n : nat) : bool := negb (n =? 0).

Definition exitCode (findings : list Finding) (strict : bool) : Z :=
  if negb strict then 0%Z
  else
    let s := summarize findings in
    if truthy (nBlocker s) then 2%Z
    else if truthy (nHigh s) then 1%Z
    else 0%Z.

End Report.

(* ================================================================== *)
(** ** Scan context and rules (engine/types.ts) *)
(* ================================================================== *)

(** The result of the discovery prepass (utils/discoverAuthGuards.ts). *)
Record DiscoveredAuth : Type := mkDiscoveredAuth {
  guards : list text;
  publicApiExact : list text;
  publicApiPrefix : list text;
  proxyApiPrefix : list text
}.

(** [config.auth] when it is an object, as [mergeWithUserConfig] reads it:
    each property is a list when [Array.isArray] holds of it, its entries
    taken through [String]. *)
Record AuthObject : Type := mkAuthObject {
  cfgGuards : option (list text);
  cfgPublicApiExact : option (list text);
  cfgPublicApiPrefix : option (list text);
  cfgProxyApiPrefix : option (list text)
}.

(** What [(ctx.config as any)?.auth] holds: the declared [AuthKind] string,
    an object, or nothing. *)
Inductive AuthSetting : Type :=
| AuthIsKind (k : AuthKind)
| AuthIsObject (o : AuthObject)
| AuthMissing.

(** The [__discoveredAuth] property the engine stashes on the config. *)
Inductive Stash : Type :=
| NotStashed
| StashedEmpty
| Stashed (d : DiscoveredAuth).

Record CheckerConfig : Type := mkCheckerConfig {
  cfgStack : StackName;
  auth : AuthSetting;
  authGuards : list text;
  ignore : list text;
  maxFileBytes : N;
  discoveredAuth : Stash
}.

Record RuleContext : Type := mkRuleContext {
  rootDir : text;
  files : list text;
  relPaths : list text;
  readFile : text -> Result text;
  config : CheckerConfig;
  repoStack : StackName
}.

(** What the call of a function of type [(...) => Promise<A>] gives: the
    promise it returns, through what the promise settles to, or what the
    call throws before there is a promise. *)
Inductive Call (A : Type) : Type :=
| Returned (promise : Result A)
| Throws (e : Thrown).

Arguments Returned {A} promise.
Arguments Throws {A} e.

(** An [async] function always returns a promise: whatever its body
    throws is the rejection of that promise. *)
Definition async {A : Type} (body : Result A) : Call A := Returned body.

(** [run] is any function of its type: the rules of the registry declare
    it [async], the type does not ask for it.  No rule writes to the
    context. *)
Record Rule : Type := mkRule {
  id : text;
  description : text;
  stack : list StackName;
  run : RuleContext -> Call (list Finding)
}.

(* ================================================================== *)
(** ** Discovery prepass (utils/discoverAuthGuards.ts) *)
(* ================================================================== *)

Module Discovery.
Import JsString.

Definition COMMON_GUARDS : list text :=
  [ str "getServerSession"; str "unstable_getServerSession"; str "auth";
    str "currentUser"; str "requireAuth"; str "requireUser";
    str "requireWorkspace"; str "requireAuthedWorkspace";
    str "withWorkspace"; str "withFeatureFlag" ].

(** [Boolean(s)] for a string. *)
Definition nonEmpty (s : text) : bool :=
  match s with
  | [] => false
  | _ :: _ => true
  end.

Fixpoint mem (x : text) (l : list text) : bool :=
  match l with
  | [] => false
  | y :: l' => text_eqb y x || mem x l'
  end.

(** [set.add(x)] on a [Set<string>], kept as its elements in insertion
    order. *)
Definition setAdd (s : list text) (x : text) : list text :=
  if mem x s then s else s ++ [x].

Definition setAddAll (s : list text) (xs : list text) : list text :=
  fold_left setAdd xs s.

(** [[...new Set(arr.filter(Boolean))]] *)
Definition uniq (arr : list text) : list text :=
  setAddAll [] (filter nonEmpty arr).

Definition normalizeApiPath (p : text) : text :=
  let s := trim p in
  if negb (nonEmpty s) then s
  else
    let s := if negb (startsWith s (str "/")) then str "/" ++ s else s in
    if (1 <? length s) && endsWith s (str "/") then removelast s else s.

Record PublicApiHints : Type := mkPublicApiHints {
  hintExact : list text;
  hintPrefix : list text;
  hintProxy : list text
}.

Definition pushIf (c : bool) (x : text) (out : list text) : list text :=
  if c then out ++ [x] else out.

Definition inferProxyPrefixesFromPath (posixPath : text) : list text :=
  let out := [] in
  let out := pushIf (includes posixPath (str "/app/api/embed-proxy/"))
                    (str "/api/embed-proxy") out in
  let out := pushIf (includes posixPath (str "/app/api/og/"))
                    (str "/api/og") out in
  let out := pushIf (includes posixPath (str "/app/api/stripe/webhook/"))
                    (str "/api/stripe/webhook") out in
  let out := pushIf (includes posixPath (str "/app/api/health/"))
                    (str "/api/health") out in
  let out := pushIf (includes posixPath (str "/app/api/_debug/"))
                    (str "/api/_debug") out in
  map normalizeApiPath out.

(** [/\.(ts|tsx|js|jsx)$/.test(p)] *)
Definition hasScriptExtension (p : text) : bool :=
  endsWith p (str ".ts") || endsWith p (str ".tsx")
  || endsWith p (str ".js") || endsWith p (str ".jsx").

Definition arrayOr (o : option (list text)) : list text :=
  match o with
  | Some l => l
  | None => []
  end.

(** [cfgAuth = (ctx.config as any)?.auth ?? {}]: a property read off a
    string or off the empty object is not an array. *)
Definition cfgAuthObject (c : CheckerConfig) : AuthObject :=
  match auth c with
  | AuthIsObject o => o
  | AuthIsKind _ | AuthMissing =>
    {| cfgGuards := None; cfgPublicApiExact := None;
       cfgPublicApiPrefix := None; cfgProxyApiPrefix := None |}
  end.

Definition mergeWithUserConfig (discovered : DiscoveredAuth)
  (ctx : RuleContext) : DiscoveredAuth :=
  let cfgAuth := cfgAuthObject (config ctx) in
  {| guards :=
       uniq (guards discovered
             ++ filter nonEmpty (map trim (arrayOr (cfgGuards cfgAuth))));
     publicApiExact :=
       uniq (publicApiExact discovered
             ++ map normalizeApiPath (arrayOr (cfgPublicApiExact cfgAuth)));
     publicApiPrefix :=
       uniq (publicApiPrefix discovered
             ++ map normalizeApiPath (arrayOr (cfgPublicApiPrefix cfgAuth)));
     proxyApiPrefix :=
       uniq (proxyApiPrefix discovered
             ++ map normalizeApiPath (arrayOr (cfgProxyApiPrefix cfgAuth)))
  |}.

(** The four accumulators of [discoverAuthGuards]. *)
Record Found : Type := mkFound {
  foundGuards : list text;
  foundExact : list text;
  foundPrefix : list text;
  foundProxy : list text
}.

(** *** The per-file scanners

    Their regular expressions are matched here by hand.  In each of them a
    greedy [\s+], [\s*], [\S+] or [[A-Za-z0-9_]+] is followed by something
    that cannot begin with a character of the repeated class (or by the
    end of the expression), so taking the longest run is the only way to
    match. *)

Fixpoint takeWhile (p : N -> bool) (s : text) : text :=
  match s with
  | c :: r => if p c then c :: takeWhile p r else []
  | [] => []
  end.

Fixpoint dropWhile (p : N -> bool) (s : text) : text :=
  match s with
  | c :: r => if p c then dropWhile p r else s
  | [] => []
  end.

(** A literal piece of an expression: what follows it. *)
Definition literal (lit s : text) : option text :=
  if startsWith s lit then Some (skipn (length lit) s) else None.

(** [\s+] *)
Definition spaces1 (s : text) : option text :=
  match s with
  | c :: r => if isSpace c then Some (dropWhile isSpace r) else None
  | [] => None
  end.

(** A capture [(C+)] for a class [C]: the captured text and what follows. *)
Definition capture1 (p : N -> bool) (s : text) : option (text * text) :=
  let n := takeWhile p s in
  if nonEmpty n then Some (n, skipn (length n) s) else None.

Definition andThen {A B : Type} (m : option A) (k : A -> option B)
  : option B :=
  match m with
  | Some a => k a
  | None => None
  end.

(** A match at the start of [s]: the captured text and the length of the
    match. *)
Definition matched (s : text) (r : option (text * text))
  : option (text * nat) :=
  andThen r (fun nr => Some (fst nr, length s - length (snd nr))).

(** [/export\s+(?:async\s+)?function\s+([A-Za-z0-9_]+)/] at the start of
    [s]. *)
Definition matchExportFunction (s : text) : option (text * nat) :=
  matched s
    (andThen (literal (str "export") s) (fun r1 =>
     andThen (spaces1 r1) (fun r2 =>
     let viaAsync :=
       andThen (literal (str "async") r2) (fun r3 =>
       andThen (spaces1 r3) (fun r4 => literal (str "function") r4)) in
     andThen (match viaAsync with
              | Some r => Some r
              | None => literal (str "function") r2
              end) (fun r5 =>
     andThen (spaces1 r5) (fun r6 => capture1 isWordChar r6))))).

(** [/export\s+const\s+([A-Za-z0-9_]+)\s*=/] at the start of [s]. *)
Definition matchExportConst (s : text) : option (text * nat) :=
  matched s
    (andThen (literal (str "export") s) (fun r1 =>
     andThen (spaces1 r1) (fun r2 =>
     andThen (literal (str "const") r2) (fun r3 =>
     andThen (spaces1 r3) (fun r4 =>
     andThen (capture1 isWordChar r4) (fun nr =>
     andThen (literal (str "=") (dropWhile isSpace (snd nr))) (fun r5 =>
     Some (fst nr, r5)))))))).

(** [/marker\s+(\S+)/] at the start of [s]. *)
Definition matchHint (marker s : text) : option (text * nat) :=
  matched s
    (andThen (literal marker s) (fun r1 =>
     andThen (spaces1 r1) (fun r2 =>
     capture1 (fun c => negb (isSpace c)) r2))).

(** The loop [while ((m = re.exec(code)))] of a [g] expression: the
    captures of the matches from left to right, each search starting where
    the match before ended ([skip] characters from here). *)
Fixpoint execAll (matchAt : text -> option (text * nat)) (skip : nat)
  (s : text) : list text :=
  match s with
  | [] => []
  | _ :: rest =>
    match skip with
    | S skip' => execAll matchAt skip' rest
    | O =>
      match matchAt s with
      | Some (name, len) => name :: execAll matchAt (len - 1) rest
      | None => execAll matchAt 0 rest
      end
    end
  end.

(** [s.match(re)?.[1]] for an expression without the [g] flag: the capture
    of the leftmost match. *)
Fixpoint firstCapture (matchAt : text -> option (text * nat)) (s : text)
  : option text :=
  match matchAt s with
  | Some (name, _) => Some name
  | None =>
    match s with
    | [] => None
    | _ :: rest => firstCapture matchAt rest
    end
  end.

(** Upper case, as the [i] flag compares characters. *)
Definition upper (c : N) : N :=
  if ((97 <=? c) && (c <=? 122))%N then (c - 32)%N else c.

Fixpoint startsWithIgnoringCase (s needle : text) : bool :=
  match needle, s with
  | [], _ => true
  | _ :: _, [] => false
  | n :: needle', c :: s' =>
    (upper c =? upper n)%N && startsWithIgnoringCase s' needle'
  end.

(** The two [if]s on a declared name. *)
Definition addDeclared (guards : list text) (name : text) : list text :=
  let guards :=
    if mem name COMMON_GUARDS then setAdd guards name else guards in
  if startsWithIgnoringCase name (str "require")
     || startsWithIgnoringCase name (str "with")
  then setAdd guards name else guards.

(** [parseTs(code)] is called for nothing but its failure, which is
    caught and ignored. *)
Definition discoverAuthGuardsFromCode (code : text) : list text :=
  let guards := [] in
  let guards :=
    fold_left addDeclared (execAll matchExportFunction 0 code) guards in
  let guards :=
    fold_left addDeclared (execAll matchExportConst 0 code) guards in
  fold_left (fun gs g => if includes code g then setAdd gs g else gs)
            COMMON_GUARDS guards.

(** [code.split("\n")]: [cur] holds the current line, reversed. *)
Fixpoint splitNewlines (cur : text) (s : text) : list text :=
  match s with
  | [] => [rev cur]
  | c :: rest =>
    if (c =? Ch.NL)%N then rev cur :: splitNewlines [] rest
    else splitNewlines (c :: cur) rest
  end.

Definition pushHint (marker line : text) (out : list text) : list text :=
  match firstCapture (matchHint marker) line with
  | Some path => if nonEmpty path then out ++ [normalizeApiPath path] else out
  | None => out
  end.

Definition discoverPublicApiHints (code : text) : PublicApiHints :=
  fold_left
    (fun hints line =>
       {| hintExact :=
            pushHint (str "vibecheck:public-api") line (hintExact hints);
          hintPrefix :=
            pushHint (str "vibecheck:public-api-prefix") line
                     (hintPrefix hints);
          hintProxy :=
            pushHint (str "vibecheck:proxy-api-prefix") line
                     (hintProxy hints) |})
    (splitNewlines [] code)
    {| hintExact := []; hintPrefix := []; hintProxy := [] |}.

Section PerFile.

(** [toPosix] (utils/path.ts) is not part of the sources at hand; the
    prepass is modelled for any such function. *)
Variable toPosix : text -> text.

Definition shouldScanFileForGuards (relPath : text) : bool :=
  let p := toPosix relPath in
  includes p (str "/api/") || includes p (str "/auth")
  || endsWith p (str ".ts") || endsWith p (str ".tsx")
  || endsWith p (str ".js") || endsWith p (str ".jsx").

(** The body of the loop over [ctx.files] for a file whose text was read. *)
Definition scanCode (p code : text) (acc : Found) : Found :=
  let hints := discoverPublicApiHints code in
  {| foundGuards := setAddAll (foundGuards acc)
                              (discoverAuthGuardsFromCode code);
     foundExact := foundExact acc ++ hintExact hints;
     foundPrefix := foundPrefix acc ++ hintPrefix hints;
     foundProxy := (foundProxy acc ++ hintProxy hints)
                   ++ inferProxyPrefixesFromPath p |}.

(** The loop [for (let i = 0; i < ctx.files.length; i++)], at index [i] with
    [rest] the files from [i] on.  A failing read leaves the function. *)
Fixpoint scanFiles (ctx : RuleContext) (rest : list text) (i : nat)
  (acc : Found) : Result Found :=
  match rest with
  | [] => ret acc
  | abs :: rest' =>
    let rp := match nth_error (relPaths ctx) i with
              | Some r => r
              | None => abs
              end in
    let p := toPosix rp in
    if negb (hasScriptExtension p) then scanFiles ctx rest' (S i) acc
    else if negb (shouldScanFileForGuards p) then scanFiles ctx rest' (S i) acc
    else
      code <- readFile ctx abs ;;
      if negb (nonEmpty code) then scanFiles ctx rest' (S i) acc
      else scanFiles ctx rest' (S i) (scanCode p code acc)
  end%monad.

Definition discoverAuthGuards (ctx : RuleContext) : Result DiscoveredAuth :=
  let start :=
    {| foundGuards := setAddAll [] COMMON_GUARDS;
       foundExact := []; foundPrefix := []; foundProxy := [] |} in
  (acc <- scanFiles ctx (files ctx) 0 start ;;
   let discovered :=
     {| guards := uniq (foundGuards acc);
        publicApiExact := uniq (map normalizeApiPath (foundExact acc));
        publicApiPrefix := uniq (map normalizeApiPath (foundPrefix acc));
        proxyApiPrefix := uniq (map normalizeApiPath (foundProxy acc)) |} in
   ret (mergeWithUserConfig discovered ctx))%monad.

End PerFile.

End Discovery.

(* ================================================================== *)
(** ** Execution engine (engine/runRules.ts) *)
(* ================================================================== *)

Module Engine.

Definition withStash (ctx : RuleContext) (s : Stash) : RuleContext :=
  let c := config ctx in
  {| rootDir := rootDir ctx; files := files ctx; relPaths := relPaths ctx;
     readFile := readFile ctx;
     config := {| cfgStack := cfgStack c; auth := auth c;
                  authGuards := authGuards c; ignore := ignore c;
                  maxFileBytes := maxFileBytes c; discoveredAuth := s |};
     repoStack := repoStack ctx |}.

(** The finding of a failed discovery, [failure] being the text
    [String(e?.message ?? e)] gave. *)
Definition discoveryFailed (ctx : RuleContext) (failure : text) : Finding :=
  {| ruleId := str "discover-auth-guards"; severity := info;
     message := str "Auth discovery failed: " ++ failure;
     file := rootDir ctx; line := None; col := None; fixHint := None |}.

Definition ruleCrashed (ctx : RuleContext) (rule : Rule) (failure : text)
  : Finding :=
  {| ruleId := id rule; severity := info;
     message := str "Rule crashed: " ++ failure;
     file := rootDir ctx; line := None; col := None; fixHint := None |}.

Definition stackIncludes (l : list StackName) (s : StackName) : bool :=
  existsb (StackName_eqb s) l.

(** The rule is not skipped by the [continue] of the loop. *)
Definition applicable (ctx : RuleContext) (rule : Rule) : bool :=
  negb (negb (stackIncludes (stack rule) auto)
        && negb (stackIncludes (stack rule) (repoStack ctx))).

(** [await rule.run(ctx).catch(...)].  [.catch] is a method of the promise
    that [run] returns: it handles the rejection of that promise, and
    nothing of what the call throws before it returns one, which leaves
    [runRules].  The handler builds its finding with
    [String(e?.message ?? e)], and fails where that does. *)
Definition runCaught (ctx : RuleContext) (rule : Rule)
  : Result (list Finding) :=
  match run rule ctx with
  | Returned promise =>
    catch promise
      (fun e =>
         failure <- failureText e ;;
         ret [ruleCrashed ctx rule failure])
  | Throws e => raise e
  end%monad.

(** The loop over the rules; [out] is the array being filled. *)
Fixpoint runLoop (ctx : RuleContext) (rules : list Rule) (out : list Finding)
  : Result (list Finding) :=
  match rules with
  | [] => ret out
  | rule :: rest =>
    if applicable ctx rule then
      findings <- runCaught ctx rule ;;
      runLoop ctx rest (out ++ findings)
    else runLoop ctx rest out
  end%monad.

Section Prepass.

Variable toPosix : text -> text.

(** The prepass in its [try]/[catch]: the context with the stash written,
    and [out] so far.  The [catch] block builds its finding before it
    writes the stash, and fails where [String(e?.message ?? e)] does. *)
Definition prepass (ctx : RuleContext)
  : Result (RuleContext * list Finding) :=
  catch
    (discovered <- Discovery.discoverAuthGuards toPosix ctx ;;
     ret (withStash ctx (Stashed discovered), []))%monad
    (fun e =>
       (failure <- failureText e ;;
        ret (withStash ctx StashedEmpty,
             [discoveryFailed ctx failure]))%monad).

Definition runRules (ctx : RuleContext) (rules : list Rule)
  : Result (list Finding) :=
  (st <- prepass ctx ;;
   runLoop (fst st) rules (snd st))%monad.

End Prepass.

End Engine.

(* ================================================================== *)
(** ** The specification's notions *)
(* ================================================================== *)

Module Spec.
Import JsString Scanner.

(** *** Baseline *)

Definition hasSignature (S : text) (f : Finding) : bool :=
  text_eqb (Baseline.keyOf f) S.

(** The findings with signature [S], in findings order. *)
Definition withSignature (S : text) (fs : list Finding) : list Finding :=
  filter (hasSignature S) fs.

Definition occurrences (S : text) (fs : list Finding) : nat :=
  length (withSignature S fs).

(** The count a baseline document records for [S]: that of its last item
    for [S] should it list the signature more than once, 0 when it does
    not list it. *)
Definition recorded (b : Baseline.t) (S : text) : nat :=
  match find (fun i => text_eqb (Baseline.key i) S) (rev (Baseline.items b))
  with
  | Some i => Baseline.count i
  | None => 0
  end.

(** The findings that are not among the first [lim S] of their signature
    [S]; [before] holds the findings already passed. *)
Fixpoint beyondRecorded (lim : text -> nat) (before fs : list Finding)
  : list Finding :=
  match fs with
  | [] => []
  | f :: rest =>
    let S := Baseline.keyOf f in
    if occurrences S before <? lim S
    then beyondRecorded lim (before ++ [f]) rest
    else f :: beyondRecorded lim (before ++ [f]) rest
  end.

(** *** Exit status *)

Definition isBlocker (f : Finding) : bool := Severity_eqb (severity f) blocker.
Definition isHigh (f : Finding) : bool := Severity_eqb (severity f) high.

(** The findings the exit status looks at. *)
Definition severe (f : Finding) : bool := isBlocker f || isHigh f.

Definition exitStatus (fs : list Finding) (strict : bool) : Z :=
  if strict then
    if existsb isBlocker fs then 2%Z
    else if existsb isHigh fs then 1%Z
    else 0%Z
  else 0%Z.

(** *** Positions *)

Fixpoint untilNewline (s : text) : text :=
  match s with
  | [] => []
  | c :: r => if (c =? Ch.NL)%N then [] else c :: untilNewline r
  end.

(** The characters of [pre] after its last newline. *)
Definition currentLine (pre : text) : text := rev (untilNewline (rev pre)).

Definition newlines (pre : text) : nat := count_occ N.eq_dec pre Ch.NL.

(** The number of characters before offset [idx] on its line. *)
Definition charsBefore (code : text) (idx : nat) : nat :=
  length (currentLine (firstn idx code)).

(** *** Snippet scanner *)

(** Opening braces minus closing braces. *)
Definition braceDepth (t : text) : Z :=
  (Z.of_nat (count_occ N.eq_dec t Ch.LBRACE)
   - Z.of_nat (count_occ N.eq_dec t Ch.RBRACE))%Z.

(** [r] begins with an opening brace and ends with the closing brace at
    which the depth is zero for the first time. *)
Definition BalancedBlock (r : text) : Prop :=
  hd_error r = Some Ch.LBRACE
  /\ last r 0%N = Ch.RBRACE
  /\ braceDepth r = 0%Z
  /\ forall k, 0 < k < length r -> (0 < braceDepth (firstn k r))%Z.

(** [r] is the part of [s] from [i] to [j], both included. *)
Definition SubstringAt (s : text) (i j : nat) (r : text) : Prop :=
  i <= j < length s /\ r = firstn (j + 1 - i) (skipn i s).

(** [needle] occurs in [s] at [pos], and nowhere from [from] up to there. *)
Definition FirstAt (needle s : text) (from pos : nat) : Prop :=
  from <= pos
  /\ startsWith (skipn pos s) needle = true
  /\ pos + length needle <= length s
  /\ forall q, from <= q < pos -> startsWith (skipn q s) needle = false.

(** From [i], white space and comments lead to [k]. *)
Inductive Skips (s : text) : nat -> nat -> Prop :=
| skips_here i : Skips s i i
| skips_space i k ch :
    nth_error s i = Some ch -> isSpace ch = true ->
    Skips s (i + 1) k -> Skips s i k
| skips_line i k nl :
    charIs s i Ch.SLASH = true -> charIs s (i + 1) Ch.SLASH = true ->
    FirstAt [Ch.NL] s (i + 2) nl ->
    Skips s (nl + 1) k -> Skips s i k
| skips_block i k e :
    charIs s i Ch.SLASH = true -> charIs s (i + 1) Ch.STAR = true ->
    FirstAt [Ch.STAR; Ch.SLASH] s (i + 2) e ->
    Skips s (e + 2) k -> Skips s i k.

(** The inline argument of the call in [s]: after the first opening
    parenthesis and the white space and comments that follow it, the next
    character is an opening brace, and [r] is the balanced block it
    opens. *)
Definition InlineArgument (s r : text) : Prop :=
  exists p k j,
    FirstAt [Ch.LPAREN] s 0 p
    /\ Skips s (p + 1) k
    /\ nth_error s k = Some Ch.LBRACE
    /\ SubstringAt s k j r
    /\ BalancedBlock r.

(** *** Key detection *)

(** A word boundary lies between two neighbouring characters when exactly
    one of them is a word character; the ends of the text count as
    non-word. *)
Definition boundary (prev next : option N) : Prop :=
  isWordAt prev <> isWordAt next.

Definition lastOf (t : text) : option N := hd_error (rev t).

(** [key] occurs in [block] between word boundaries and is followed, after
    optional white space, by a colon. *)
Definition KeyOccurs (block key : text) : Prop :=
  exists pre ws post,
    block = pre ++ key ++ ws ++ Ch.COLON :: post
    /\ forallb isSpace ws = true
    /\ boundary (lastOf pre) (hd_error (key ++ ws ++ [Ch.COLON]))
    /\ boundary (lastOf (pre ++ key)) (hd_error (ws ++ [Ch.COLON])).

(** A key none of whose characters is a syntax character of regular
    expressions; identifiers of letters, digits and underscores are. *)
Definition plainKey (key : text) : bool :=
  forallb (fun c => negb (isSyntaxChar c)) key.

(** The pattern a plain key gives. *)
Definition keyPattern (key : text) : pattern :=
  WordBoundary :: map Lit key ++ [WordBoundary; SpaceStar; Lit Ch.COLON].

(** The character before the position reached once [t] has been read. *)
Definition prevAfter (prev : option N) (t : text) : option N :=
  match rev t with
  | x :: _ => Some x
  | [] => prev
  end.

(** *** Discovery *)

(** The user's entries as they are merged: guard names trimmed, paths
    normalised, those that are then empty left out. *)
Definition userGuards (c : CheckerConfig) : list text :=
  filter Discovery.nonEmpty
    (map trim (Discovery.arrayOr (cfgGuards (Discovery.cfgAuthObject c)))).

Definition userPaths (l : option (list text)) : list text :=
  filter Discovery.nonEmpty
    (map Discovery.normalizeApiPath (Discovery.arrayOr l)).

End Spec.

(* ================================================================== *)
(** ** Sample inputs *)
(* ================================================================== *)

Module Sample.

Definition finding : Finding :=
  {| ruleId := str "next-api-auth-guard"; severity := high;
     message := str "API route appears to lack an auth guard call.";
     file := str "/repo/app/api/users/route.ts";
     line := None; col := None; fixHint := None |}.

(** Paths already in posix form. *)
Definition posix (p : text) : text := p.

Definition context (a : AuthSetting) (userGuards : list text) : RuleContext :=
  {| rootDir := str "/repo"; files := []; relPaths := [];
     readFile := fun _ => Ok [];
     config := {| cfgStack := auto; auth := a; authGuards := userGuards;
                  ignore := []; maxFileBytes := 1000000%N;
                  discoveredAuth := NotStashed |};
     repoStack := nextjs |}.

(** A configuration whose [auth.guards] has a blank entry. *)
Definition blankGuardContext : RuleContext :=
  context
    (AuthIsObject {| cfgGuards := Some [str " "; str "checkSession"];
                     cfgPublicApiExact := Some [str "api/health/"];
                     cfgPublicApiPrefix := None;
                     cfgProxyApiPrefix := None |})
    [].

(** The configuration as its type declares it: [auth] is a kind, the
    guard names are in [authGuards]. *)
Definition typedContext : RuleContext :=
  context (AuthIsKind authAuto) [str "checkSession"].

(** What the prepass finds for [typedContext]: the catalogue. *)
Definition typedDiscovered : DiscoveredAuth :=
  {| guards := Discovery.COMMON_GUARDS; publicApiExact := [];
     publicApiPrefix := []; proxyApiPrefix := [] |}.

(** A context with one file, which cannot be read. *)
Definition unreadableContext : RuleContext :=
  {| rootDir := str "/repo"; files := [str "/repo/app/api/x/route.ts"];
     relPaths := [str "app/api/x/route.ts"];
     readFile := fun _ => Threw (mkThrown (Some (str "ENOENT"))
                                          (str "Error: ENOENT"));
     config := config typedContext;
     repoStack := nextjs |}.

(** A context with one route file that declares a guard and carries
    hints, and a user's allowlist. *)
Definition routeCode : text :=
  str "// vibecheck:public-api /api/health
// vibecheck:proxy-api-prefix api/hooks/
export async function requireAdmin(req) { return currentUser(); }
export const withTeam = wrap;".

Definition routeContext : RuleContext :=
  {| rootDir := str "/repo";
     files := [str "/repo/src/app/api/og/route.ts"; str "/repo/README.md"];
     relPaths := [str "src/app/api/og/route.ts"; str "README.md"];
     readFile := fun _ => Ok routeCode;
     config := {| cfgStack := auto;
                  auth := AuthIsObject
                            {| cfgGuards := Some [str " checkSession "];
                               cfgPublicApiExact := Some [str "api/status/"];
                               cfgPublicApiPrefix := None;
                               cfgProxyApiPrefix := None |};
                  authGuards := []; ignore := [];
                  maxFileBytes := 1000000%N;
                  discoveredAuth := NotStashed |};
     repoStack := nextjs |}.

(** [async run() { return [finding]; }] *)
Definition quietRule : Rule :=
  {| id := str "quiet"; description := str "reports one finding";
     stack := [nextjs; auto]; run := fun _ => async (Ok [finding]) |}.

(** [new Error("boom")] *)
Definition boom : Thrown :=
  mkThrown (Some (str "boom")) (str "Error: boom").

(** [async run() { throw new Error("boom"); }] *)
Definition brokenRule : Rule :=
  {| id := str "broken"; description := str "always fails";
     stack := [auto];
     run := fun _ => async (Threw boom) |}.

(** [run() { throw new Error("boom"); }], a function that is not [async]:
    it has the type a rule's [run] is declared with. *)
Definition throwingRule : Rule :=
  {| id := str "throwing"; description := str "always fails";
     stack := [auto];
     run := fun _ => Throws boom |}.

(** A context with one route file, which calls [auth()], and a user who
    names another guard. *)
Definition guardCode : text :=
  str "export async function GET() { return auth(); }".

Definition guardContext : RuleContext :=
  {| rootDir := str "/repo";
     files := [str "/repo/app/api/users/route.ts"];
     relPaths := [str "app/api/users/route.ts"];
     readFile := fun _ => Ok guardCode;
     config := {| cfgStack := auto; auth := AuthIsKind authAuto;
                  authGuards := [str "checkSession"]; ignore := [];
                  maxFileBytes := 1000000%N;
                  discoveredAuth := NotStashed |};
     repoStack := nextjs |}.

End Sample.

(* ================================================================== *)
(** ** Console report order (engine/report.ts) *)
(* ================================================================== *)

Module Console.

Definition ORDER : list Severity := [blocker; high; med; low; info].

(** [ORDER.indexOf(s)] *)
Fixpoint indexOfSeverity (l : list Severity) (s : Severity) (i : Z) : Z :=
  match l with
  | [] => (-1)%Z
  | x :: l' => if Severity_eqb x s then i else indexOfSeverity l' s (i + 1)%Z
  end.

Definition rank (f : Finding) : Z := indexOfSeverity ORDER (severity f) 0.

(** [[...findings].sort(cmp)].  The sort of an array is stable, and with a
    comparator that orders by a key its result is the one of any stable
    sort; it is modelled by insertion from the right. *)
Fixpoint insertBy (cmp : Finding -> Finding -> Z) (x : Finding)
  (l : list Finding) : list Finding :=
  match l with
  | [] => [x]
  | y :: r => if (cmp x y <=? 0)%Z then x :: l else y :: insertBy cmp x r
  end.

Definition sortBy (cmp : Finding -> Finding -> Z) (l : list Finding)
  : list Finding :=
  fold_right (insertBy cmp) [] l.

(** The order in which [printConsole] prints the findings. *)
Definition sorted (findings : list Finding) : list Finding :=
  sortBy (fun a b => (rank a - rank b)%Z) findings.

(** The findings of one severity, in their order. *)
Definition ofSeverity (s : Severity) (l : list Finding) : list Finding :=
  filter (fun f => Severity_eqb (severity f) s) l.

End Console.

(* ================================================================== *)
(** ** Rule registry (rules/index.ts) *)
(* ================================================================== *)

Module Registry.

(** [rulesForStack], over the registered rules [ALL_RULES]. *)
Definition rulesForStack (ALL_RULES : list Rule) (stack0 : StackName)
  : list Rule :=
  filter (fun r => Engine.stackIncludes (stack r) stack0) ALL_RULES.

End Registry.

(* ================================================================== *)
(** ** The Next.js route rules (rules/_shared.ts, rules/next/apiAuthGuard.ts) *)
(* ================================================================== *)

Module NextRules.
Import JsString.

Definition DQUOTE : N := 34.

(** [rp.replaceAll("\\", "/")] *)
Definition slashes (rp : text) : text :=
  map (fun c => if (c =? Ch.BACKSLASH)%N then Ch.SLASH else c) rp.

(** [s] without its last [n] characters. *)
Definition dropLast (n : nat) (s : text) : text :=
  firstn (length s - n) s.

(** [after.replace(/\/route\.(ts|tsx|js|jsx)$/, "")]: the four endings
    exclude one another, so at most one alternative matches, and only at
    the place its length gives. *)
Definition stripRouteFile (after : text) : text :=
  if endsWith after (str "/route.ts")
  then dropLast (length (str "/route.ts")) after
  else if endsWith after (str "/route.tsx")
  then dropLast (length (str "/route.tsx")) after
  else if endsWith after (str "/route.js")
  then dropLast (length (str "/route.js")) after
  else if endsWith after (str "/route.jsx")
  then dropLast (length (str "/route.jsx")) after
  else after.

Definition notClosing (c : N) : bool := negb (c =? Ch.RBRACKET)%N.

(** Does [[^\]]+\]] match here?  The greedy run of characters other than
    [\]] can only be followed by [\]] or by the end of the text. *)
Definition closes (r : text) : bool :=
  match Discovery.capture1 notClosing r with
  | Some (_, rest) => startsWith rest [Ch.RBRACKET]
  | None => false
  end.

(** [s.replace(/\[([^\]]+)\]/g, ":$1")], read from left to right.  Outside
    a match a [\[] that opens one becomes [:]; [inside] a match the
    characters are copied up to the [\]] that ends it, which is dropped. *)
Fixpoint dynamicSegments (inside : bool) (s : text) : text :=
  match s with
  | [] => []
  | c :: r =>
    if inside then
      if (c =? Ch.RBRACKET)%N then dynamicSegments false r
      else c :: dynamicSegments true r
    else if (c =? Ch.LBRACKET)%N && closes r
    then Ch.COLON :: dynamicSegments true r
    else c :: dynamicSegments false r
  end.

Definition toRoutePathFromRelPath (rp : text) : text :=
  let cleaned := slashes rp in
  match indexOf cleaned (str "app/api/") 0 with
  | None => []
  | Some idx =>
    let after := skipn (idx + length (str "app/api/")) cleaned in
    let noRouteFile := stripRouteFile after in
    let routeish := dynamicSegments false noRouteFile in
    str "/api/" ++ routeish
  end.

Definition matchesExactOrPrefix (routePath : text)
  (exact prefixes : list text) : bool :=
  if negb (Discovery.nonEmpty routePath) then false
  else if existsb (fun e => text_eqb e routePath) exact then true
  else if existsb (fun p => startsWith routePath p) prefixes then true
  else false.

(** [(ctx.config as any).__discoveredAuth ?? {}], each list read through
    [Array.isArray(...) ? ... : []]: the lists of the stash, and no list
    at all off [{}]. *)
Definition discovered (c : CheckerConfig) : DiscoveredAuth :=
  match discoveredAuth c with
  | Stashed d => d
  | StashedEmpty | NotStashed =>
    {| guards := []; publicApiExact := []; publicApiPrefix := [];
       proxyApiPrefix := [] |}
  end.

Definition hasEntries (l : list text) : bool :=
  match l with
  | [] => false
  | _ :: _ => true
  end.

(** The guard names the rule looks for. *)
Definition guardsOf (c : CheckerConfig) : list text :=
  if hasEntries (authGuards c) then authGuards c
  else if hasEntries (guards (discovered c)) then guards (discovered c)
  else [str "getServerSession"; str "auth"].

Definition hasGuard (guards : list text) (code : text) : bool :=
  existsb (fun g => includes code (g ++ str "(")
                    || includes code (g ++ str " ("))
          guards.

Definition isProxyish (routePath : text) (proxyApiPrefix : list text)
  : bool :=
  Discovery.nonEmpty routePath
  && existsb (fun p => startsWith routePath p) proxyApiPrefix.

Definition severityFor (d : DiscoveredAuth) (routePath : text) : Severity :=
  if matchesExactOrPrefix routePath (publicApiExact d) (publicApiPrefix d)
     || isProxyish routePath (proxyApiPrefix d)
  then info else high.

(** The finding pushed for a route without a guard call. *)
Definition unguarded (guards : list text) (d : DiscoveredAuth)
  (routePath abs code : text) : Finding :=
  let severity0 := severityFor d routePath in
  let extra :=
    match severity0 with
    | info =>
      str " (appears intentionally public/proxy; verify this is intended)"
    | _ => []
    end in
  Shared.located
    {| ruleId := str "next-api-auth-guard";
       severity := severity0;
       message :=
         str "API route appears to lack an auth guard call." ++ extra
         ++ str " If it is intentionally public, add comment "
         ++ [DQUOTE] ++ str "vibecheck:public" ++ [DQUOTE] ++ str ".";
       file := abs; line := None; col := None;
       fixHint :=
         Some (str "Call your auth guard early (e.g., "
               ++ join (str ", ") (firstn 3 guards)
               ++ str ") and enforce role/tenant checks before DB access. If intentionally public/proxy, consider adding "
               ++ [DQUOTE] ++ str "vibecheck:public" ++ [DQUOTE]
               ++ str " or a middleware hint (vibecheck:public-api / vibecheck:public-api-prefix).") |}
    code 0.

(** The finding of the middleware rule. *)
Definition noMatcher (abs code : text) : Finding :=
  Shared.located
    {| ruleId := str "next-middleware-matcher-coverage";
       severity := med;
       message :=
         str "middleware.ts does not appear to define export const config.matcher.";
       file := abs; line := None; col := None;
       fixHint :=
         Some (str "Review export const config.matcher and ensure protected route prefixes are included (or document why not).") |}
    code 0.

Section WithPosix.

(** [toPosix] (utils/path.ts) is not part of the sources at hand. *)
Variable toPosix : text -> text.

Definition rel (ctx : RuleContext) (abs : text) : text :=
  if startsWith abs (rootDir ctx)
  then toPosix (skipn (length (rootDir ctx) + 1) abs)
  else toPosix abs.

Definition isNextApiRoute (relPath : text) : bool :=
  let p := toPosix relPath in
  startsWith p (str "app/api/") || includes p (str "/app/api/").

(** The loop over [ctx.files] of [nextApiAuthGuardRule], [rest] being the
    files still to visit and [out] the array being filled. *)
Fixpoint apiAuthGuardLoop (ctx : RuleContext) (rest : list text)
  (out : list Finding) : Result (list Finding) :=
  match rest with
  | [] => ret out
  | abs :: rest' =>
    let rp := rel ctx abs in
    if negb (isNextApiRoute rp) then apiAuthGuardLoop ctx rest' out
    else
      code <- readFile ctx abs ;;
      if negb (Discovery.nonEmpty code) then apiAuthGuardLoop ctx rest' out
      else
        let routePath := toRoutePathFromRelPath rp in
        if includes code (str "vibecheck:public")
        then apiAuthGuardLoop ctx rest' out
        else if hasGuard (guardsOf (config ctx)) code
        then apiAuthGuardLoop ctx rest' out
        else
          apiAuthGuardLoop ctx rest'
            (out ++ [unguarded (guardsOf (config ctx))
                               (discovered (config ctx)) routePath abs code])
  end%monad.

Definition nextApiAuthGuardRule : Rule :=
  {| id := str "next-api-auth-guard";
     description := str "Ensure API routes call an auth guard early.";
     stack := [nextjs; auto];
     run := fun ctx => async (apiAuthGuardLoop ctx (files ctx) []) |}.

(** The loop of [nextMiddlewareMatcherCoverageRule]. *)
Fixpoint middlewareLoop (ctx : RuleContext) (rest : list text)
  (out : list Finding) : Result (list Finding) :=
  match rest with
  | [] => ret out
  | abs :: rest' =>
    let rp := rel ctx abs in
    if negb (endsWith rp (str "middleware.ts"))
       && negb (endsWith rp (str "middleware.js"))
    then middlewareLoop ctx rest' out
    else
      code <- readFile ctx abs ;;
      if negb (Discovery.nonEmpty code) then middlewareLoop ctx rest' out
      else if negb (includes code (str "export const config"))
              || negb (includes code (str "matcher"))
      then middlewareLoop ctx rest' (out ++ [noMatcher abs code])
      else middlewareLoop ctx rest' out
  end%monad.

Definition nextMiddlewareMatcherCoverageRule : Rule :=
  {| id := str "next-middleware-matcher-coverage";
     description :=
       str "Check that middleware matcher is defined (best-effort).";
     stack := [nextjs; auto];
     run := fun ctx => async (middlewareLoop ctx (files ctx) []) |}.

End WithPosix.

End NextRules.

(* ================================================================== *)
(** ** The CORS rule *)
(* ================================================================== *)

Module Cors.
Import JsString.

(** [code.includes(needle, from)] *)
Definition includesFrom (code needle : text) (from : nat) : bool :=
  match indexOf code needle from with
  | Some _ => true
  | None => false
  end.

(** [hasWildcard], with [idxOrigin] the index found ([None] is [-1]). *)
Definition hasWildcard (code : text) (idxOrigin : option nat) : bool :=
  match idxOrigin with
  | None => false
  | Some i =>
    includes code (str "Access-Control-Allow-Origin: *")
    || (includesFrom code (str "Access-Control-Allow-Origin") i
        && (includes code [NextRules.DQUOTE; Ch.STAR; NextRules.DQUOTE]
            || includes code (str "'*'")))
  end.

Definition hasCreds (code : text) (idxCreds : option nat) : bool :=
  match idxCreds with
  | None => false
  | Some i =>
    includes code (str "Access-Control-Allow-Credentials: true")
    || (includesFrom code (str "Access-Control-Allow-Credentials") i
        && includes code (str "true"))
  end.

(** The index as the number it is in the source. *)
Definition indexZ (i : option nat) : Z :=
  match i with
  | Some n => Z.of_nat n
  | None => (-1)%Z
  end.

Definition wildcardWithCredentials (abs code : text)
  (idxOrigin : option nat) : Finding :=
  Shared.located
    {| ruleId := str "cors-wildcard-with-credentials";
       severity := high;
       message :=
         str "CORS appears to allow wildcard origin (*) while also allowing credentials=true.";
       file := abs; line := None; col := None;
       fixHint :=
         Some (str "If you need credentials, you must echo a specific Origin and add Vary: Origin. Avoid '*' with credentials.") |}
    code (Z.max 0 (indexZ idxOrigin)).

Section WithPosix.

Variable toPosix : text -> text.

(** The loop over [ctx.files]. *)
Fixpoint corsLoop (ctx : RuleContext) (rest : list text)
  (out : list Finding) : Result (list Finding) :=
  match rest with
  | [] => ret out
  | abs :: rest' =>
    let rp := NextRules.rel toPosix ctx abs in
    if negb (Discovery.hasScriptExtension rp) then corsLoop ctx rest' out
    else
      code <- readFile ctx abs ;;
      if negb (Discovery.nonEmpty code) then corsLoop ctx rest' out
      else
        let idxOrigin :=
          indexOf code (str "Access-Control-Allow-Origin") 0 in
        let idxCreds :=
          indexOf code (str "Access-Control-Allow-Credentials") 0 in
        if hasWildcard code idxOrigin && hasCreds code idxCreds
        then corsLoop ctx rest'
               (out ++ [wildcardWithCredentials abs code idxOrigin])
        else corsLoop ctx rest' out
  end%monad.

Definition corsWildcardCredentialsRule : Rule :=
  {| id := str "cors-wildcard-with-credentials";
     description :=
       str "Detect CORS config that uses wildcard origin with credentials=true.";
     stack := [nextjs; vite; nestjs; auto];
     run := fun ctx => async (corsLoop ctx (files ctx) []) |}.

End WithPosix.

End Cors.

(* ================================================================== *)
(** ** The tenant-boundary rule's helpers (rules/prisma/writeTenantBoundary.ts) *)
(* ================================================================== *)

Module Tenant.
Import JsString Scanner.

(** [/\.name\s*\(/] at the start of [s], for a call name of word
    characters, which the pattern takes as they are: the length of the
    match.  The greedy [\s*] is followed by [\(], which is no white
    space. *)
Definition matchCall (callName s : text) : option nat :=
  Discovery.andThen (Discovery.literal (Ch.DOT :: callName) s) (fun r1 =>
  Discovery.andThen
    (Discovery.literal [Ch.LPAREN] (Discovery.dropWhile isSpace r1))
    (fun r2 => Some (length s - length r2))).

(** The loop [while ((m = re.exec(code))) idxs.push(m.index)]: the
    positions of the matches from left to right, [k] being the position of
    [s] in the code and each search starting where the match before ended
    ([skip] characters from here). *)
Fixpoint execIndices (matchAt : text -> option nat) (skip k : nat)
  (s : text) : list nat :=
  match s with
  | [] => []
  | _ :: rest =>
    match skip with
    | S skip' => execIndices matchAt skip' (S k) rest
    | O =>
      match matchAt s with
      | Some len => k :: execIndices matchAt (len - 1) (S k) rest
      | None => execIndices matchAt 0 (S k) rest
      end
    end
  end.

Definition findAllCallSites (code callName : text) : list nat :=
  execIndices (matchCall callName) 0 0 code.

Record Around : Type := mkAround { aroundStart : nat; aroundText : text }.

(** [Math.max(0, idx - before)] is the subtraction of natural numbers. *)
Definition sliceAround (code : text) (idx before after : nat) : Around :=
  let start := idx - before in
  let end_ := Nat.min (length code) (idx + after) in
  {| aroundStart := start; aroundText := slice code start end_ |}.

(** [/\bwhere\s*:/] *)
Definition wherePattern : pattern :=
  WordBoundary :: map Lit (str "where") ++ [SpaceStar; Lit Ch.COLON].

(** [s.search(re)]: the position of the leftmost match, [k] being the
    position of [rest] in the text. *)
Fixpoint searchIndex (p : pattern) (prev : option N) (rest : text) (k : nat)
  : option nat :=
  if matchHere p prev rest then Some k
  else match rest with
       | x :: r => searchIndex p (Some x) r (S k)
       | [] => None
       end.

Definition search (p : pattern) (s : text) : option nat :=
  searchIndex p None s 0.

Definition extractWhereBlock (argObj : text) : option text :=
  match search wherePattern argObj with
  | None => None
  | Some whereIdx =>
    let afterWhere := skipn whereIdx argObj in
    match indexOf afterWhere [Ch.LBRACE] 0 with
    | None => None
    | Some braceIdx => balancedFrom argObj (whereIdx + braceIdx)
    end
  end.

Definition hasSuppression (code : text) (absIdx : nat) : bool :=
  let start := absIdx - 300 in
  let window := slice code start absIdx in
  includes window (str "vibecheck:tenant-ok").

(** [p.replace(/\*\*/g, "")]: the pairs of stars, from left to right. *)
Fixpoint dropDoubleStars (p : text) : text :=
  match p with
  | [] => []
  | a :: t =>
    match t with
    | b :: r =>
      if (a =? Ch.STAR)%N && (b =? Ch.STAR)%N then dropDoubleStars r
      else a :: dropDoubleStars t
    | [] => [a]
    end
  end.

(** [p.replace(/\*/g, "")] *)
Definition dropStars (p : text) : text :=
  filter (fun c => negb (c =? Ch.STAR)%N) p.

Definition simplePathMatch (rp : text) (patterns : list text) : bool :=
  existsb (fun p =>
             let token := dropStars (dropDoubleStars p) in
             Discovery.nonEmpty token && includes rp token)
          patterns.

(** The tests the body of the loop over the call sites makes on the call
    at [idx] once it is past the test of the cap: [Some true] when none of
    its [continue]s is taken, so that the call is pushed; [Some false]
    when one is; [None] when a tenant key is outside the fragment of
    [whereHasTenantKey]. *)
Definition passes (code : text) (idx : nat) (tenantKeys : list text)
  : option bool :=
  if hasSuppression code idx then Some false
  else
    match extractInlineFirstArgObject
            (aroundText (sliceAround code idx 200 5000)) with
    | None => Some false
    | Some argObj =>
      if negb (Discovery.nonEmpty argObj) then Some false
      else
        match extractWhereBlock argObj with
        | None => Some false
        | Some whereBlock =>
          if negb (Discovery.nonEmpty whereBlock) then Some false
          else
            match whereHasTenantKey whereBlock tenantKeys with
            | Some found => Some (negb found)
            | None => None
            end
        end
    end.

(** The calls looked for, each with the severity of its findings. *)
Definition calls : list (text * Severity) :=
  [(str "updateMany", info); (str "deleteMany", info)].

Definition FILE_CAP : nat := 6.

(** The finding pushed for the call [c] at [idx]. *)
Definition missingTenantKey (abs code : text) (c : text * Severity)
  (idx : nat) : Finding :=
  Shared.located
    {| ruleId := str "prisma-write-tenant-boundary";
       severity := snd c;
       message :=
         str "Prisma " ++ fst c
         ++ str "() is missing tenant/workspace/org keys in `where` (high-risk operation).";
       file := abs; line := None; col := None;
       fixHint :=
         Some (str "For updateMany/deleteMany ensure `where` includes tenant/workspace/org constraints, or add `// vibecheck:tenant-ok` above if intentionally global.") |}
    code (Z.of_nat idx).

(** The loop [for (const idx of idxs)] of a file, over the sites [idxs]
    still to visit: [fileFindings] counts the findings of the file so far
    and [out] is the array being filled.  [None] as for [passes]. *)
Fixpoint sitesLoop (abs code : text) (tenantKeys : list text)
  (c : text * Severity) (idxs : list nat) (fileFindings : nat)
  (out : list Finding) : option (nat * list Finding) :=
  match idxs with
  | [] => Some (fileFindings, out)
  | idx :: rest =>
    if FILE_CAP <=? fileFindings then Some (fileFindings, out)
    else
      match passes code idx tenantKeys with
      | None => None
      | Some false => sitesLoop abs code tenantKeys c rest fileFindings out
      | Some true =>
        sitesLoop abs code tenantKeys c rest (S fileFindings)
                  (out ++ [missingTenantKey abs code c idx])
      end
  end.

(** The loop [for (const c of calls)] around it. *)
Fixpoint callsLoop (abs code : text) (tenantKeys : list text)
  (cs : list (text * Severity)) (fileFindings : nat) (out : list Finding)
  : option (nat * list Finding) :=
  match cs with
  | [] => Some (fileFindings, out)
  | c :: rest =>
    if FILE_CAP <=? fileFindings then Some (fileFindings, out)
    else
      match sitesLoop abs code tenantKeys c
                      (findAllCallSites code (fst c)) fileFindings out with
      | None => None
      | Some (fileFindings', out') =>
        callsLoop abs code tenantKeys rest fileFindings' out'
      end
  end.

(** The tenant heuristic on the text of one file: [fileFindings] starts
    at 0. *)
Definition tenantHeuristic (abs code : text) (tenantKeys : list text)
  (out : list Finding) : option (nat * list Finding) :=
  callsLoop abs code tenantKeys calls 0 out.

End Tenant.

(* ================================================================== *)
(** ** Further notions used to state properties *)
(* ================================================================== *)

Module Props.

(** [l] is [l'] with some elements left out, the others in their order. *)
Inductive Subsequence {A : Type} : list A -> list A -> Prop :=
| sub_nil : Subsequence [] []
| sub_keep x l l' : Subsequence l l' -> Subsequence (x :: l) (x :: l')
| sub_drop x l l' : Subsequence l l' -> Subsequence l (x :: l').

(** The sum of the counts of a baseline document. *)
Definition totalCount (b : Baseline.t) : nat :=
  list_sum (map Baseline.count (Baseline.items b)).

Definition noPipe (t : text) : Prop := ~ In Ch.PIPE t.

(** The five counts of a summary, added up. *)
Definition summaryTotal (s : Report.Summary) : nat :=
  Report.nBlocker s + Report.nHigh s + Report.nMed s + Report.nLow s
  + Report.nInfo s.

(** [x] occurs in [l] at position [p], and nowhere before. *)
Definition FirstIndex (x : text) (l : list text) (p : nat) : Prop :=
  nth_error l p = Some x /\ forall k, k < p -> nth_error l k <> Some x.

(** A text of white space only. *)
Definition blank (t : text) : bool := forallb isSpace t.

Definition slashFirst (t : text) : bool := JsString.startsWith t (str "/").

(** A name the declaration scan takes for a guard: [require...] or
    [with...], whatever the case of its letters. *)
Definition guardLike (name : text) : bool :=
  Discovery.startsWithIgnoringCase name (str "require")
  || Discovery.startsWithIgnoringCase name (str "with").

(** The context with another list of user guard names. *)
Definition withAuthGuards (ctx : RuleContext) (gs : list text)
  : RuleContext :=
  let c := config ctx in
  {| rootDir := rootDir ctx; files := files ctx; relPaths := relPaths ctx;
     readFile := readFile ctx;
     config := {| cfgStack := cfgStack c; auth := auth c;
                  authGuards := gs; ignore := ignore c;
                  maxFileBytes := maxFileBytes c;
                  discoveredAuth := discoveredAuth c |};
     repoStack := repoStack ctx |}.

(** The text [needle] stands in [s] at position [pos]. *)
Definition OccursAt (needle s : text) (pos : nat) : Prop :=
  JsString.startsWith (skipn pos s) needle = true.

(** The call at [idx] passes every test of the loop body. *)
Definition passing (code : text) (tenantKeys : list text) (idx : nat)
  : bool :=
  match Tenant.passes code idx tenantKeys with
  | Some true => true
  | _ => false
  end.

(** The findings the heuristic would push for a file were there no cap:
    one for each passing call of [updateMany], then one for each passing
    call of [deleteMany], in the order of the call sites. *)
Definition uncapped (abs code : text) (tenantKeys : list text)
  : list Finding :=
  flat_map
    (fun c =>
       map (Tenant.missingTenantKey abs code c)
           (filter (passing code tenantKeys)
                   (Tenant.findAllCallSites code (fst c))))
    Tenant.calls.

(** A call [.name(] stands at position [idx], with optional white space
    before the parenthesis. *)
Definition CallAt (code callName : text) (idx : nat) : Prop :=
  exists ws post,
    skipn idx code = Ch.DOT :: callName ++ ws ++ Ch.LPAREN :: post
    /\ forallb isSpace ws = true.

(** The key [where] stands at position [w]: after a character that is no
    word character, or at the start, and followed, after optional white
    space, by a colon. *)
Definition WhereKeyAt (s : text) (w : nat) : Prop :=
  w <= length s
  /\ Scanner.isWordAt (Spec.lastOf (firstn w s)) = false
  /\ exists ws post,
       skipn w s = str "where" ++ ws ++ Ch.COLON :: post
       /\ forallb isSpace ws = true.

(** A file for which [corsWildcardCredentialsRule] has a finding: a
    script whose text has the two header names, the word [true], and a
    starred origin header or a quoted star, each of them anywhere. *)
Definition corsSuspect (toPosix : text -> text) (ctx : RuleContext)
  (abs : text) : bool :=
  Discovery.hasScriptExtension (NextRules.rel toPosix ctx abs)
  && match readFile ctx abs with
     | Ok code =>
       JsString.includes code (str "Access-Control-Allow-Origin")
       && JsString.includes code (str "Access-Control-Allow-Credentials")
       && JsString.includes code (str "true")
       && (JsString.includes code (str "Access-Control-Allow-Origin: *")
           || JsString.includes code
                [NextRules.DQUOTE; Ch.STAR; NextRules.DQUOTE]
           || JsString.includes code (str "'*'"))
     | Threw _ => false
     end.

(** A file for which [nextApiAuthGuardRule] has a finding: an API route
    whose text is read and is not empty, has no public marker and calls
    none of the guards. *)
Definition unguardedRoute (toPosix : text -> text) (ctx : RuleContext)
  (abs : text) : bool :=
  NextRules.isNextApiRoute toPosix (NextRules.rel toPosix ctx abs)
  && match readFile ctx abs with
     | Ok code =>
       Discovery.nonEmpty code
       && negb (JsString.includes code (str "vibecheck:public"))
       && negb (NextRules.hasGuard (NextRules.guardsOf (config ctx)) code)
     | Threw _ => false
     end.

(** A middleware file for which [nextMiddlewareMatcherCoverageRule] has a
    finding. *)
Definition uncoveredMiddleware (toPosix : text -> text) (ctx : RuleContext)
  (abs : text) : bool :=
  let rp := NextRules.rel toPosix ctx abs in
  (JsString.endsWith rp (str "middleware.ts")
   || JsString.endsWith rp (str "middleware.js"))
  && match readFile ctx abs with
     | Ok code =>
       Discovery.nonEmpty code
       && negb (JsString.includes code (str "export const config")
                && JsString.includes code (str "matcher"))
     | Threw _ => false
     end.

(** What a rule gives the engine.  Its findings when its promise
    resolves; the finding of its crash when its promise is rejected with a
    failure that has a text.  Otherwise nothing but a failure of the
    engine: what the call of [run] threw, or what turning the rejection
    into a text threw. *)
Definition findingsOf (ctx : RuleContext) (rule : Rule)
  : Result (list Finding) :=
  match run rule ctx with
  | Returned (Ok findings) => Ok findings
  | Returned (Threw e) =>
    match failureText e with
    | Ok failure => Ok [Engine.ruleCrashed ctx rule failure]
    | Threw raised => Threw raised
    end
  | Throws e => Threw e
  end.

(** What the rules of a list give, rule after rule: their findings one
    after the other, or the failure of the first rule that has one. *)
Fixpoint runEach (ctx : RuleContext) (rules : list Rule)
  : Result (list Finding) :=
  match rules with
  | [] => Ok []
  | r :: rest =>
    match findingsOf ctx r with
    | Ok findings =>
      match runEach ctx rest with
      | Ok more => Ok (findings ++ more)
      | Threw e => Threw e
      end
    | Threw e => Threw e
    end
  end.

(** The same of the rules of a list that are applicable. *)
Definition ruleFindings (ctx : RuleContext) (rules : list Rule)
  : Result (list Finding) :=
  runEach ctx (filter (Engine.applicable ctx) rules).

(** [fs] put after [out]. *)
Definition after (out : list Finding) (fs : Result (list Finding))
  : Result (list Finding) :=
  match fs with
  | Ok findings => Ok (out ++ findings)
  | Threw e => Threw e
  end.

End Props.

Import JsString Scanner.

(* ================================================================== *)
(** ** The definitions at work *)
(* ================================================================== *)

Example extract_nested_block :
  extractInlineFirstArgObject
    (str "prisma.user.updateMany( // all of them
  { where: { id: 1 }, data: {} }, opts)")
  = Some (str "{ where: { id: 1 }, data: {} }").
Proof. reflexivity. Qed.

Example extract_truncated :
  extractInlineFirstArgObject (str "foo({ a: { b: 1 }") = None.
Proof. reflexivity. Qed.

Example extract_open_comment :
  extractInlineFirstArgObject (str "foo( /* { a: 1 })") = None.
Proof. reflexivity. Qed.

Example tenant_key_after_spaces :
  whereHasTenantKey (str "{ id: 1, tenantId   : t }")
    [str "workspaceId"; str "orgId"; str "tenantId"] = Some true.
Proof. reflexivity. Qed.

Example firstLineCol_second_line :
  Shared.firstLineCol (str "ab
cd") 4 = {| Shared.lcLine := 2; Shared.lcCol := 1 |}.
Proof. reflexivity. Qed.

Example keyOf_sample :
  Baseline.keyOf (Shared.located Sample.finding (str "x") 0)
  = str "next-api-auth-guard|high|/repo/app/api/users/route.ts|1|0|API route appears to lack an auth guard call.".
Proof. reflexivity. Qed.

(** A baseline that records one occurrence suppresses one of two. *)
Example partial_suppression :
  Baseline.applyBaseline [Sample.finding; Sample.finding]
    {| Baseline.items :=
         [{| Baseline.key := Baseline.keyOf Sample.finding;
             Baseline.count := 1 |}] |}
  = [Sample.finding].
Proof. reflexivity. Qed.

Example normalizeApiPath_sample :
  Discovery.normalizeApiPath (str " api/health/ ") = str "/api/health".
Proof. reflexivity. Qed.

Example guards_of_code :
  Discovery.discoverAuthGuardsFromCode Sample.routeCode
  = [str "requireAdmin"; str "withTeam"; str "currentUser"].
Proof. reflexivity. Qed.

Example hints_of_code :
  Discovery.discoverPublicApiHints Sample.routeCode
  = {| Discovery.hintExact := [str "/api/health"];
       Discovery.hintPrefix := [];
       Discovery.hintProxy := [str "/api/hooks"] |}.
Proof. reflexivity. Qed.

Example discovery_of_route :
  Discovery.discoverAuthGuards Sample.posix Sample.routeContext
  = Ok {| guards := Discovery.COMMON_GUARDS
                    ++ [str "requireAdmin"; str "withTeam";
                        str "checkSession"];
          publicApiExact := [str "/api/health"; str "/api/status"];
          publicApiPrefix := [];
          proxyApiPrefix := [str "/api/hooks"; str "/api/og"] |}.
Proof. reflexivity. Qed.

(** On an empty corpus the prepass returns the catalogue. *)
Example discovery_of_empty_corpus :
  Discovery.discoverAuthGuards Sample.posix Sample.typedContext
  = Ok Sample.typedDiscovered.
Proof. reflexivity. Qed.

Example exitCode_high_only :
  Report.exitCode [Sample.finding] true = 1%Z
  /\ Report.exitCode [Sample.finding] false = 0%Z.
Proof. split; reflexivity. Qed.

Example runRules_sample :
  Engine.runRules Sample.posix
    Sample.typedContext [Sample.brokenRule; Sample.quietRule]
  = Ok [Engine.ruleCrashed Sample.typedContext Sample.brokenRule
          (str "boom");
        Sample.finding].
Proof. reflexivity. Qed.

(** A failing read makes the discovery fail; the engine turns that into a
    finding and runs the rules all the same. *)
Example runRules_unreadable :
  Engine.runRules Sample.posix
    Sample.unreadableContext [Sample.quietRule]
  = Ok [Engine.discoveryFailed Sample.unreadableContext (str "ENOENT");
        Sample.finding].
Proof. reflexivity. Qed.

(* ================================================================== *)
(** ** Exit code *)
(* ================================================================== *)

Lemma fold_bump_blocker (fs : list Finding) (acc : Report.Summary) :
  Report.nBlocker (fold_left Report.bump fs acc)
  = Report.nBlocker acc + length (filter Spec.isBlocker fs).
Proof.
  revert acc; induction fs as [|f fs IH]; intros acc; simpl; [lia|].
  rewrite IH. unfold Report.bump, Spec.isBlocker.
  destruct (severity f); simpl; lia.
Qed.

Lemma fold_bump_high (fs : list Finding) (acc : Report.Summary) :
  Report.nHigh (fold_left Report.bump fs acc)
  = Report.nHigh acc + length (filter Spec.isHigh fs).
Proof.
  revert acc; induction fs as [|f fs IH]; intros acc; simpl; [lia|].
  rewrite IH. unfold Report.bump, Spec.isHigh.
  destruct (severity f); simpl; lia.
Qed.

Lemma truthy_count (A : Type) (p : A -> bool) (l : list A) :
  Report.truthy (length (filter p l)) = existsb p l.
Proof.
  induction l as [|x l IH]; simpl; [reflexivity|].
  destruct (p x); simpl; [reflexivity|exact IH].
Qed.

Lemma exitCode_exitStatus (fs : list Finding) (strict : bool) :
  Report.exitCode fs strict = Spec.exitStatus fs strict.
Proof.
  unfold Report.exitCode, Spec.exitStatus, Report.summarize.
  destruct strict; simpl; [|reflexivity].
  rewrite fold_bump_blocker, fold_bump_high; simpl.
  now rewrite !truthy_count.
Qed.

Lemma existsb_filter_severe (p : Finding -> bool) (fs : list Finding) :
  (forall f, p f = true -> Spec.severe f = true) ->
  existsb p (filter Spec.severe fs) = existsb p fs.
Proof.
  intros Hp; induction fs as [|f fs IH]; simpl; [reflexivity|].
  destruct (Spec.severe f) eqn:E; simpl; rewrite IH; [reflexivity|].
  destruct (p f) eqn:Ep; [|reflexivity].
  apply Hp in Ep; congruence.
Qed.

(** C6.  Exit-code contract: in strict mode the exit status is 2 when some
    finding is a blocker, else 1 when some finding is high, else 0; it is
    the same once every med, low and info finding is removed, so their
    number does not matter; in non-strict mode it is 0 whatever the
    findings. *)
Theorem exit_code_contract (fs : list Finding) :
  Report.exitCode fs true
  = (if existsb Spec.isBlocker fs then 2
     else if existsb Spec.isHigh fs then 1 else 0)%Z
  /\ Report.exitCode fs true = Report.exitCode (filter Spec.severe fs) true
  /\ Report.exitCode fs false = 0%Z.
Proof.
  split; [apply exitCode_exitStatus|split; [|reflexivity]].
  rewrite !exitCode_exitStatus; unfold Spec.exitStatus.
  rewrite !existsb_filter_severe; [reflexivity| |];
    intros f H; unfold Spec.severe; rewrite H; auto using orb_true_r.
Qed.

(* ================================================================== *)
(** ** Positions *)
(* ================================================================== *)

Lemma currentLine_snoc_newline (pre : text) :
  Spec.currentLine (pre ++ [Ch.NL]) = [].
Proof. unfold Spec.currentLine. now rewrite rev_app_distr. Qed.

Lemma currentLine_snoc (pre : text) (c : N) :
  c <> Ch.NL -> Spec.currentLine (pre ++ [c]) = Spec.currentLine pre ++ [c].
Proof.
  intros Hc. unfold Spec.currentLine. rewrite rev_app_distr; simpl.
  apply N.eqb_neq in Hc. now rewrite Hc.
Qed.

Lemma newlines_app (a b : text) :
  Spec.newlines (a ++ b) = Spec.newlines a + Spec.newlines b.
Proof. apply count_occ_app. Qed.

(** The pieces of a split: as many as newlines plus one, the last one
    being what follows the last newline.  [done] is the text already
    passed, of which [cur] is the current line. *)
Lemma splitLinesFrom_spec (n : nat) :
  forall (s done cur : text),
    length s <= n ->
    rev cur = Spec.currentLine done ->
    length (Shared.splitLinesFrom cur s) = 1 + Spec.newlines s
    /\ last (Shared.splitLinesFrom cur s) [] = Spec.currentLine (done ++ s).
Proof.
  induction n as [|n IH]; intros s done cur Hn Hcur.
  - destruct s; [|simpl in Hn; lia]. simpl. now rewrite app_nil_r.
  - destruct s as [|c rest]; [simpl; now rewrite app_nil_r|].
    simpl in Hn.
    assert (Hstep : forall c', c' <> Ch.NL ->
              rev (c' :: cur) = Spec.currentLine (done ++ [c'])).
    { intros c' Hc'. simpl. rewrite Hcur. now rewrite currentLine_snoc. }
    assert (Hlast : forall (x : text) (l : list text) m,
              length l = S m -> last (x :: l) [] = last l []).
    { intros x l m Hl. destruct l; [discriminate|reflexivity]. }
    cbn [Shared.splitLinesFrom].
    destruct (c =? Ch.NL)%N eqn:Enl.
    + apply N.eqb_eq in Enl; subst c.
      destruct (IH rest (done ++ [Ch.NL]) [] ltac:(lia)) as [Hl Hc].
      { now rewrite currentLine_snoc_newline. }
      split.
      * cbn [length]. rewrite Hl. change (Ch.NL :: rest) with ([Ch.NL] ++ rest).
        rewrite newlines_app. reflexivity.
      * rewrite (Hlast _ _ _ Hl). rewrite Hc. now rewrite <- app_assoc.
    + assert (Hc : c <> Ch.NL) by now apply N.eqb_neq.
      assert (Hplain :
        length (Shared.splitLinesFrom (c :: cur) rest)
          = 1 + Spec.newlines (c :: rest)
        /\ last (Shared.splitLinesFrom (c :: cur) rest) []
           = Spec.currentLine (done ++ c :: rest)).
      { destruct (IH rest (done ++ [c]) (c :: cur) ltac:(lia) (Hstep c Hc))
          as [Hl Hcl].
        split.
        - rewrite Hl. change (c :: rest) with ([c] ++ rest).
          rewrite newlines_app. unfold Spec.newlines at 2. simpl.
          destruct (N.eq_dec c Ch.NL); [contradiction|reflexivity].
        - rewrite Hcl. now rewrite <- app_assoc. }
      destruct (c =? Ch.CR)%N eqn:Ecr; [|exact Hplain].
      destruct rest as [|d rest']; [exact Hplain|].
      destruct (d =? Ch.NL)%N eqn:Ed; [|exact Hplain].
      apply N.eqb_eq in Ed; subst d. simpl in Hn.
      destruct (IH rest' (done ++ [c; Ch.NL]) [] ltac:(lia)) as [Hl Hcl].
      { change [c; Ch.NL] with ([c] ++ [Ch.NL]). rewrite app_assoc.
        now rewrite currentLine_snoc_newline. }
      split.
      * cbn [length]. rewrite Hl.
        change (c :: Ch.NL :: rest') with ([c] ++ [Ch.NL] ++ rest').
        rewrite !newlines_app. unfold Spec.newlines at 2 3. simpl.
        destruct (N.eq_dec c Ch.NL); [contradiction|reflexivity].
      * rewrite (Hlast _ _ _ Hl). rewrite Hcl. now rewrite <- app_assoc.
Qed.

Lemma firstLineCol_spec (code : text) (idx : Z) :
  let pre := firstn (Z.to_nat idx) code in
  Shared.firstLineCol code idx
  = {| Shared.lcLine := 1 + Spec.newlines pre;
       Shared.lcCol := Spec.charsBefore code (Z.to_nat idx) |}.
Proof.
  intros pre. unfold Shared.firstLineCol, JsString.slice, Spec.charsBefore.
  replace (Z.to_nat (Z.max 0 idx)) with (Z.to_nat idx) by lia.
  rewrite Nat.sub_0_r. cbn [skipn]. fold pre. unfold Shared.splitLines.
  destruct (splitLinesFrom_spec (length pre) pre [] [] (le_n _) eq_refl)
    as [Hl Hc].
  rewrite Hl, Hc. reflexivity.
Qed.

(** C8 (amended).  A finding located by [firstLineCol] has a 1-based line
    and a 0-based column: the line is one more than the number of newlines
    before the location, the column is the number of characters before the
    location on its line, so the first character of a file is at line 1,
    column 0.  The SARIF region adds one to the column: its start line and
    start column are both 1-based. *)
Theorem position_line_and_column (f : Finding) (code : text) (idx : Z) :
  let g := Shared.located f code idx in
  let pre := firstn (Z.to_nat idx) code in
  line g = Some (1 + Spec.newlines pre)
  /\ col g = Some (Spec.charsBefore code (Z.to_nat idx))
  /\ Sarif.startLine (Sarif.region g) = 1 + Spec.newlines pre
  /\ Sarif.startColumn (Sarif.region g)
     = 1 + Spec.charsBefore code (Z.to_nat idx)
  /\ line (Shared.located f code 0) = Some 1
  /\ col (Shared.located f code 0) = Some 0.
Proof.
  intros g pre. subst g. unfold Shared.located, Sarif.region.
  cbn [line col Sarif.startLine Sarif.startColumn].
  rewrite !firstLineCol_spec. cbn [Shared.lcLine Shared.lcCol]. fold pre.
  repeat split; try reflexivity; lia.
Qed.

(** C8, counterexample: the finding located at the first character of the
    text [x] has line 1 and column 0, not column 1, and its column is not
    one more than the number of characters before it on its line. *)
Lemma column_of_first_character :
  let g := Shared.located Sample.finding (str "x") 0 in
  line g = Some 1
  /\ col g = Some 0
  /\ col g <> Some 1
  /\ col g <> Some (1 + Spec.charsBefore (str "x") 0).
Proof.
  cbv. repeat split; try reflexivity; discriminate.
Qed.

(* ================================================================== *)
(** ** Baseline suppression *)
(* ================================================================== *)

Lemma text_eqb_eq (a b : text) : text_eqb a b = true <-> a = b.
Proof.
  unfold text_eqb. destruct (list_eq_dec N.eq_dec a b); split;
    intros; congruence.
Qed.

Lemma text_eqb_refl (a : text) : text_eqb a a = true.
Proof. now apply text_eqb_eq. Qed.

Lemma text_eqb_neq (a b : text) : text_eqb a b = false <-> a <> b.
Proof.
  unfold text_eqb. destruct (list_eq_dec N.eq_dec a b); split;
    intros; congruence.
Qed.

Lemma text_eqb_sym (a b : text) : text_eqb a b = text_eqb b a.
Proof.
  destruct (text_eqb b a) eqn:E.
  - apply text_eqb_eq in E; subst. apply text_eqb_refl.
  - apply text_eqb_neq in E. apply text_eqb_neq. congruence.
Qed.

(* ---- JsMap ---- *)
Lemma get_set_same (m : JsMap.t) (k : text) (v : nat) :
  JsMap.get (JsMap.set m k v) k = Some v.
Proof.
  induction m as [|[k' v'] m IH]; simpl.
  - now rewrite text_eqb_refl.
  - destruct (text_eqb k' k) eqn:E; simpl; rewrite E; [reflexivity|exact IH].
Qed.

Lemma get_set_other (m : JsMap.t) (k k' : text) (v : nat) :
  k <> k' -> JsMap.get (JsMap.set m k v) k' = JsMap.get m k'.
Proof.
  intros Hk. induction m as [|[k0 v0] m IH]; simpl.
  - apply text_eqb_neq in Hk. now rewrite Hk.
  - destruct (text_eqb k0 k) eqn:E; simpl.
    + apply text_eqb_eq in E; subst k0.
      apply text_eqb_neq in Hk. now rewrite Hk.
    + now rewrite IH.
Qed.

Lemma getOr0_set_same (m : JsMap.t) (k : text) (v : nat) :
  JsMap.getOr0 (JsMap.set m k v) k = v.
Proof. unfold JsMap.getOr0. now rewrite get_set_same. Qed.

Lemma getOr0_set_other (m : JsMap.t) (k k' : text) (v : nat) :
  k <> k' -> JsMap.getOr0 (JsMap.set m k v) k' = JsMap.getOr0 m k'.
Proof. intros H. unfold JsMap.getOr0. now rewrite get_set_other. Qed.

Lemma find_app (A : Type) (p : A -> bool) (a b : list A) :
  find p (a ++ b) = match find p a with Some x => Some x | None => find p b end.
Proof.
  induction a as [|x a IH]; simpl; [reflexivity|].
  now destruct (p x).
Qed.

(** [new Map(pairs)]: the last pair of a key is the one that counts. *)
Lemma get_fold_set (pairs : list (text * nat)) (m : JsMap.t) (k : text) :
  JsMap.get (fold_left (fun m kv => JsMap.set m (fst kv) (snd kv)) pairs m) k
  = match find (fun kv => text_eqb (fst kv) k) (rev pairs) with
    | Some kv => Some (snd kv)
    | None => JsMap.get m k
    end.
Proof.
  revert m; induction pairs as [|[k0 v0] pairs IH]; intros m; simpl;
    [reflexivity|].
  rewrite IH, find_app. simpl.
  destruct (find _ (rev pairs)); [reflexivity|].
  destruct (text_eqb k0 k) eqn:E.
  - apply text_eqb_eq in E; subst. now rewrite get_set_same.
  - apply text_eqb_neq in E. now rewrite get_set_other.
Qed.

Lemma find_map (A B : Type) (g : A -> B) (p : B -> bool) (l : list A) :
  find p (map g l) = option_map g (find (fun x => p (g x)) l).
Proof.
  induction l as [|x l IH]; simpl; [reflexivity|].
  now destruct (p (g x)).
Qed.

Lemma allowed_recorded (b : Baseline.t) (S : text) :
  JsMap.getOr0 (Baseline.allowedOf b) S = Spec.recorded b S.
Proof.
  unfold Baseline.allowedOf, JsMap.getOr0, JsMap.ofEntries, Spec.recorded.
  rewrite get_fold_set, <- map_rev, find_map. simpl.
  now destruct (find _ (rev (Baseline.items b))).
Qed.

(* ---- occurrences ---- *)
Lemma occurrences_snoc (S : text) (fs : list Finding) (f : Finding) :
  Spec.occurrences S (fs ++ [f])
  = Spec.occurrences S fs + (if Spec.hasSignature S f then 1 else 0).
Proof.
  unfold Spec.occurrences, Spec.withSignature.
  rewrite filter_app, length_app. simpl.
  now destruct (Spec.hasSignature S f).
Qed.

Lemma hasSignature_keyOf (f : Finding) :
  Spec.hasSignature (Baseline.keyOf f) f = true.
Proof. apply text_eqb_refl. Qed.

Lemma hasSignature_other (S : text) (f : Finding) :
  Baseline.keyOf f <> S -> Spec.hasSignature S f = false.
Proof. intros H. now apply text_eqb_neq. Qed.

(** The loop of [applyBaseline] keeps exactly the findings beyond the
    allowed count of their signature: [seen] counts, for every signature,
    the findings suppressed among those passed. *)
Lemma applyLoop_beyond (allowed : JsMap.t) (fs : list Finding) :
  forall (seen : JsMap.t) (before : list Finding),
    (forall S, JsMap.getOr0 seen S
               = Nat.min (Spec.occurrences S before) (JsMap.getOr0 allowed S)) ->
    Baseline.applyLoop allowed seen fs
    = Spec.beyondRecorded (JsMap.getOr0 allowed) before fs.
Proof.
  induction fs as [|f fs IH]; intros seen before Hseen; simpl; [reflexivity|].
  remember (Baseline.keyOf f) as k eqn:Ek.
  pose proof (Hseen k) as Hk.
  assert (Hself : Spec.hasSignature k f = true)
    by (subst k; apply hasSignature_keyOf).
  assert (Hother : forall S, k <> S -> Spec.hasSignature S f = false)
    by (intros S HS; subst k; now apply hasSignature_other).
  destruct (JsMap.getOr0 seen k <? JsMap.getOr0 allowed k) eqn:E.
  - apply Nat.ltb_lt in E.
    assert (Hocc : Spec.occurrences k before < JsMap.getOr0 allowed k) by lia.
    pose proof Hocc as Hocc'. apply Nat.ltb_lt in Hocc'. rewrite Hocc'.
    apply IH. intros S. rewrite occurrences_snoc.
    destruct (list_eq_dec N.eq_dec k S) as [Heq|Hne].
    + subst S. rewrite getOr0_set_same, Hself. lia.
    + rewrite getOr0_set_other by exact Hne.
      rewrite (Hother S Hne), Hseen. lia.
  - apply Nat.ltb_ge in E.
    assert (Hocc : JsMap.getOr0 allowed k <= Spec.occurrences k before) by lia.
    pose proof Hocc as Hocc'. apply Nat.ltb_ge in Hocc'. rewrite Hocc'. f_equal.
    apply IH. intros S. rewrite occurrences_snoc.
    destruct (list_eq_dec N.eq_dec k S) as [Heq|Hne].
    + subst S. rewrite Hself. lia.
    + rewrite (Hother S Hne), Hseen. lia.
Qed.

Lemma applyBaseline_beyond (fs : list Finding) (b : Baseline.t) :
  Baseline.applyBaseline fs b = Spec.beyondRecorded (Spec.recorded b) [] fs.
Proof.
  unfold Baseline.applyBaseline. fold (Baseline.allowedOf b).
  rewrite (applyLoop_beyond (Baseline.allowedOf b) fs JsMap.empty []).
  - revert fs. generalize (@nil Finding).
    intros before fs; revert before.
    induction fs as [|f fs IH]; intros before; simpl; [reflexivity|].
    rewrite allowed_recorded, !IH. reflexivity.
  - intros S. reflexivity.
Qed.

Lemma beyondRecorded_signature (lim : text -> nat) (sig : text)
  (fs : list Finding) :
  forall before,
    Spec.withSignature sig (Spec.beyondRecorded lim before fs)
    = skipn (lim sig - Spec.occurrences sig before)
            (Spec.withSignature sig fs).
Proof.
  induction fs as [|f fs IH]; intros before; simpl.
  - now rewrite skipn_nil.
  - destruct (Spec.hasSignature sig f) eqn:Ef.
    + assert (Hk : Baseline.keyOf f = sig) by now apply text_eqb_eq.
      rewrite Hk.
      destruct (Spec.occurrences sig before <? lim sig) eqn:E.
      * apply Nat.ltb_lt in E. rewrite IH, occurrences_snoc, Ef.
        replace (lim sig - Spec.occurrences sig before)
          with (S (lim sig - (Spec.occurrences sig before + 1))) by lia.
        reflexivity.
      * apply Nat.ltb_ge in E. simpl. rewrite Ef.
        replace (lim sig - Spec.occurrences sig before) with 0 by lia.
        simpl. f_equal. rewrite IH, occurrences_snoc, Ef.
        replace (lim sig - _) with 0 by lia. reflexivity.
    + destruct (_ <? _); simpl; rewrite ?Ef, IH, occurrences_snoc, Ef;
        now rewrite Nat.add_0_r.
Qed.

(** C3.  For every finding list, baseline and signature, [applyBaseline]
    suppresses exactly min(occurrences of the signature, count recorded
    for it) findings of that signature; the suppressed ones are the first
    that many in findings order, the later ones are kept in order; as a
    whole the output is the input without the findings that are among the
    first recorded ones of their signature; a signature the baseline does
    not list loses nothing. *)
Theorem applyBaseline_suppresses_first_recorded
  (fs : list Finding) (b : Baseline.t) (sig : text) :
  let n := Nat.min (Spec.occurrences sig fs) (Spec.recorded b sig) in
  let out := Baseline.applyBaseline fs b in
  Spec.occurrences sig out + n = Spec.occurrences sig fs
  /\ Spec.withSignature sig out = skipn n (Spec.withSignature sig fs)
  /\ out = Spec.beyondRecorded (Spec.recorded b) [] fs
  /\ (if existsb (fun i => text_eqb (Baseline.key i) sig) (Baseline.items b)
      then True
      else Spec.withSignature sig out = Spec.withSignature sig fs).
Proof.
  intros n out.
  assert (Hout : out = Spec.beyondRecorded (Spec.recorded b) [] fs)
    by apply applyBaseline_beyond.
  assert (Hsig : Spec.withSignature sig out
                 = skipn n (Spec.withSignature sig fs)).
  { rewrite Hout, beyondRecorded_signature.
    unfold Spec.occurrences at 1; simpl. rewrite Nat.sub_0_r.
    subst n. unfold Spec.occurrences.
    destruct (Nat.le_gt_cases (Spec.recorded b sig)
                (length (Spec.withSignature sig fs))) as [Hle|Hgt].
    - now rewrite Nat.min_r.
    - rewrite Nat.min_l by lia.
      rewrite !skipn_all2 by lia. reflexivity. }
  repeat split; [|exact Hsig|exact Hout|].
  - unfold Spec.occurrences at 1. rewrite Hsig, length_skipn.
    subst n. unfold Spec.occurrences. lia.
  - destruct (existsb _ (Baseline.items b)) eqn:E; [exact I|].
    rewrite Hsig. subst n.
    assert (Hrec : Spec.recorded b sig = 0).
    { unfold Spec.recorded.
      destruct (find _ (rev (Baseline.items b))) as [i|] eqn:Ef;
        [|reflexivity].
      apply find_some in Ef. destruct Ef as [Hin Hi].
      apply in_rev in Hin.
      assert (existsb (fun i => text_eqb (Baseline.key i) sig)
                (Baseline.items b) = true)
        by (apply existsb_exists; eauto).
      congruence. }
    rewrite Hrec, Nat.min_0_r. reflexivity.
Qed.

(* ---- round trip ---- *)
Lemma keys_set (m : JsMap.t) (k : text) (v : nat) :
  map fst (JsMap.set m k v)
  = if Discovery.mem k (map fst m) then map fst m else map fst m ++ [k].
Proof.
  induction m as [|[k' v'] m IH]; simpl; [reflexivity|].
  destruct (text_eqb k' k) eqn:E; simpl; [reflexivity|].
  rewrite IH. now destruct (Discovery.mem k (map fst m)).
Qed.

Lemma mem_In (x : text) (l : list text) :
  Discovery.mem x l = true <-> In x l.
Proof.
  induction l as [|y l IH]; simpl; [split; [discriminate|tauto]|].
  rewrite orb_true_iff, text_eqb_eq, IH. tauto.
Qed.

Lemma NoDup_snoc (A : Type) (l : list A) (x : A) :
  NoDup l -> ~ In x l -> NoDup (l ++ [x]).
Proof.
  intros Hl Hx. apply NoDup_rev in Hl.
  rewrite <- (rev_involutive (l ++ [x])). apply NoDup_rev.
  rewrite rev_app_distr. simpl. constructor; [|exact Hl].
  now rewrite <- in_rev.
Qed.

Lemma keys_set_NoDup (m : JsMap.t) (k : text) (v : nat) :
  NoDup (map fst m) -> NoDup (map fst (JsMap.set m k v)).
Proof.
  intros H. rewrite keys_set.
  destruct (Discovery.mem k (map fst m)) eqn:E; [exact H|].
  apply NoDup_snoc; [exact H|].
  intros Hin. apply mem_In in Hin. congruence.
Qed.

Lemma countKeys_from (fs : list Finding) (m : JsMap.t) :
  let m' := fold_left
              (fun counts f =>
                 let k := Baseline.keyOf f in
                 JsMap.set counts k (JsMap.getOr0 counts k + 1)) fs m in
  (NoDup (map fst m) -> NoDup (map fst m'))
  /\ forall sig, JsMap.getOr0 m' sig
                 = JsMap.getOr0 m sig + Spec.occurrences sig fs.
Proof.
  revert m; induction fs as [|f fs IH]; intros m; simpl.
  - split; [tauto|]. intros sig. unfold Spec.occurrences. simpl. lia.
  - destruct (IH (JsMap.set m (Baseline.keyOf f)
                    (JsMap.getOr0 m (Baseline.keyOf f) + 1))) as [Hnd Hget].
    split.
    + intros H. apply Hnd. now apply keys_set_NoDup.
    + intros sig. rewrite Hget. unfold Spec.occurrences. simpl.
      destruct (Spec.hasSignature sig f) eqn:Ef.
      * assert (Baseline.keyOf f = sig) by now apply text_eqb_eq. subst sig.
        rewrite getOr0_set_same. simpl. lia.
      * assert (Baseline.keyOf f <> sig) by now apply text_eqb_neq.
        rewrite getOr0_set_other by assumption. lia.
Qed.

Lemma find_first_last (m : JsMap.t) (k : text) :
  NoDup (map fst m) ->
  match find (fun kv => text_eqb (fst kv) k) (rev m) with
  | Some kv => Some (snd kv)
  | None => None
  end = JsMap.get m k.
Proof.
  induction m as [|[k0 v0] m IH]; intros Hnd; simpl; [reflexivity|].
  inversion Hnd as [|? ? Hk0 Hnd']; subst.
  rewrite find_app. simpl.
  destruct (text_eqb k0 k) eqn:E.
  - apply text_eqb_eq in E; subst k0.
    destruct (find _ (rev m)) as [kv|] eqn:Ef; [|reflexivity].
    apply find_some in Ef. destruct Ef as [Hin Hkv].
    apply text_eqb_eq in Hkv. apply in_rev in Hin.
    exfalso. apply Hk0. rewrite <- Hkv. now apply in_map.
  - rewrite <- (IH Hnd'). now destruct (find _ (rev m)).
Qed.

Lemma countKeys_spec (fs : list Finding) :
  NoDup (map fst (Baseline.countKeys fs))
  /\ forall sig, JsMap.getOr0 (Baseline.countKeys fs) sig
                 = Spec.occurrences sig fs.
Proof.
  destruct (countKeys_from fs JsMap.empty) as [Hnd Hget].
  split; [apply Hnd; constructor|].
  intros sig. apply Hget.
Qed.

Lemma recorded_baselineOf (fs : list Finding) (sig : text) :
  Spec.recorded (Baseline.baselineOf fs) sig = Spec.occurrences sig fs.
Proof.
  destruct (countKeys_spec fs) as [Hnd Hget].
  rewrite <- Hget.
  unfold Spec.recorded, Baseline.baselineOf, JsMap.getOr0. simpl.
  rewrite <- (find_first_last (Baseline.countKeys fs) sig Hnd).
  rewrite <- map_rev, find_map. simpl.
  now destruct (find _ (rev (Baseline.countKeys fs))).
Qed.

Lemma occurrences_app (sig : text) (a b : list Finding) :
  Spec.occurrences sig (a ++ b)
  = Spec.occurrences sig a + Spec.occurrences sig b.
Proof.
  unfold Spec.occurrences, Spec.withSignature.
  now rewrite filter_app, length_app.
Qed.

Lemma beyondRecorded_all (lim : text -> nat) (fs : list Finding) :
  forall before,
    (forall sig, Spec.occurrences sig (before ++ fs) <= lim sig) ->
    Spec.beyondRecorded lim before fs = [].
Proof.
  induction fs as [|f fs IH]; intros before H; simpl; [reflexivity|].
  assert (E : Spec.occurrences (Baseline.keyOf f) before
              < lim (Baseline.keyOf f)).
  { specialize (H (Baseline.keyOf f)).
    rewrite occurrences_app in H. unfold Spec.occurrences at 2 in H.
    simpl in H. rewrite hasSignature_keyOf in H. simpl in H. lia. }
  apply Nat.ltb_lt in E. rewrite E. apply IH.
  intros sig. rewrite <- app_assoc. apply H.
Qed.

(** C2.  Baseline round trip: the baseline written from a finding list
    suppresses the whole list, both as the document [writeBaseline]
    builds and after it has been stored under a path and loaded again. *)
Theorem baseline_round_trip (F : list Finding) (p : text)
  (fs : Baseline.Files) :
  Baseline.applyBaseline F (Baseline.baselineOf F) = []
  /\ Baseline.applyBaseline F
       (Baseline.loadBaseline p (Baseline.writeBaseline p F fs)) = [].
Proof.
  assert (H : Baseline.applyBaseline F (Baseline.baselineOf F) = []).
  { rewrite applyBaseline_beyond. apply beyondRecorded_all.
    intros sig. rewrite recorded_baselineOf. simpl. lia. }
  split; [exact H|].
  unfold Baseline.loadBaseline, Baseline.writeBaseline.
  now rewrite text_eqb_refl.
Qed.

(* ================================================================== *)
(** ** Snippet object-scanner *)
(* ================================================================== *)

Lemma startsWith_length (s needle : text) :
  startsWith s needle = true -> length needle <= length s.
Proof.
  revert s; induction needle as [|n needle IH]; intros s H; simpl; [lia|].
  destruct s as [|c s]; simpl in H; [discriminate|].
  apply andb_true_iff in H. destruct H as [_ H]. apply IH in H. simpl. lia.
Qed.

Lemma findFrom_Some (needle rest : text) :
  forall k pos,
    findFrom needle rest k = Some pos ->
    exists d, pos = k + d /\ d <= length rest
              /\ startsWith (skipn d rest) needle = true
              /\ forall q, q < d -> startsWith (skipn q rest) needle = false.
Proof.
  induction rest as [|c rest IH]; intros k pos H; cbn [findFrom] in H.
  - destruct (startsWith [] needle) eqn:E; [|discriminate].
    injection H as <-. exists 0.
    split; [lia|]. split; [simpl; lia|]. split; [exact E|intros; lia].
  - destruct (startsWith (c :: rest) needle) eqn:E.
    + injection H as <-. exists 0.
      split; [lia|]. split; [simpl; lia|]. split; [exact E|intros; lia].
    + apply IH in H. destruct H as (d & -> & Hd & Hs & Hq).
      exists (S d). repeat split; [lia|simpl; lia|exact Hs|].
      intros [|q] Hlt; [exact E|]. apply Hq. lia.
Qed.

Lemma findFrom_first (needle rest : text) :
  forall k d,
    d <= length rest ->
    startsWith (skipn d rest) needle = true ->
    (forall q, q < d -> startsWith (skipn q rest) needle = false) ->
    findFrom needle rest k = Some (k + d).
Proof.
  induction rest as [|c rest IH]; intros k d Hd Hs Hq.
  - simpl in Hd. assert (d = 0) by lia; subst d.
    cbn [skipn] in Hs. cbn [findFrom]. rewrite Hs. f_equal; lia.
  - destruct d as [|d].
    + cbn [skipn] in Hs. cbn [findFrom]. rewrite Hs. f_equal; lia.
    + assert (E : startsWith (c :: rest) needle = false)
        by (apply (Hq 0); lia).
      cbn [findFrom]. rewrite E.
      rewrite (IH (S k) d); [f_equal; lia|simpl in Hd; lia|exact Hs|].
      intros q Hlt. apply (Hq (S q)). lia.
Qed.

Lemma indexOf_FirstAt (s needle : text) (from pos : nat) :
  needle <> [] ->
  indexOf s needle from = Some pos <-> Spec.FirstAt needle s from pos.
Proof.
  intros Hne. unfold indexOf, Spec.FirstAt. split.
  - intros H. destruct (Nat.le_gt_cases from (length s)) as [Hle|Hgt].
    + rewrite Nat.min_l in H by exact Hle.
      apply findFrom_Some in H. destruct H as (d & -> & Hd & Hs & Hq).
      rewrite skipn_skipn in Hs. rewrite (Nat.add_comm from d).
      repeat split; [lia|exact Hs| |].
      * apply startsWith_length in Hs. rewrite length_skipn in Hs.
        rewrite length_skipn in Hd. lia.
      * intros q Hq'. specialize (Hq (q - from) ltac:(lia)).
        rewrite skipn_skipn in Hq.
        now replace (q - from + from) with q in Hq by lia.
    + rewrite skipn_all2 in H by lia.
      destruct needle; [congruence|]. simpl in H. discriminate.
  - intros (Hfrom & Hs & Hlen & Hq).
    assert (Hpos : 0 < length needle) by (destruct needle; simpl; [congruence|lia]).
    rewrite Nat.min_l by lia.
    replace pos with (from + (pos - from)) at 1 by lia.
    apply findFrom_first.
    + rewrite length_skipn. lia.
    + rewrite skipn_skipn. now replace (pos - from + from) with pos by lia.
    + intros q Hlt. rewrite skipn_skipn. apply Hq. lia.
Qed.

Lemma indexOf_bounds (s needle : text) (from pos : nat) :
  needle <> [] -> indexOf s needle from = Some pos ->
  from <= pos /\ pos + length needle <= length s.
Proof.
  intros Hne H. apply indexOf_FirstAt in H; [|exact Hne].
  destruct H as (? & _ & ? & _). split; assumption.
Qed.

(* ---- the comment-skipping loop ---- *)
Lemma charIs_nth (s : text) (i : nat) (c : N) :
  charIs s i c = true <-> nth_error s i = Some c.
Proof.
  unfold charIs. destruct (nth_error s i) as [x|]; split; intros H;
    try discriminate.
  - apply N.eqb_eq in H. now subst.
  - injection H as ->. apply N.eqb_refl.
Qed.

Lemma nth_error_lt (s : text) (i : nat) (c : N) :
  nth_error s i = Some c -> i < length s.
Proof. intros H. apply nth_error_Some. congruence. Qed.

(** The loop always ends within the iterations it is given. *)
Lemma skipTrivia_fuel (s : text) :
  forall fuel i, length s - i < fuel -> skipTrivia fuel s i <> OutOfFuel.
Proof.
  induction fuel as [|fuel IH]; intros i Hf; [lia|].
  cbn [skipTrivia].
  destruct (nth_error s i) as [ch|] eqn:Hch; [|discriminate].
  apply nth_error_lt in Hch.
  destruct (isSpace ch); [apply IH; lia|].
  destruct ((ch =? Ch.SLASH)%N && charIs s (i + 1) Ch.SLASH).
  { destruct (indexOf s [Ch.NL] (i + 2)) as [nl|] eqn:E; [|discriminate].
    apply indexOf_bounds in E; [|discriminate]. apply IH. lia. }
  destruct ((ch =? Ch.SLASH)%N && charIs s (i + 1) Ch.STAR).
  { destruct (indexOf s [Ch.STAR; Ch.SLASH] (i + 2)) as [e|] eqn:E;
      [|discriminate].
    apply indexOf_bounds in E; [|discriminate]. apply IH. lia. }
  discriminate.
Qed.

Lemma skipTrivia_sound (s : text) :
  forall fuel i k, skipTrivia fuel s i = Break k -> Spec.Skips s i k.
Proof.
  induction fuel as [|fuel IH]; intros i k H; [discriminate|].
  cbn [skipTrivia] in H.
  destruct (nth_error s i) as [ch|] eqn:Hch;
    [|injection H as <-; constructor].
  destruct (isSpace ch) eqn:Hsp.
  { eapply Spec.skips_space; eauto. }
  destruct ((ch =? Ch.SLASH)%N && charIs s (i + 1) Ch.SLASH) eqn:Hl.
  { apply andb_true_iff in Hl. destruct Hl as [Hc Hn].
    apply N.eqb_eq in Hc; subst ch.
    destruct (indexOf s [Ch.NL] (i + 2)) as [nl|] eqn:E; [|discriminate].
    apply indexOf_FirstAt in E; [|discriminate].
    eapply Spec.skips_line; eauto. now apply charIs_nth. }
  destruct ((ch =? Ch.SLASH)%N && charIs s (i + 1) Ch.STAR) eqn:Hb.
  { apply andb_true_iff in Hb. destruct Hb as [Hc Hn].
    apply N.eqb_eq in Hc; subst ch.
    destruct (indexOf s [Ch.STAR; Ch.SLASH] (i + 2)) as [e|] eqn:E;
      [|discriminate].
    apply indexOf_FirstAt in E; [|discriminate].
    eapply Spec.skips_block; eauto. now apply charIs_nth. }
  injection H as <-. constructor.
Qed.

Lemma skipTrivia_complete (s : text) (i k : nat) :
  Spec.Skips s i k ->
  nth_error s k = Some Ch.LBRACE ->
  forall fuel, length s - i < fuel -> skipTrivia fuel s i = Break k.
Proof.
  induction 1 as [i|i k ch Hch Hsp _ IH|i k nl Hc Hn Hfirst _ IH
                  |i k e Hc Hn Hfirst _ IH]; intros Hk fuel Hf;
    (destruct fuel as [|fuel]; [lia|]); cbn [skipTrivia].
  - rewrite Hk. reflexivity.
  - rewrite Hch, Hsp. apply nth_error_lt in Hch. apply IH; [exact Hk|lia].
  - apply charIs_nth in Hc. rewrite Hc. rewrite Hn.
    change (isSpace Ch.SLASH) with false. cbn [N.eqb andb].
    rewrite N.eqb_refl. cbn [andb].
    destruct Hfirst as (Hfrom & Hs & Hlen & Hq).
    assert (E : indexOf s [Ch.NL] (i + 2) = Some nl)
      by (apply indexOf_FirstAt; [discriminate|repeat split; assumption]).
    rewrite E. apply nth_error_lt in Hc. apply IH; [exact Hk|lia].
  - apply charIs_nth in Hc. rewrite Hc. rewrite Hn.
    change (isSpace Ch.SLASH) with false. rewrite N.eqb_refl. cbn [andb].
    assert (Hnot : charIs s (i + 1) Ch.SLASH = false).
    { apply charIs_nth in Hn. unfold charIs. rewrite Hn. reflexivity. }
    rewrite Hnot.
    destruct Hfirst as (Hfrom & Hs & Hlen & Hq).
    assert (E : indexOf s [Ch.STAR; Ch.SLASH] (i + 2) = Some e)
      by (apply indexOf_FirstAt; [discriminate|repeat split; assumption]).
    rewrite E. apply nth_error_lt in Hc. apply IH; [exact Hk|lia].
Qed.

(* ---- brace depth ---- *)
Lemma braceDepth_app (a b : text) :
  Spec.braceDepth (a ++ b) = (Spec.braceDepth a + Spec.braceDepth b)%Z.
Proof. unfold Spec.braceDepth. rewrite !count_occ_app. lia. Qed.

Lemma braceDepth_cons (c : N) (t : text) :
  Spec.braceDepth (c :: t) = (Spec.braceDepth [c] + Spec.braceDepth t)%Z.
Proof. apply (braceDepth_app [c] t). Qed.

Lemma braceDepth_one (c : N) :
  Spec.braceDepth [c]
  = (if (c =? Ch.LBRACE)%N then 1 else if (c =? Ch.RBRACE)%N then -1 else 0)%Z.
Proof.
  unfold Spec.braceDepth. simpl.
  destruct (N.eqb_spec c Ch.LBRACE) as [->|H1].
  - reflexivity.
  - destruct (N.eq_dec c Ch.LBRACE); [contradiction|].
    destruct (N.eqb_spec c Ch.RBRACE) as [->|H2]; [reflexivity|].
    destruct (N.eq_dec c Ch.RBRACE); [contradiction|reflexivity].
Qed.

Lemma depthStep_braceDepth (d : Z) (c : N) :
  depthStep d c = (d + Spec.braceDepth [c])%Z.
Proof.
  unfold depthStep. rewrite braceDepth_one.
  destruct (c =? Ch.LBRACE)%N; [lia|]. destruct (c =? Ch.RBRACE)%N; lia.
Qed.

Lemma firstn_succ_snoc (t : text) (m : nat) (x : N) :
  nth_error t m = Some x -> firstn (S m) t = firstn m t ++ [x].
Proof.
  revert m; induction t as [|c t IH]; intros [|m] H; simpl in H;
    try discriminate.
  - now injection H as ->.
  - rewrite !firstn_cons, (IH m H). reflexivity.
Qed.

(* ---- the depth loop ---- *)
Lemma scanDepth_Some (rest : text) :
  forall depth j j',
    scanDepth rest depth j = Some j' ->
    exists n, j' = j + n /\ n < length rest
      /\ (depth + Spec.braceDepth (firstn (S n) rest) = 0)%Z
      /\ forall m, m < n ->
           (depth + Spec.braceDepth (firstn (S m) rest) <> 0)%Z.
Proof.
  induction rest as [|c rest IH]; intros depth j j' H; [discriminate|].
  cbn [scanDepth] in H. cbv zeta in H.
  rewrite depthStep_braceDepth in H.
  destruct (depth + Spec.braceDepth [c] =? 0)%Z eqn:E.
  - injection H as <-. apply Z.eqb_eq in E. exists 0.
    split; [lia|]. split; [simpl; lia|]. split; [exact E|intros; lia].
  - apply Z.eqb_neq in E. apply IH in H.
    destruct H as (n & -> & Hn & Hz & Hm). exists (S n).
    split; [lia|]. split; [simpl; lia|]. split.
    + rewrite firstn_cons, braceDepth_cons. lia.
    + intros [|m] Hlt.
      * exact E.
      * rewrite firstn_cons, braceDepth_cons.
        specialize (Hm m ltac:(lia)). lia.
Qed.

Lemma scanDepth_first (rest : text) :
  forall depth j n,
    n < length rest ->
    (depth + Spec.braceDepth (firstn (S n) rest) = 0)%Z ->
    (forall m, m < n ->
       (depth + Spec.braceDepth (firstn (S m) rest) <> 0)%Z) ->
    scanDepth rest depth j = Some (j + n).
Proof.
  induction rest as [|c rest IH]; intros depth j n Hn Hz Hm;
    [simpl in Hn; lia|].
  cbn [scanDepth]. cbv zeta. rewrite depthStep_braceDepth.
  destruct n as [|n].
  - change (firstn 1 (c :: rest)) with [c] in Hz.
    apply Z.eqb_eq in Hz. rewrite Hz. f_equal; lia.
  - assert (E : (depth + Spec.braceDepth [c] <> 0)%Z).
    { specialize (Hm 0 ltac:(lia)). exact Hm. }
    apply Z.eqb_neq in E. rewrite E.
    rewrite (IH _ (S j) n); [f_equal; lia|simpl in Hn; lia| |].
    + rewrite firstn_cons, braceDepth_cons in Hz. lia.
    + intros m Hlt. specialize (Hm (S m) ltac:(lia)).
      rewrite firstn_cons, braceDepth_cons in Hm. lia.
Qed.

(** A block that opens with a brace and whose depth is not zero before its
    end has a positive depth all along. *)
Lemma depth_positive (t : text) (n : nat) :
  hd_error t = Some Ch.LBRACE ->
  n <= length t ->
  (forall m, m < n -> Spec.braceDepth (firstn (S m) t) <> 0%Z) ->
  forall m, m < n -> (0 < Spec.braceDepth (firstn (S m) t))%Z.
Proof.
  intros Hhd Hn Hnz m. induction m as [|m IH]; intros Hlt.
  - destruct t as [|c t]; [discriminate|]. injection Hhd as ->. reflexivity.
  - destruct (nth_error t (S m)) as [x|] eqn:Hx.
    + rewrite (firstn_succ_snoc _ _ _ Hx), braceDepth_app.
      specialize (Hnz (S m) Hlt).
      rewrite (firstn_succ_snoc _ _ _ Hx), braceDepth_app in Hnz.
      specialize (IH ltac:(lia)).
      rewrite braceDepth_one in *.
      destruct (x =? Ch.LBRACE)%N; [lia|].
      destruct (x =? Ch.RBRACE)%N; lia.
    + apply nth_error_None in Hx. lia.
Qed.

Lemma last_snoc (t : text) (x d : N) : last (t ++ [x]) d = x.
Proof. apply last_last. Qed.

Lemma block_balanced (rest : text) (n : nat) :
  hd_error rest = Some Ch.LBRACE ->
  n < length rest ->
  Spec.braceDepth (firstn (S n) rest) = 0%Z ->
  (forall m, m < n -> Spec.braceDepth (firstn (S m) rest) <> 0%Z) ->
  Spec.BalancedBlock (firstn (S n) rest).
Proof.
  intros Hhd Hn Hz Hnz.
  pose proof (depth_positive rest n Hhd ltac:(lia) Hnz) as Hpos.
  unfold Spec.BalancedBlock. repeat split.
  - destruct rest; [discriminate|exact Hhd].
  - destruct (nth_error rest n) as [x|] eqn:Hx;
      [|apply nth_error_None in Hx; lia].
    rewrite (firstn_succ_snoc _ _ _ Hx) in Hz |- *. rewrite last_snoc.
    rewrite braceDepth_app, braceDepth_one in Hz.
    destruct n as [|n].
    + destruct rest as [|c rest]; [discriminate|].
      injection Hhd as ->. simpl in Hx. injection Hx as <-.
      simpl in Hz. discriminate.
    + specialize (Hpos n ltac:(lia)).
      destruct (N.eqb_spec x Ch.LBRACE); [lia|].
      destruct (N.eqb_spec x Ch.RBRACE); [assumption|lia].
  - exact Hz.
  - intros k [Hk0 Hk]. rewrite length_firstn in Hk.
    rewrite firstn_firstn. rewrite Nat.min_l by lia.
    destruct k as [|m]; [lia|]. apply Hpos. lia.
Qed.

Lemma hd_skipn (s : text) (i : nat) : hd_error (skipn i s) = nth_error s i.
Proof.
  revert i; induction s as [|c s IH]; intros [|i]; simpl; auto.
Qed.

Lemma balancedFrom_sound (s : text) (i : nat) (r : text) :
  nth_error s i = Some Ch.LBRACE ->
  balancedFrom s i = Some r ->
  exists j, Spec.SubstringAt s i j r /\ Spec.BalancedBlock r.
Proof.
  intros Hi H. unfold balancedFrom in H.
  destruct (scanDepth (skipn i s) 0 i) as [j|] eqn:E; [|discriminate].
  injection H as <-. apply scanDepth_Some in E.
  destruct E as (n & -> & Hn & Hz & Hnz). rewrite length_skipn in Hn.
  exists (i + n). unfold Spec.SubstringAt, slice.
  replace (i + n + 1 - i) with (S n) by lia.
  split; [split; [lia|reflexivity]|].
  apply block_balanced; [now rewrite hd_skipn|rewrite length_skipn; lia
                        |lia|].
  intros m Hm. specialize (Hnz m Hm). lia.
Qed.

Lemma balancedFrom_complete (s : text) (i j : nat) (r : text) :
  Spec.SubstringAt s i j r -> Spec.BalancedBlock r ->
  balancedFrom s i = Some r.
Proof.
  intros [[Hij Hj] Hr] (Hhd & Hlast & Hz & Hpos).
  assert (Hlen : length r = S (j - i)).
  { rewrite Hr, length_firstn, length_skipn. lia. }
  unfold balancedFrom.
  rewrite (scanDepth_first (skipn i s) 0%Z i (j - i)).
  - unfold slice. replace (i + (j - i) + 1 - i) with (j + 1 - i) by lia.
    now rewrite Hr.
  - rewrite length_skipn. lia.
  - replace (S (j - i)) with (j + 1 - i) by lia. rewrite <- Hr. lia.
  - intros m Hm. specialize (Hpos (S m) ltac:(lia)).
    rewrite Hr, firstn_firstn in Hpos.
    rewrite Nat.min_l in Hpos by lia. lia.
Qed.

Lemma extract_iff (s r : text) :
  extractInlineFirstArgObject s = Some r <-> Spec.InlineArgument s r.
Proof.
  unfold extractInlineFirstArgObject, Spec.InlineArgument. split.
  - intros H.
    destruct (indexOf s [Ch.LPAREN] 0) as [p|] eqn:Ep; [|discriminate].
    apply indexOf_FirstAt in Ep; [|discriminate].
    destruct (skipTrivia (S (length s)) s (p + 1)) as [k| |] eqn:Ek;
      try discriminate.
    apply skipTrivia_sound in Ek.
    destruct (charIs s k Ch.LBRACE) eqn:Ec; [|discriminate].
    apply charIs_nth in Ec.
    destruct (balancedFrom_sound _ _ _ Ec H) as (j & Hsub & Hbal).
    exists p, k, j. auto.
  - intros (p & k & j & Hp & Hsk & Hk & Hsub & Hbal).
    apply indexOf_FirstAt in Hp; [|discriminate]. rewrite Hp.
    rewrite (skipTrivia_complete _ _ _ Hsk Hk (S (length s))) by lia.
    apply charIs_nth in Hk. rewrite Hk.
    eapply balancedFrom_complete; eauto.
Qed.

(** C4.  Scanner totality: on every text the comment-skipping loop ends
    within the iterations it is given, and the extractor returns either
    nothing or a substring of the text that begins with an opening brace
    and ends with the closing brace at which the depth is zero for the
    first time, so a balanced one. *)
Theorem scanner_totality (s : text) :
  (forall i, skipTrivia (S (length s)) s i <> OutOfFuel)
  /\ match extractInlineFirstArgObject s with
     | None => True
     | Some r =>
       exists i j, Spec.SubstringAt s i j r /\ Spec.BalancedBlock r
     end.
Proof.
  split; [intros i; apply skipTrivia_fuel; lia|].
  destruct (extractInlineFirstArgObject s) as [r|] eqn:E; [|exact I].
  apply extract_iff in E.
  destruct E as (p & k & j & _ & _ & _ & Hsub & Hbal). eauto.
Qed.

(** C5.  The extractor returns [r] exactly when, after the first opening
    parenthesis and the white space, line comments and block comments that
    follow it, the next character is an opening brace of which [r] is the
    balanced block; it returns nothing exactly when there is no such
    block.  The two examples of the specification are as stated. *)
Theorem inline_argument_after_comments (s : text) :
  (forall r, extractInlineFirstArgObject s = Some r
             <-> Spec.InlineArgument s r)
  /\ (extractInlineFirstArgObject s = None
      <-> forall r, ~ Spec.InlineArgument s r)
  /\ extractInlineFirstArgObject (str "foo(/* x */ { a: 1 })")
     = Some (str "{ a: 1 }")
  /\ extractInlineFirstArgObject (str "foo(args)") = None.
Proof.
  split; [intros r; apply extract_iff|].
  split; [|split; reflexivity].
  split.
  - intros H r Hr. apply extract_iff in Hr. congruence.
  - intros H. destruct (extractInlineFirstArgObject s) as [r|] eqn:E;
      [|reflexivity].
    apply extract_iff in E. now apply H in E.
Qed.

(* ================================================================== *)
(** ** Key detection *)
(* ================================================================== *)

Lemma prevAfter_nil (prev : option N) : Spec.prevAfter prev [] = prev.
Proof. reflexivity. Qed.

Lemma prevAfter_cons (prev : option N) (x : N) (t : text) :
  Spec.prevAfter prev (x :: t) = Spec.prevAfter (Some x) t.
Proof.
  unfold Spec.prevAfter. simpl. destruct (rev t) as [|y r] eqn:E; reflexivity.
Qed.

Lemma prevAfter_lastOf (pre t : text) :
  Spec.prevAfter (Spec.lastOf pre) t = Spec.lastOf (pre ++ t).
Proof.
  unfold Spec.prevAfter, Spec.lastOf. rewrite rev_app_distr.
  destruct (rev t); reflexivity.
Qed.

Lemma parse_plain (key tail : text) :
  Spec.plainKey key = true ->
  parsePattern (key ++ tail)
  = match parsePattern tail with
    | Some p => Some (map Lit key ++ p)
    | None => None
    end.
Proof.
  induction key as [|c key IH]; intros H; simpl.
  - now destruct (parsePattern tail).
  - simpl in H. apply andb_true_iff in H. destruct H as [Hc Hkey].
    apply negb_true_iff in Hc.
    assert (Hbs : (c =? Ch.BACKSLASH)%N = false /\ (c =? Ch.DOT)%N = false
                  /\ (c =? Ch.CARET)%N = false /\ (c =? Ch.DOLLAR)%N = false).
    { unfold isSyntaxChar in Hc.
      repeat (apply orb_false_iff in Hc; destruct Hc as [Hc ?]).
      auto. }
    destruct Hbs as (-> & -> & -> & ->). rewrite Hc, (IH Hkey).
    now destruct (parsePattern tail).
Qed.

Lemma parse_tenantKeyPattern (key : text) :
  Spec.plainKey key = true ->
  parsePattern (tenantKeyPatternSource key) = Some (Spec.keyPattern key).
Proof.
  intros H. unfold tenantKeyPatternSource.
  change (str "\b" ++ key ++ str "\b\s*:")
    with (Ch.BACKSLASH :: 98%N :: (key ++ str "\b\s*:")).
  cbn [parsePattern]. rewrite N.eqb_refl. cbn [N.eqb Pos.eqb].
  rewrite (parse_plain _ _ H). reflexivity.
Qed.

Lemma matchHere_lits (key : text) (p : pattern) :
  forall prev rest,
    matchHere (map Lit key ++ p) prev rest = true
    <-> exists rest', rest = key ++ rest'
                      /\ matchHere p (Spec.prevAfter prev key) rest' = true.
Proof.
  induction key as [|c key IH]; intros prev rest; simpl.
  - split; [intros H; now exists rest|intros (r & -> & H); exact H].
  - destruct rest as [|x rest].
    + split; [discriminate|intros (r & H & _); discriminate].
    + rewrite andb_true_iff, N.eqb_eq, IH, prevAfter_cons. split.
      * intros (-> & r & -> & H). now exists r.
      * intros (r & E & H). injection E as -> ->. split; [reflexivity|].
        now exists r.
Qed.

Lemma matchHere_star_unfold (p : pattern) (prev : option N) (rest : text) :
  matchHere (SpaceStar :: p) prev rest
  = matchHere p prev rest
    || match rest with
       | x :: r => isSpace x && matchHere (SpaceStar :: p) (Some x) r
       | [] => false
       end.
Proof. destruct rest; reflexivity. Qed.

Lemma matchHere_star (p : pattern) (rest : text) :
  forall prev,
    matchHere (SpaceStar :: p) prev rest = true
    <-> exists ws rest', rest = ws ++ rest'
                         /\ forallb isSpace ws = true
                         /\ matchHere p (Spec.prevAfter prev ws) rest' = true.
Proof.
  induction rest as [|x rest IH]; intros prev;
    rewrite matchHere_star_unfold, orb_true_iff.
  - split.
    + intros [H|H]; [|discriminate]. now exists [], [].
    + intros (ws & r & E & _ & H). symmetry in E.
      apply app_eq_nil in E. destruct E as [-> ->]. now left.
  - rewrite andb_true_iff, IH. split.
    + intros [H|(Hx & ws & r & -> & Hws & H)].
      * now exists [], (x :: rest).
      * exists (x :: ws), r. simpl. rewrite Hx, Hws, prevAfter_cons. auto.
    + intros (ws & r & E & Hws & H). destruct ws as [|y ws].
      * simpl in E. subst r. now left.
      * simpl in E. injection E as -> ->. simpl in Hws.
        apply andb_true_iff in Hws. destruct Hws as [Hy Hws].
        right. split; [exact Hy|]. exists ws, r.
        rewrite prevAfter_cons in H. auto.
Qed.

Lemma searchFrom_iff (p : pattern) (rest : text) :
  forall prev,
    searchFrom p prev rest = true
    <-> exists pre rest', rest = pre ++ rest'
                          /\ matchHere p (Spec.prevAfter prev pre) rest' = true.
Proof.
  induction rest as [|x rest IH]; intros prev; cbn [searchFrom];
    rewrite orb_true_iff.
  - split.
    + intros [H|H]; [|discriminate]. now exists [], [].
    + intros (pre & r & E & H). symmetry in E.
      apply app_eq_nil in E. destruct E as [-> ->]. now left.
  - rewrite IH. split.
    + intros [H|(pre & r & -> & H)].
      * now exists [], (x :: rest).
      * exists (x :: pre), r. now rewrite prevAfter_cons.
    + intros (pre & r & E & H). destruct pre as [|y pre].
      * simpl in E. subst r. now left.
      * simpl in E. injection E as -> ->. right. exists pre, r.
        rewrite prevAfter_cons in H. auto.
Qed.

Lemma matchHere_boundary (p : pattern) (prev : option N) (rest : text) :
  matchHere (WordBoundary :: p) prev rest
  = xorb (isWordAt prev) (isWordAt (hd_error rest)) && matchHere p prev rest.
Proof. reflexivity. Qed.

Lemma matchHere_colon (prev : option N) (rest : text) :
  matchHere [Lit Ch.COLON] prev rest = true
  <-> exists post, rest = Ch.COLON :: post.
Proof.
  destruct rest as [|x post]; simpl.
  - split; [discriminate|intros (? & ?); discriminate].
  - rewrite andb_true_r, N.eqb_eq. split.
    + intros ->. now exists post.
    + intros (? & E). now injection E.
Qed.

Lemma xorb_boundary (a b : option N) :
  xorb (isWordAt a) (isWordAt b) = true <-> Spec.boundary a b.
Proof.
  unfold Spec.boundary. destruct (isWordAt a), (isWordAt b); simpl;
    split; congruence.
Qed.

Lemma hd_error_app_cons (a : text) (c : N) (post : text) :
  hd_error (a ++ c :: post) = hd_error (a ++ [c]).
Proof. destruct a; reflexivity. Qed.

Lemma test_keyPattern (block key : text) :
  test (Spec.keyPattern key) block = true <-> Spec.KeyOccurs block key.
Proof.
  unfold test, Spec.KeyOccurs. rewrite searchFrom_iff. split.
  - intros (pre & rest & -> & H). unfold Spec.keyPattern in H.
    rewrite matchHere_boundary in H.
    apply andb_true_iff in H. destruct H as [Hb1 H].
    apply matchHere_lits in H. destruct H as (rest' & -> & H).
    rewrite matchHere_boundary in H.
    apply andb_true_iff in H. destruct H as [Hb2 H].
    apply matchHere_star in H. destruct H as (ws & rest'' & -> & Hws & H).
    apply matchHere_colon in H. destruct H as (post & ->).
    exists pre, ws, post. split; [reflexivity|]. split; [exact Hws|].
    apply xorb_boundary in Hb1, Hb2.
    change (Spec.prevAfter None pre) with (Spec.lastOf pre) in Hb1, Hb2.
    rewrite prevAfter_lastOf in Hb2.
    rewrite hd_error_app_cons in Hb2.
    rewrite app_assoc, hd_error_app_cons, <- app_assoc in Hb1. auto.
  - intros (pre & ws & post & -> & Hws & Hb1 & Hb2).
    exists pre, (key ++ ws ++ Ch.COLON :: post). split; [reflexivity|].
    change (Spec.prevAfter None pre) with (Spec.lastOf pre).
    unfold Spec.keyPattern. rewrite matchHere_boundary.
    apply andb_true_iff. split.
    + apply xorb_boundary.
      now rewrite app_assoc, hd_error_app_cons, <- app_assoc.
    + apply matchHere_lits. exists (ws ++ Ch.COLON :: post).
      split; [reflexivity|]. rewrite matchHere_boundary.
      apply andb_true_iff. split.
      * apply xorb_boundary. rewrite prevAfter_lastOf.
        now rewrite hd_error_app_cons.
      * apply matchHere_star. exists ws, (Ch.COLON :: post).
        split; [reflexivity|]. split; [exact Hws|].
        apply matchHere_colon. now exists post.
Qed.

(** C9 (amended).  For keys free of regular-expression syntax characters
    (plain identifiers are), key detection answers, and answers true
    exactly when some key occurs in the block between word boundaries and
    is followed, after optional white space, by a colon.  The two examples
    of the specification are as stated. *)
Theorem key_detection_word_boundary :
  (forall (block : text) (keys : list text),
     forallb Spec.plainKey keys = true ->
     exists b, whereHasTenantKey block keys = Some b
               /\ (b = true <->
                   exists key, In key keys /\ Spec.KeyOccurs block key))
  /\ whereHasTenantKey (str "{ orgIdentifier: 1 }") [str "orgId"] = Some false
  /\ whereHasTenantKey (str "{ orgId: 1 }") [str "orgId"] = Some true.
Proof.
  split; [|split; reflexivity].
  intros block keys.
  induction keys as [|key keys IH]; intros H; cbn [whereHasTenantKey].
  - exists false. split; [reflexivity|]. split; [discriminate|].
    intros (k & [] & _).
  - simpl in H. apply andb_true_iff in H. destruct H as [Hk Hks].
    rewrite (parse_tenantKeyPattern _ Hk).
    destruct (test (Spec.keyPattern key) block) eqn:E.
    + exists true. split; [reflexivity|]. split; [|reflexivity].
      intros _. exists key. split; [now left|]. now apply test_keyPattern.
    + destruct (IH Hks) as (b & Hb & Hiff). exists b. split; [exact Hb|].
      rewrite Hiff. split.
      * intros (k & Hin & Hocc). exists k. split; [now right|exact Hocc].
      * intros (k & [<-|Hin] & Hocc).
        -- apply test_keyPattern in Hocc. congruence.
        -- now exists k.
Qed.

(** The amended C9 at the keys [workspaceId] and [orgId]. *)
Lemma key_detection_word_boundary_witness :
  exists b, whereHasTenantKey (str "{ orgId: 1 }")
              [str "workspaceId"; str "orgId"] = Some b
            /\ (b = true <->
                exists key, In key [str "workspaceId"; str "orgId"]
                            /\ Spec.KeyOccurs (str "{ orgId: 1 }") key).
Proof.
  apply (proj1 key_detection_word_boundary). reflexivity.
Defined.

(** C9, counterexample: the key [org.d] is found in a block in which it
    does not occur, its dot standing for any character. *)
Lemma key_detection_pattern_key :
  whereHasTenantKey (str "{ orgXd: 1 }") [str "org.d"] = Some true
  /\ ~ (exists key, In key [str "org.d"]
                    /\ Spec.KeyOccurs (str "{ orgXd: 1 }") key).
Proof.
  split; [reflexivity|].
  intros (key & [<-|[]] & pre & ws & post & E & _).
  assert (Hin : In Ch.DOT (str "{ orgXd: 1 }")).
  { rewrite E. apply in_or_app. right. apply in_or_app. left.
    simpl. tauto. }
  simpl in Hin. repeat (destruct Hin as [Hin|Hin]; [discriminate|]).
  exact Hin.
Qed.

(* ================================================================== *)
(** ** Discovery prepass and execution engine *)
(* ================================================================== *)

Lemma In_setAdd (s : list text) (x y : text) :
  In y (Discovery.setAdd s x) <-> In y s \/ y = x.
Proof.
  unfold Discovery.setAdd. destruct (Discovery.mem x s) eqn:E.
  - apply mem_In in E. split; [tauto|]. intros [H| ->]; assumption.
  - rewrite in_app_iff. simpl. intuition congruence.
Qed.

Lemma In_setAddAll (xs : list text) :
  forall s y, In y (Discovery.setAddAll s xs) <-> In y s \/ In y xs.
Proof.
  unfold Discovery.setAddAll.
  induction xs as [|x xs IH]; intros s y; simpl; [tauto|].
  rewrite IH, In_setAdd. intuition congruence.
Qed.

Lemma In_uniq (arr : list text) (y : text) :
  In y (Discovery.uniq arr) <-> In y arr /\ Discovery.nonEmpty y = true.
Proof.
  unfold Discovery.uniq. rewrite In_setAddAll, filter_In. simpl. tauto.
Qed.

Lemma NoDup_setAdd (s : list text) (x : text) :
  NoDup s -> NoDup (Discovery.setAdd s x).
Proof.
  intros H. unfold Discovery.setAdd.
  destruct (Discovery.mem x s) eqn:E; [exact H|].
  assert (Hx : ~ In x s) by (rewrite <- mem_In; congruence).
  clear E. induction H as [|a l Ha Hl IH]; simpl.
  - constructor; [tauto|constructor].
  - constructor.
    + rewrite in_app_iff. simpl in *. intuition congruence.
    + apply IH. simpl in Hx. tauto.
Qed.

Lemma NoDup_uniq (arr : list text) : NoDup (Discovery.uniq arr).
Proof.
  unfold Discovery.uniq, Discovery.setAddAll.
  assert (H : forall xs s, NoDup s -> NoDup (fold_left Discovery.setAdd xs s)).
  { induction xs as [|x xs IH]; intros s Hs; simpl; [exact Hs|].
    apply IH. now apply NoDup_setAdd. }
  apply H. constructor.
Qed.

(* ---- the prepass ---- *)
Section EngineFacts.

Variable toPosix : text -> text.

(** The loop over the files only adds guards, and it is left early only
    by a file that cannot be read. *)
Lemma scanFiles_outcome (ctx : RuleContext) (rest : list text) :
  forall i acc,
    match Discovery.scanFiles toPosix ctx rest i acc with
    | Ok acc' => incl (Discovery.foundGuards acc) (Discovery.foundGuards acc')
    | Threw e => exists abs, In abs rest /\ readFile ctx abs = Threw e
    end.
Proof.
  induction rest as [|abs rest IH]; intros i acc; cbn [Discovery.scanFiles].
  - apply incl_refl.
  - assert (Hskip : forall acc0,
      incl (Discovery.foundGuards acc) (Discovery.foundGuards acc0) ->
      match Discovery.scanFiles toPosix ctx rest (S i) acc0 with
      | Ok acc' =>
          incl (Discovery.foundGuards acc) (Discovery.foundGuards acc')
      | Threw e =>
          exists abs0, In abs0 (abs :: rest) /\ readFile ctx abs0 = Threw e
      end).
    { intros acc0 Hacc0. specialize (IH (S i) acc0).
      destruct (Discovery.scanFiles _ ctx rest (S i) acc0) as [acc'|e].
      - eapply incl_tran; eauto.
      - destruct IH as (abs0 & Hin & Hr). exists abs0. split; [now right|auto]. }
    cbv zeta.
    destruct (negb (Discovery.hasScriptExtension _));
      [apply Hskip, incl_refl|].
    destruct (negb (Discovery.shouldScanFileForGuards _ _));
      [apply Hskip, incl_refl|].
    simpl. destruct (readFile ctx abs) as [code|e] eqn:Hread.
    + destruct (negb (Discovery.nonEmpty code)); [apply Hskip, incl_refl|].
      apply Hskip. intros g Hg. unfold Discovery.scanCode. simpl.
      apply In_setAddAll. now left.
    + exists abs. split; [now left|exact Hread].
Qed.

(** What [discoverAuthGuards] returns is a merge, over guards that contain
    those the loop started from; it fails only with a file read. *)
Lemma discoverAuthGuards_outcome (ctx : RuleContext) :
  match Discovery.discoverAuthGuards toPosix ctx with
  | Ok d =>
    exists discovered,
      d = Discovery.mergeWithUserConfig discovered ctx
      /\ incl (filter Discovery.nonEmpty Discovery.COMMON_GUARDS)
              (guards discovered)
  | Threw e => exists abs, In abs (files ctx) /\ readFile ctx abs = Threw e
  end.
Proof.
  unfold Discovery.discoverAuthGuards. cbv zeta.
  match goal with
  | |- context [Discovery.scanFiles _ ctx (files ctx) 0 ?a] =>
      pose proof (scanFiles_outcome ctx (files ctx) 0 a) as H;
      destruct (Discovery.scanFiles toPosix ctx (files ctx) 0 a) as [acc|e]
  end; cbn [bind ret Monad_Result]; [|exact H].
  eexists. split; [reflexivity|].
  intros g Hg. apply filter_In in Hg. destruct Hg as [Hg Hne].
  cbn [guards]. apply In_uniq. split; [|exact Hne].
  apply H. cbn [Discovery.foundGuards]. apply In_setAddAll. now right.
Qed.

Lemma merge_keeps_user_entries (discovered : DiscoveredAuth)
  (ctx : RuleContext) :
  let d := Discovery.mergeWithUserConfig discovered ctx in
  let o := Discovery.cfgAuthObject (config ctx) in
  incl (Spec.userGuards (config ctx)) (guards d)
  /\ incl (Spec.userPaths (cfgPublicApiExact o)) (publicApiExact d)
  /\ incl (Spec.userPaths (cfgPublicApiPrefix o)) (publicApiPrefix d)
  /\ incl (Spec.userPaths (cfgProxyApiPrefix o)) (proxyApiPrefix d).
Proof.
  unfold Spec.userGuards, Spec.userPaths, Discovery.mergeWithUserConfig.
  cbv zeta. simpl.
  repeat split; intros x Hx; apply In_uniq; apply filter_In in Hx;
    destruct Hx as [Hx Hne]; (split; [|exact Hne]);
    apply in_or_app; right; try exact Hx.
  apply filter_In. now split.
Qed.

Lemma merge_NoDup (discovered : DiscoveredAuth) (ctx : RuleContext) :
  let d := Discovery.mergeWithUserConfig discovered ctx in
  NoDup (guards d) /\ NoDup (publicApiExact d)
  /\ NoDup (publicApiPrefix d) /\ NoDup (proxyApiPrefix d).
Proof.
  unfold Discovery.mergeWithUserConfig. simpl.
  repeat split; apply NoDup_uniq.
Qed.

(** C10.  Whenever the prepass returns, every name of the built-in
    catalogue is among the guards it returns, whatever the files hold,
    also when no guard occurs in them; it returns unless a file it has to
    read cannot be read, so it does on an empty corpus. *)
Theorem discovered_guards_contain_catalogue (ctx : RuleContext) :
  match Discovery.discoverAuthGuards toPosix ctx with
  | Ok d => incl Discovery.COMMON_GUARDS (guards d)
  | Threw e => exists abs, In abs (files ctx) /\ readFile ctx abs = Threw e
  end.
Proof.
  pose proof (discoverAuthGuards_outcome ctx) as H.
  destruct (Discovery.discoverAuthGuards _ ctx) as [d|e]; [|exact H].
  destruct H as (discovered & -> & Hseed).
  intros g Hg.
  assert (Hne : Discovery.nonEmpty g = true).
  { assert (Hall : forallb Discovery.nonEmpty Discovery.COMMON_GUARDS = true)
      by reflexivity.
    rewrite forallb_forall in Hall. now apply Hall. }
  unfold Discovery.mergeWithUserConfig. cbn [guards].
  apply In_uniq. split; [|exact Hne].
  apply in_or_app. left. apply Hseed. apply filter_In. now split.
Qed.

(** C7 (amended).  Whenever the prepass returns, every entry of the user's
    [auth] object that is not empty once normalised (guard names trimmed,
    paths normalised) is in the corresponding output list, whatever the
    discovery over the files finds, and no output list has duplicates.
    The prepass returns unless a file it has to read cannot be read. *)
Theorem user_entries_merged (ctx : RuleContext) :
  match Discovery.discoverAuthGuards toPosix ctx with
  | Ok d =>
    let o := Discovery.cfgAuthObject (config ctx) in
    (incl (Spec.userGuards (config ctx)) (guards d)
     /\ incl (Spec.userPaths (cfgPublicApiExact o)) (publicApiExact d)
     /\ incl (Spec.userPaths (cfgPublicApiPrefix o)) (publicApiPrefix d)
     /\ incl (Spec.userPaths (cfgProxyApiPrefix o)) (proxyApiPrefix d))
    /\ NoDup (guards d) /\ NoDup (publicApiExact d)
    /\ NoDup (publicApiPrefix d) /\ NoDup (proxyApiPrefix d)
  | Threw e => exists abs, In abs (files ctx) /\ readFile ctx abs = Threw e
  end.
Proof.
  pose proof (discoverAuthGuards_outcome ctx) as H.
  destruct (Discovery.discoverAuthGuards _ ctx) as [d|e]; [|exact H].
  destruct H as (discovered & -> & _).
  split; [apply merge_keeps_user_entries|apply merge_NoDup].
Qed.

(* ---- the engine ---- *)
Lemma runCaught_resolved (ctx : RuleContext) (rule : Rule)
  (findings : list Finding) :
  run rule ctx = Returned (Ok findings) ->
  Engine.runCaught ctx rule = Ok findings.
Proof. unfold Engine.runCaught. now intros ->. Qed.

Lemma runCaught_rejected (ctx : RuleContext) (rule : Rule) (e : Thrown)
  (failure : text) :
  run rule ctx = Returned (Threw e) ->
  failureText e = Ok failure ->
  Engine.runCaught ctx rule = Ok [Engine.ruleCrashed ctx rule failure].
Proof.
  unfold Engine.runCaught. intros -> H. cbn [catch Exc_Result].
  now rewrite H.
Qed.

Lemma runCaught_thrown (ctx : RuleContext) (rule : Rule) (e : Thrown) :
  run rule ctx = Throws e -> Engine.runCaught ctx rule = Threw e.
Proof. unfold Engine.runCaught. now intros ->. Qed.

(** What the loop returns begins with what it was given. *)
Lemma runLoop_prefix (ctx : RuleContext) (rules : list Rule) :
  forall out more res,
    Engine.runLoop ctx rules out = Ok res ->
    Engine.runLoop ctx rules (more ++ out) = Ok (more ++ res).
Proof.
  induction rules as [|r rules IH]; intros out more res;
    cbn [Engine.runLoop].
  - cbn. now intros [= <-].
  - destruct (Engine.applicable ctx r); [|apply IH].
    destruct (Engine.runCaught ctx r) as [findings|e];
      cbn [bind Monad_Result]; [|discriminate].
    intros H. rewrite <- app_assoc. now apply IH.
Qed.

Lemma runLoop_app (ctx : RuleContext) (rules : list Rule) :
  forall out tail,
    Engine.runLoop ctx rules [] = Ok tail ->
    Engine.runLoop ctx rules out = Ok (out ++ tail).
Proof.
  intros out tail H. rewrite <- (app_nil_r out) at 1.
  now apply runLoop_prefix.
Qed.

Lemma runLoop_split (ctx : RuleContext) (before after : list Rule)
  (rule : Rule) (findings head tail : list Finding) :
  Engine.applicable ctx rule = true ->
  Engine.runCaught ctx rule = Ok findings ->
  forall out,
    Engine.runLoop ctx before out = Ok head ->
    Engine.runLoop ctx after [] = Ok tail ->
    Engine.runLoop ctx (before ++ rule :: after) out
    = Ok (head ++ findings ++ tail).
Proof.
  intros Happ Hrule. induction before as [|r before IH];
    intros out Hhead Htail; cbn [Engine.runLoop app].
  - cbn in Hhead. injection Hhead as <-. rewrite Happ, Hrule.
    cbn [bind Monad_Result].
    rewrite (runLoop_app _ _ _ _ Htail). now rewrite app_assoc.
  - cbn [Engine.runLoop] in Hhead.
    destruct (Engine.applicable ctx r); [|now apply IH].
    destruct (Engine.runCaught ctx r) as [fs|e];
      cbn [bind Monad_Result] in Hhead |- *; [|discriminate].
    now apply IH.
Qed.

(** The loop is left by the first rule the engine does not catch. *)
Lemma runLoop_escape (ctx : RuleContext) (before after : list Rule)
  (rule : Rule) (e : Thrown) (head : list Finding) :
  Engine.applicable ctx rule = true ->
  Engine.runCaught ctx rule = Threw e ->
  forall out,
    Engine.runLoop ctx before out = Ok head ->
    Engine.runLoop ctx (before ++ rule :: after) out = Threw e.
Proof.
  intros Happ Hrule. induction before as [|r before IH];
    intros out Hhead; cbn [Engine.runLoop app].
  - now rewrite Happ, Hrule.
  - cbn [Engine.runLoop] in Hhead.
    destruct (Engine.applicable ctx r); [|now apply IH].
    destruct (Engine.runCaught ctx r) as [fs|e'];
      cbn [bind Monad_Result] in Hhead |- *; [|discriminate].
    now apply IH.
Qed.

(** The prepass leaves the root directory as it is. *)
Lemma prepass_root (ctx ctx' : RuleContext) (out : list Finding) :
  Engine.prepass toPosix ctx = Ok (ctx', out) -> rootDir ctx' = rootDir ctx.
Proof.
  unfold Engine.prepass.
  destruct (Discovery.discoverAuthGuards _ ctx) as [d|e];
    cbn [bind ret catch Monad_Result Exc_Result].
  - now intros [= <- _].
  - destruct (failureText e); cbn [bind ret Monad_Result];
      [now intros [= <- _]|discriminate].
Qed.

(** What the engine does catch: when the promise an applicable rule
    returns is rejected with a failure that has a text, and the rules
    before and after do not stop the engine, the list returned has one
    finding in place of that rule's findings, of severity info, with the
    rule's id and the failure's text; around it are the findings returned
    when a rule in the same place succeeds. *)
Lemma rejection_isolated (ctx ctx' : RuleContext) (out0 : list Finding)
  (before after : list Rule) (rule : Rule) (e : Thrown) (failure : text)
  (pre post : list Finding) :
  Engine.prepass toPosix ctx = Ok (ctx', out0) ->
  Engine.runLoop ctx' before out0 = Ok pre ->
  Engine.runLoop ctx' after [] = Ok post ->
  Engine.applicable ctx' rule = true ->
  run rule ctx' = Returned (Threw e) ->
  failureText e = Ok failure ->
  let runRules := Engine.runRules toPosix in
  let crash := {| ruleId := id rule; severity := info;
                  message := str "Rule crashed: " ++ failure;
                  file := rootDir ctx; line := None; col := None;
                  fixHint := None |} in
  runRules ctx (before ++ rule :: after) = Ok (pre ++ [crash] ++ post)
  /\ forall (rule' : Rule) (findings : list Finding),
       Engine.applicable ctx' rule' = true ->
       run rule' ctx' = Returned (Ok findings) ->
       runRules ctx (before ++ rule' :: after)
       = Ok (pre ++ findings ++ post).
Proof.
  intros Hpre Hbefore Hafter Happ Hrun Htext. cbv zeta.
  pose proof (prepass_root _ _ _ Hpre) as Hroot.
  unfold Engine.runRules. rewrite Hpre. cbn [bind Monad_Result fst snd].
  split.
  - apply runLoop_split; try assumption.
    rewrite (runCaught_rejected _ _ _ _ Hrun Htext).
    unfold Engine.ruleCrashed. now rewrite Hroot.
  - intros rule' findings Happ' Hrun'.
    apply runLoop_split; try assumption.
    now apply runCaught_resolved.
Qed.

(** What it does not: when the call of an applicable rule's [run] throws,
    the engine fails with what was thrown, whatever rules come after. *)
Lemma throw_escapes (ctx ctx' : RuleContext) (out0 : list Finding)
  (before after : list Rule) (rule : Rule) (e : Thrown)
  (pre : list Finding) :
  Engine.prepass toPosix ctx = Ok (ctx', out0) ->
  Engine.runLoop ctx' before out0 = Ok pre ->
  Engine.applicable ctx' rule = true ->
  run rule ctx' = Throws e ->
  Engine.runRules toPosix ctx (before ++ rule :: after) = Threw e.
Proof.
  intros Hpre Hbefore Happ Hrun.
  unfold Engine.runRules. rewrite Hpre. cbn [bind Monad_Result fst snd].
  apply (runLoop_escape _ _ _ _ _ pre); try assumption.
  now apply runCaught_thrown.
Qed.

End EngineFacts.

(** C1.  The engine does not catch every failure of a rule.  A rule whose
    [run] throws before it returns a promise stops the engine, which fails
    with what the rule threw: no finding stands for the failure and the
    rule after it does not run.  The same failure as the rejection of the
    promise an [async] rule returns is caught as the claim says: one
    finding of severity info with the rule's id and the failure's message,
    and the findings of the rule after it. *)
Theorem synchronous_throw_escapes :
  Engine.runRules Sample.posix Sample.typedContext
    [Sample.throwingRule; Sample.quietRule]
  = Threw Sample.boom
  /\ Engine.runRules Sample.posix Sample.typedContext
       [Sample.brokenRule; Sample.quietRule]
     = Ok [{| ruleId := str "broken"; severity := info;
              message := str "Rule crashed: boom";
              file := str "/repo"; line := None; col := None;
              fixHint := None |};
           Sample.finding].
Proof. split; reflexivity. Qed.

(** C7, counterexample: a blank entry of the user's [auth.guards] is in no
    output list, trimmed or not; and the guard names of a configuration
    shaped as its type declares it, which are in [authGuards], are not
    merged into the discovered guards. *)
Lemma user_entry_dropped :
  match Discovery.discoverAuthGuards Sample.posix Sample.blankGuardContext with
  | Ok d =>
    In (str " ")
       (Discovery.arrayOr
          (cfgGuards
             (Discovery.cfgAuthObject (config Sample.blankGuardContext))))
    /\ ~ In (trim (str " ")) (guards d)
    /\ ~ In (str " ") (guards d)
  | Threw _ => False
  end
  /\ match Discovery.discoverAuthGuards Sample.posix Sample.typedContext with
     | Ok d =>
       In (str "checkSession") (authGuards (config Sample.typedContext))
       /\ ~ In (str "checkSession") (guards d)
     | Threw _ => False
     end.
Proof.
  split.
  - vm_compute. split; [now left|].
    split; intros H; repeat (destruct H as [H|H]; [discriminate|]);
      exact H.
  - vm_compute. split; [now left|].
    intros H; repeat (destruct H as [H|H]; [discriminate|]); exact H.
Qed.

(* ================================================================== *)
(** ** More on the baseline *)
(* ================================================================== *)

Lemma beyondRecorded_app (lim : text -> nat) (a b : list Finding) :
  forall before,
    Spec.beyondRecorded lim before (a ++ b)
    = Spec.beyondRecorded lim before a
      ++ Spec.beyondRecorded lim (before ++ a) b.
Proof.
  induction a as [|f a IH]; intros before; simpl.
  - now rewrite app_nil_r.
  - rewrite IH, <- app_assoc. simpl.
    now destruct (Spec.occurrences (Baseline.keyOf f) before
                  <? lim (Baseline.keyOf f)).
Qed.

Lemma beyondRecorded_none (lim : text -> nat) (fs : list Finding) :
  forall before,
    (forall f, In f fs ->
       lim (Baseline.keyOf f) <= Spec.occurrences (Baseline.keyOf f) before) ->
    Spec.beyondRecorded lim before fs = fs.
Proof.
  induction fs as [|f fs IH]; intros before H; simpl; [reflexivity|].
  assert (E : lim (Baseline.keyOf f)
              <= Spec.occurrences (Baseline.keyOf f) before)
    by (apply H; now left).
  apply Nat.ltb_ge in E. rewrite E. f_equal. apply IH.
  intros g Hg. rewrite occurrences_app. specialize (H g (or_intror Hg)). lia.
Qed.

Lemma beyondRecorded_sub (lim : text -> nat) (fs : list Finding) :
  forall before,
    Props.Subsequence (Spec.beyondRecorded lim before fs) fs.
Proof.
  induction fs as [|f fs IH]; intros before; simpl; [constructor|].
  destruct (_ <? _); constructor; apply IH.
Qed.

Lemma Subsequence_length (A : Type) (l l' : list A) :
  Props.Subsequence l l' -> length l <= length l'.
Proof. induction 1; simpl; lia. Qed.

(** X1.  [applyBaseline] only leaves findings out: what it returns is the
    findings it was given, in their order, without the suppressed ones; it
    never adds or reorders a finding, and never returns more than it
    got. *)
Theorem applyBaseline_subsequence (fs : list Finding) (b : Baseline.t) :
  Props.Subsequence (Baseline.applyBaseline fs b) fs
  /\ length (Baseline.applyBaseline fs b) <= length fs.
Proof.
  assert (H : Props.Subsequence (Baseline.applyBaseline fs b) fs)
    by (rewrite applyBaseline_beyond; apply beyondRecorded_sub).
  split; [exact H|]. now apply Subsequence_length.
Qed.

(** X2.  A baseline file that is missing or does not parse suppresses
    nothing, and neither does a baseline that records no positive count
    for any signature present. *)
Theorem missing_baseline_suppresses_nothing (fs : list Finding) :
  (forall (p : text) (files : Baseline.Files),
     files p = None ->
     Baseline.applyBaseline fs (Baseline.loadBaseline p files) = fs)
  /\ (forall b : Baseline.t,
        (forall f, In f fs -> Spec.recorded b (Baseline.keyOf f) = 0) ->
        Baseline.applyBaseline fs b = fs).
Proof.
  assert (H : forall b : Baseline.t,
            (forall f, In f fs -> Spec.recorded b (Baseline.keyOf f) = 0) ->
            Baseline.applyBaseline fs b = fs).
  { intros b Hb. rewrite applyBaseline_beyond. apply beyondRecorded_none.
    intros f Hf. rewrite (Hb f Hf). lia. }
  split; [|exact H].
  intros p files Hp. unfold Baseline.loadBaseline. rewrite Hp.
  apply H. intros f _. reflexivity.
Qed.

Lemma missing_baseline_suppresses_nothing_witness :
  Baseline.applyBaseline [Sample.finding]
    (Baseline.loadBaseline (str ".vibecheck-baseline.json") (fun _ => None))
  = [Sample.finding].
Proof.
  apply (proj1 (missing_baseline_suppresses_nothing [Sample.finding])).
  reflexivity.
Defined.

(** X3.  Findings that come after those a baseline was written from are
    all reported, and only they: applying the baseline of [F] to [F]
    followed by [G] returns [G]. *)
Theorem appended_findings_surface (F G : list Finding) :
  Baseline.applyBaseline (F ++ G) (Baseline.baselineOf F) = G.
Proof.
  rewrite applyBaseline_beyond, beyondRecorded_app.
  rewrite beyondRecorded_all, beyondRecorded_none; [reflexivity| |].
  - intros f _. rewrite recorded_baselineOf. simpl. lia.
  - intros sig. rewrite recorded_baselineOf. simpl. lia.
Qed.

(* ---- what writeBaseline records ---- *)
Lemma get_In (m : JsMap.t) (k : text) (v : nat) :
  NoDup (map fst m) -> In (k, v) m -> JsMap.get m k = Some v.
Proof.
  induction m as [|[k0 v0] m IH]; intros Hnd Hin; [destruct Hin|].
  inversion Hnd as [|? ? Hk0 Hnd']; subst. simpl.
  destruct Hin as [E0|Hin].
  - injection E0 as -> ->. now rewrite text_eqb_refl.
  - destruct (text_eqb k0 k) eqn:E.
    + apply text_eqb_eq in E; subst k0. exfalso. apply Hk0.
      change k with (fst (k, v)). now apply in_map.
    + now apply IH.
Qed.

Lemma sum_set_succ (m : JsMap.t) (k : text) :
  list_sum (map snd (JsMap.set m k (JsMap.getOr0 m k + 1)))
  = list_sum (map snd m) + 1.
Proof.
  induction m as [|[k0 v0] m IH]; [reflexivity|].
  unfold JsMap.getOr0 in *. simpl.
  destruct (text_eqb k0 k); simpl; [lia|]. rewrite IH. lia.
Qed.

Lemma In_set (m : JsMap.t) (k : text) (v : nat) (k' : text) (v' : nat) :
  In (k', v') (JsMap.set m k v) -> (k' = k /\ v' = v) \/ In (k', v') m.
Proof.
  induction m as [|[k0 v0] m IH]; simpl.
  - intros [E|[]]. injection E as <- <-. now left.
  - destruct (text_eqb k0 k) eqn:E; simpl.
    + apply text_eqb_eq in E; subst k0.
      intros [E|H]; [injection E as <- <-; now left|right; now right].
    + intros [E1|H]; [right; now left|].
      destruct (IH H) as [?|?]; [now left|right; now right].
Qed.

(** The counting loop: the keys are the signatures met, every count is
    positive, and the counts add up to the number of findings. *)
Lemma countKeys_loop (fs : list Finding) :
  forall m : JsMap.t,
    let m' := fold_left
                (fun counts f =>
                   let k := Baseline.keyOf f in
                   JsMap.set counts k (JsMap.getOr0 counts k + 1)) fs m in
    (forall k, In k (map fst m')
               <-> In k (map fst m)
                   \/ exists f, In f fs /\ Baseline.keyOf f = k)
    /\ list_sum (map snd m') = list_sum (map snd m) + length fs
    /\ ((forall k v, In (k, v) m -> 1 <= v) ->
        forall k v, In (k, v) m' -> 1 <= v).
Proof.
  induction fs as [|f fs IH]; intros m; cbn [fold_left length]; cbv zeta.
  - repeat split; try tauto; try lia.
    intros [H|(f & [] & _)]. exact H.
  - destruct (IH (JsMap.set m (Baseline.keyOf f)
                    (JsMap.getOr0 m (Baseline.keyOf f) + 1)))
      as (Hkeys & Hsum & Hpos). cbv zeta in Hkeys, Hsum, Hpos.
    split; [|split].
    + intros k. rewrite Hkeys, keys_set.
      destruct (Discovery.mem (Baseline.keyOf f) (map fst m)) eqn:E.
      * apply mem_In in E. split.
        -- intros [H|(g & Hg & Hk)]; [now left|].
           right. exists g. split; [now right|exact Hk].
        -- intros [H|(g & [Hfg|Hg] & Hk)].
           ++ now left.
           ++ left. subst g. now rewrite <- Hk.
           ++ right. exists g. now split.
      * rewrite in_app_iff. simpl. split.
        -- intros [[H|[Hk|[]]]|(g & Hg & Hk)].
           ++ now left.
           ++ right. exists f. split; [now left|exact Hk].
           ++ right. exists g. split; [now right|exact Hk].
        -- intros [H|(g & [Hfg|Hg] & Hk)].
           ++ left. now left.
           ++ left. right. left. subst g. exact Hk.
           ++ right. exists g. now split.
    + rewrite Hsum, sum_set_succ. lia.
    + intros Hm. apply Hpos. intros k v Hin.
      apply In_set in Hin. destruct Hin as [[_ ->]|Hin]; [lia|eauto].
Qed.

Lemma countKeys_more (F : list Finding) :
  (forall k, In k (map fst (Baseline.countKeys F))
             <-> exists f, In f F /\ Baseline.keyOf f = k)
  /\ list_sum (map snd (Baseline.countKeys F)) = length F
  /\ forall k v, In (k, v) (Baseline.countKeys F) -> 1 <= v.
Proof.
  pose proof (countKeys_loop F JsMap.empty) as H. cbv zeta in H.
  change (fold_left _ F JsMap.empty) with (Baseline.countKeys F) in H.
  destruct H as (Hkeys & Hsum & Hpos). split; [|split].
  - intros k. rewrite Hkeys. simpl. tauto.
  - exact Hsum.
  - apply Hpos. intros ? ? [].
Qed.

(** X4.  The baseline written from a finding list lists every signature
    that occurs in it once, and no other, each with the number of its
    occurrences, which is at least 1; the counts add up to the number of
    findings. *)
Theorem written_baseline_invariants (F : list Finding) :
  let items := Baseline.items (Baseline.baselineOf F) in
  NoDup (map Baseline.key items)
  /\ (forall i, In i items ->
        Baseline.count i = Spec.occurrences (Baseline.key i) F
        /\ 1 <= Baseline.count i)
  /\ (forall sig, In sig (map Baseline.key items)
                  <-> exists f, In f F /\ Baseline.keyOf f = sig)
  /\ Props.totalCount (Baseline.baselineOf F) = length F.
Proof.
  destruct (countKeys_spec F) as [Hnd Hget].
  destruct (countKeys_more F) as (Hkeys & Hsum & Hpos).
  assert (Hmap : map Baseline.key (Baseline.items (Baseline.baselineOf F))
                 = map fst (Baseline.countKeys F)).
  { unfold Baseline.baselineOf. simpl. rewrite map_map. reflexivity. }
  cbv zeta. rewrite Hmap. split; [exact Hnd|]. split; [|split].
  - intros i Hi. unfold Baseline.baselineOf in Hi. simpl in Hi.
    apply in_map_iff in Hi. destruct Hi as ([k v] & <- & Hin). simpl.
    split.
    + rewrite <- Hget. unfold JsMap.getOr0.
      now rewrite (get_In _ _ _ Hnd Hin).
    + now apply (Hpos k).
  - exact Hkeys.
  - unfold Props.totalCount, Baseline.baselineOf.
    cbn [Baseline.items]. rewrite map_map. exact Hsum.
Qed.

(* ---- signatures ---- *)
Lemma split_at_pipe (a a' b b' : text) :
  Props.noPipe a -> Props.noPipe a' ->
  a ++ Ch.PIPE :: b = a' ++ Ch.PIPE :: b' -> a = a' /\ b = b'.
Proof.
  unfold Props.noPipe. revert a'.
  induction a as [|x a IH]; intros [|y a'] Ha Ha' E; simpl in *.
  - injection E as ->. auto.
  - injection E as <- _. tauto.
  - injection E as -> _. tauto.
  - injection E as -> E. destruct (IH a') as [-> ->]; auto.
Qed.

Lemma noPipe_severity (s : Severity) : Props.noPipe (severityText s).
Proof.
  unfold Props.noPipe. destruct s; simpl; intros H;
    repeat (destruct H as [H|H]; [discriminate|]); exact H.
Qed.

Lemma noPipe_uint (d : Decimal.uint) :
  Props.noPipe (str (NilEmpty.string_of_uint d)).
Proof.
  unfold Props.noPipe.
  induction d; simpl; try tauto; intros [H|H]; try discriminate; tauto.
Qed.

Lemma noPipe_optNat (n : option nat) : Props.noPipe (Baseline.optNat n).
Proof.
  destruct n as [n|]; [apply noPipe_uint|]. unfold Props.noPipe. simpl. tauto.
Qed.

Lemma str_inj (s t : string) : str s = str t -> s = t.
Proof.
  revert t; induction s as [|a s IH]; intros [|b t] E; simpl in E;
    try discriminate; [reflexivity|].
  injection E as Ea Es. f_equal; [|now apply IH].
  rewrite <- (ascii_N_embedding a), <- (ascii_N_embedding b). now rewrite Ea.
Qed.

Lemma ofNat_inj (n m : nat) : ofNat n = ofNat m -> n = m.
Proof.
  unfold ofNat. intros E. apply str_inj in E.
  assert (Eu : Nat.to_uint n = Nat.to_uint m).
  { pose proof (NilEmpty.usu (Nat.to_uint n)) as Hn.
    pose proof (NilEmpty.usu (Nat.to_uint m)) as Hm.
    rewrite E in Hn. rewrite Hn in Hm. now injection Hm. }
  rewrite <- (DecimalNat.Unsigned.of_to n), <- (DecimalNat.Unsigned.of_to m).
  now rewrite Eu.
Qed.

Lemma ofNat_nonempty (n : nat) : ofNat n <> [].
Proof.
  unfold ofNat. intros E.
  assert (Es : NilEmpty.string_of_uint (Nat.to_uint n) = EmptyString)
    by (apply str_inj; exact E).
  pose proof (NilEmpty.usu (Nat.to_uint n)) as H. rewrite Es in H.
  simpl in H. injection H as H.
  pose proof (DecimalNat.Unsigned.of_to n) as Hn. rewrite <- H in Hn.
  simpl in Hn. subst n. discriminate.
Qed.

Lemma optNat_inj (n m : option nat) :
  Baseline.optNat n = Baseline.optNat m -> n = m.
Proof.
  destruct n as [n|], m as [m|]; simpl; intros E.
  - f_equal. now apply ofNat_inj.
  - now apply ofNat_nonempty in E.
  - symmetry in E. now apply ofNat_nonempty in E.
  - reflexivity.
Qed.

Lemma severityText_inj (s t : Severity) :
  severityText s = severityText t -> s = t.
Proof. destruct s, t; simpl; intros E; try reflexivity; discriminate. Qed.

(** X5.  Where neither the rule id nor the file path has a [|], the
    signature tells two findings apart whenever they differ in rule id,
    severity, file, line, column or message: equal signatures mean that
    all six are equal. *)
Theorem keyOf_injective (f g : Finding) :
  Props.noPipe (ruleId f) -> Props.noPipe (ruleId g) ->
  Props.noPipe (file f) -> Props.noPipe (file g) ->
  Baseline.keyOf f = Baseline.keyOf g ->
  ruleId f = ruleId g /\ severity f = severity g /\ file f = file g
  /\ line f = line g /\ col f = col g /\ message f = message g.
Proof.
  intros Hrf Hrg Hff Hfg E. unfold Baseline.keyOf, Baseline.sep in E.
  cbn [join str N_of_ascii] in E.
  change (N_of_ascii "|") with Ch.PIPE in E. cbn [app] in E.
  apply split_at_pipe in E; [|assumption..]. destruct E as [E1 E].
  apply split_at_pipe in E; [|apply noPipe_severity..]. destruct E as [E2 E].
  apply split_at_pipe in E; [|assumption..]. destruct E as [E3 E].
  apply split_at_pipe in E; [|apply noPipe_optNat..]. destruct E as [E4 E].
  apply split_at_pipe in E; [|apply noPipe_optNat..]. destruct E as [E5 E6].
  repeat split; auto using severityText_inj, optNat_inj.
Qed.

Lemma keyOf_injective_witness :
  let f := Sample.finding in
  let g := {| ruleId := ruleId f; severity := severity f;
              message := message f; file := file f; line := line f;
              col := col f; fixHint := Some (str "Call your auth guard.") |} in
  ruleId f = ruleId g /\ severity f = severity g /\ file f = file g
  /\ line f = line g /\ col f = col g /\ message f = message g.
Proof.
  intros f g. apply (keyOf_injective f g); try reflexivity;
    unfold Props.noPipe; vm_compute;
    intros H; repeat (destruct H as [H|H]; [discriminate|]); exact H.
Defined.

(* ================================================================== *)
(** ** More on the report *)
(* ================================================================== *)

Lemma bump_total (acc : Report.Summary) (f : Finding) :
  Props.summaryTotal (Report.bump acc f) = Props.summaryTotal acc + 1.
Proof.
  unfold Props.summaryTotal, Report.bump. destruct (severity f); simpl; lia.
Qed.

Lemma fold_bump_count (s : Severity) (get : Report.Summary -> nat) :
  (forall acc f, get (Report.bump acc f)
                 = get acc + if Severity_eqb (severity f) s then 1 else 0) ->
  forall fs acc,
    get (fold_left Report.bump fs acc)
    = get acc + length (Console.ofSeverity s fs).
Proof.
  intros Hget. induction fs as [|f fs IH]; intros acc; simpl; [lia|].
  rewrite IH, Hget. destruct (Severity_eqb (severity f) s); simpl; lia.
Qed.

(** X6.  The summary counts every finding once: each of its five counts is
    the number of findings of that severity, and together they add up to
    the number of findings. *)
Theorem summary_counts (fs : list Finding) :
  let s := Report.summarize fs in
  Report.nBlocker s = length (Console.ofSeverity blocker fs)
  /\ Report.nHigh s = length (Console.ofSeverity high fs)
  /\ Report.nMed s = length (Console.ofSeverity med fs)
  /\ Report.nLow s = length (Console.ofSeverity low fs)
  /\ Report.nInfo s = length (Console.ofSeverity info fs)
  /\ Props.summaryTotal s = length fs.
Proof.
  cbv zeta. unfold Report.summarize.
  assert (H : forall acc,
            Props.summaryTotal (fold_left Report.bump fs acc)
            = Props.summaryTotal acc + length fs).
  { induction fs as [|f fs IH]; intros acc; simpl; [lia|].
    rewrite IH, bump_total. lia. }
  assert (Hc : forall s get,
            (forall acc f,
               get (Report.bump acc f)
               = get acc + if Severity_eqb (severity f) s then 1 else 0) ->
            forall acc, get acc = 0 ->
            get (fold_left Report.bump fs acc)
            = length (Console.ofSeverity s fs)).
  { intros s get Hget acc H0.
    rewrite (fold_bump_count s get Hget), H0. reflexivity. }
  split; [|split; [|split; [|split; [|split]]]];
    try (apply Hc; [|reflexivity]; intros acc f; unfold Report.bump;
         destruct (severity f); simpl; lia).
  rewrite H. reflexivity.
Qed.

(* ---- the console order ---- *)
Lemma insertBy_skip (cmp : Finding -> Finding -> Z) (x : Finding)
  (a b : list Finding) :
  Forall (fun y => (0 < cmp x y)%Z) a ->
  Console.insertBy cmp x (a ++ b) = a ++ Console.insertBy cmp x b.
Proof.
  induction 1 as [|y a Hy _ IH]; simpl; [reflexivity|].
  apply Z.leb_gt in Hy. rewrite Hy. now rewrite IH.
Qed.

Lemma insertBy_here (cmp : Finding -> Finding -> Z) (x : Finding)
  (b : list Finding) :
  Forall (fun y => (cmp x y <= 0)%Z) b ->
  Console.insertBy cmp x b = x :: b.
Proof.
  intros H. destruct b as [|y b]; [reflexivity|]. simpl.
  inversion H as [|? ? Hy _]; subst. apply Z.leb_le in Hy. now rewrite Hy.
Qed.

Lemma Forall_ofSeverity (s : Severity) (P : Finding -> Prop)
  (l : list Finding) :
  (forall y, severity y = s -> P y) -> Forall P (Console.ofSeverity s l).
Proof.
  intros H. apply Forall_forall. intros y Hy.
  apply filter_In in Hy. destruct Hy as [_ Hy]. apply H.
  destruct (severity y), s; simpl in Hy; try discriminate; reflexivity.
Qed.

(** X7.  The console report lists the findings by severity, blockers
    first, then high, med, low and info, and within a severity in the
    order the engine returned them. *)
Theorem console_order (fs : list Finding) :
  Console.sorted fs
  = Console.ofSeverity blocker fs ++ Console.ofSeverity high fs
    ++ Console.ofSeverity med fs ++ Console.ofSeverity low fs
    ++ Console.ofSeverity info fs.
Proof.
  unfold Console.sorted, Console.sortBy.
  induction fs as [|x fs IH]; [reflexivity|].
  cbn [fold_right]. rewrite IH. clear IH.
  set (cmp := fun a b : Finding => (Console.rank a - Console.rank b)%Z).
  assert (Hlt : forall s y, severity y = s ->
            (Console.indexOfSeverity Console.ORDER s 0
             < Console.rank x)%Z -> (0 < cmp x y)%Z).
  { intros s y <- H. unfold cmp, Console.rank at 2. lia. }
  assert (Hge : forall s y, severity y = s ->
            (Console.rank x
             <= Console.indexOfSeverity Console.ORDER s 0)%Z ->
            (cmp x y <= 0)%Z).
  { intros s y <- H. unfold cmp, Console.rank at 2. lia. }
  unfold Console.ofSeverity at 6 7 8 9 10. cbn [filter].
  unfold Console.rank in Hlt, Hge.
  destruct (severity x) eqn:Ex; cbn [Severity_eqb].
  - rewrite insertBy_here; [reflexivity|].
    repeat (apply Forall_app; split); apply Forall_ofSeverity;
      intros y Hy; eapply Hge; eauto; vm_compute; discriminate.
  - rewrite insertBy_skip, insertBy_here; [reflexivity| |].
    + repeat (apply Forall_app; split); apply Forall_ofSeverity;
        intros y Hy; eapply Hge; eauto; vm_compute; discriminate.
    + apply Forall_ofSeverity; intros y Hy; eapply Hlt; eauto; reflexivity.
  - rewrite insertBy_skip, insertBy_skip, insertBy_here; [reflexivity| | |].
    + repeat (apply Forall_app; split); apply Forall_ofSeverity;
        intros y Hy; eapply Hge; eauto; vm_compute; discriminate.
    + apply Forall_ofSeverity; intros y Hy; eapply Hlt; eauto; reflexivity.
    + apply Forall_ofSeverity; intros y Hy; eapply Hlt; eauto; reflexivity.
  - rewrite insertBy_skip, insertBy_skip, insertBy_skip, insertBy_here;
      [reflexivity| | | |].
    + repeat (apply Forall_app; split); apply Forall_ofSeverity;
        intros y Hy; eapply Hge; eauto; vm_compute; discriminate.
    + apply Forall_ofSeverity; intros y Hy; eapply Hlt; eauto; reflexivity.
    + apply Forall_ofSeverity; intros y Hy; eapply Hlt; eauto; reflexivity.
    + apply Forall_ofSeverity; intros y Hy; eapply Hlt; eauto; reflexivity.
  - rewrite insertBy_skip, insertBy_skip, insertBy_skip, insertBy_skip,
      insertBy_here; [reflexivity| | | | |].
    + apply Forall_ofSeverity;
        intros y Hy; eapply Hge; eauto; vm_compute; discriminate.
    + apply Forall_ofSeverity; intros y Hy; eapply Hlt; eauto; reflexivity.
    + apply Forall_ofSeverity; intros y Hy; eapply Hlt; eauto; reflexivity.
    + apply Forall_ofSeverity; intros y Hy; eapply Hlt; eauto; reflexivity.
    + apply Forall_ofSeverity; intros y Hy; eapply Hlt; eauto; reflexivity.
Qed.

(* ---- SARIF ---- *)
Lemma startsWith_app (a b : text) : startsWith (a ++ b) a = true.
Proof.
  induction a as [|x a IH]; simpl; [now destruct b|].
  now rewrite N.eqb_refl, IH.
Qed.

Lemma startsWith_refl (a : text) : startsWith a a = true.
Proof. rewrite <- (app_nil_r a) at 1. apply startsWith_app. Qed.

Lemma slice_after_prefix (a : text) (c : N) (rest : text) :
  slice (a ++ c :: rest) (length a + 1) (length (a ++ c :: rest)) = rest.
Proof.
  unfold slice. rewrite length_app. simpl.
  replace (length a + 1) with (length (a ++ [c]))
    by (rewrite length_app; reflexivity).
  replace (a ++ c :: rest) with ((a ++ [c]) ++ rest)
    by (now rewrite <- app_assoc).
  rewrite skipn_app, skipn_all, Nat.sub_diag. simpl.
  rewrite length_app. simpl.
  replace (length a + S (length rest) - (length a + 1)) with (length rest)
    by lia.
  apply firstn_all.
Qed.

(** X8.  The SARIF document has one result per finding, in the findings'
    order: the result at a position has the rule id and the message of
    the finding at that position, and its uri is that finding's file
    without the root directory and the character after it when the file
    begins with the root directory, the file as it is otherwise, and
    empty when the file is the root directory itself, as it is for the
    finding of a crashed rule, which is rendered as a note at line 1,
    column 1. *)
Theorem sarif_results (fs : list Finding) (root : text) :
  Forall2 (fun f r =>
             Sarif.resultRuleId r = ruleId f
             /\ Sarif.resultText r = message f
             /\ (forall c rest, file f = root ++ c :: rest ->
                   Sarif.resultUri r = rest)
             /\ (file f = root -> Sarif.resultUri r = [])
             /\ (startsWith (file f) root = false ->
                   Sarif.resultUri r = file f))
          fs (Sarif.toSarif fs root)
  /\ (forall ctx rule failure,
        Sarif.toSarif [Engine.ruleCrashed ctx rule failure] (rootDir ctx)
        = [{| Sarif.resultRuleId := id rule;
              Sarif.resultLevel := Sarif.note;
              Sarif.resultText := str "Rule crashed: " ++ failure;
              Sarif.resultUri := [];
              Sarif.resultRegion := {| Sarif.startLine := 1;
                                       Sarif.startColumn := 1 |} |}]).
Proof.
  split.
  - induction fs as [|f fs IH]; cbn [Sarif.toSarif map]; constructor.
    + cbn [Sarif.resultRuleId Sarif.resultText Sarif.resultUri].
      split; [reflexivity|]. split; [reflexivity|]. split; [|split].
      * intros c rest E. rewrite E, startsWith_app.
        apply slice_after_prefix.
      * intros E. rewrite E, startsWith_refl. unfold slice.
        rewrite skipn_all2 by lia. now rewrite firstn_nil.
      * intros E. now rewrite E.
    + exact IH.
  - intros ctx rule failure. unfold Sarif.toSarif, Engine.ruleCrashed.
    cbn [map file ruleId message]. rewrite startsWith_refl.
    unfold slice. rewrite skipn_all2 by lia. rewrite firstn_nil.
    reflexivity.
Qed.

(** At two findings: one in a file under the root directory, the other
    the finding of a crashed rule. *)
Lemma sarif_results_witness :
  map Sarif.resultUri
      (Sarif.toSarif
         [Sample.finding;
          Engine.ruleCrashed Sample.typedContext Sample.brokenRule
            (str "boom")]
         (str "/repo"))
  = [str "app/api/users/route.ts"; []]
  /\ map Sarif.resultText
         (Sarif.toSarif
            [Sample.finding;
             Engine.ruleCrashed Sample.typedContext Sample.brokenRule
               (str "boom")]
            (str "/repo"))
     = [str "API route appears to lack an auth guard call.";
        str "Rule crashed: boom"].
Proof.
  pose proof (proj1 (sarif_results
                       [Sample.finding;
                        Engine.ruleCrashed Sample.typedContext
                          Sample.brokenRule (str "boom")]
                       (str "/repo"))) as H.
  assert (E : exists r1 r2,
             Sarif.toSarif
               [Sample.finding;
                Engine.ruleCrashed Sample.typedContext Sample.brokenRule
                  (str "boom")]
               (str "/repo") = [r1; r2])
    by (eexists; eexists; reflexivity).
  destruct E as (r1 & r2 & E). rewrite E in H |- *.
  inversion H as [|f1 r1' l1 l1' Hfirst Htail].
  inversion Htail as [|f2 r2' l2 l2' Hsecond _].
  destruct Hfirst as (_ & Ht1 & Hu1 & _).
  destruct Hsecond as (_ & Ht2 & _ & Hu2 & _).
  cbn [map]. split.
  - rewrite (Hu1 47%N (str "app/api/users/route.ts") eq_refl).
    now rewrite (Hu2 eq_refl).
  - now rewrite Ht1, Ht2.
Defined.

(* ================================================================== *)
(** ** More on the engine *)
(* ================================================================== *)

Lemma runCaught_findingsOf (ctx : RuleContext) (rule : Rule) :
  Engine.runCaught ctx rule = Props.findingsOf ctx rule.
Proof.
  unfold Engine.runCaught, Props.findingsOf.
  now destruct (run rule ctx) as [[findings|e]|e].
Qed.

Lemma after_nil (fs : Result (list Finding)) : Props.after [] fs = fs.
Proof. now destruct fs. Qed.

Lemma runLoop_flat (ctx : RuleContext) (rules : list Rule) :
  forall out,
    Engine.runLoop ctx rules out
    = Props.after out (Props.ruleFindings ctx rules).
Proof.
  unfold Props.ruleFindings.
  induction rules as [|r rules IH]; intros out;
    cbn [Engine.runLoop filter].
  - cbn. now rewrite app_nil_r.
  - destruct (Engine.applicable ctx r); [|apply IH].
    rewrite runCaught_findingsOf. cbn [Props.runEach].
    destruct (Props.findingsOf ctx r) as [findings|e];
      cbn [bind Monad_Result]; [|reflexivity].
    rewrite IH.
    destruct (Props.runEach ctx (filter (Engine.applicable ctx) rules));
      cbn [Props.after]; [|reflexivity].
    now rewrite app_assoc.
Qed.

Lemma stackIncludes_In (l : list StackName) (s : StackName) :
  Engine.stackIncludes l s = true <-> In s l.
Proof.
  unfold Engine.stackIncludes. rewrite existsb_exists. split.
  - intros (x & Hx & E). destruct s, x; simpl in E; try discriminate; exact Hx.
  - intros H. exists s. split; [exact H|]. now destruct s.
Qed.

Lemma runEach_returns (ctx : RuleContext) (rules : list Rule) :
  (forall r, In r rules -> exists fs, Props.findingsOf ctx r = Ok fs) ->
  exists out, Props.runEach ctx rules = Ok out.
Proof.
  induction rules as [|r rules IH]; intros H; cbn [Props.runEach].
  - now exists [].
  - destruct (H r (or_introl eq_refl)) as [fs ->].
    destruct IH as [more ->]; [intros r' Hr'; apply H; now right|].
    now eexists.
Qed.

Section EngineMore.

Variable toPosix : text -> text.

(** X9.  What the engine returns, and when it fails.  It returns the
    finding of a failed discovery, if the discovery failed, and then what
    the applicable rules give in the order of the rule list: a rule's
    findings, or the one finding of its crash when its promise is
    rejected; a rule that is not applicable gives nothing.  The rules run
    with the discovered signals stashed on the configuration, or with an
    empty stash when the discovery failed.  The engine fails, with
    nothing returned, at the first applicable rule whose call throws or
    whose rejection has no text, and when the failure of the discovery
    has no text; it returns when there is none of these. *)
Theorem runRules_in_rule_order (ctx : RuleContext) (rules : list Rule) :
  Engine.runRules toPosix ctx rules
  = match Discovery.discoverAuthGuards toPosix ctx with
    | Ok d => Props.ruleFindings (Engine.withStash ctx (Stashed d)) rules
    | Threw e =>
      match failureText e with
      | Ok failure =>
        Props.after [Engine.discoveryFailed ctx failure]
          (Props.ruleFindings (Engine.withStash ctx StashedEmpty) rules)
      | Threw raised => Threw raised
      end
    end
  /\ ((forall e, Discovery.discoverAuthGuards toPosix ctx = Threw e ->
                 exists failure, failureText e = Ok failure) ->
      (forall st r,
          In r rules -> Engine.applicable (Engine.withStash ctx st) r = true ->
          exists promise,
            run r (Engine.withStash ctx st) = Returned promise
            /\ forall e, promise = Threw e ->
                         exists failure, failureText e = Ok failure) ->
      exists out, Engine.runRules toPosix ctx rules = Ok out).
Proof.
  assert (Hform :
    Engine.runRules toPosix ctx rules
    = match Discovery.discoverAuthGuards toPosix ctx with
      | Ok d => Props.ruleFindings (Engine.withStash ctx (Stashed d)) rules
      | Threw e =>
        match failureText e with
        | Ok failure =>
          Props.after [Engine.discoveryFailed ctx failure]
            (Props.ruleFindings (Engine.withStash ctx StashedEmpty) rules)
        | Threw raised => Threw raised
        end
      end).
  { unfold Engine.runRules, Engine.prepass.
    destruct (Discovery.discoverAuthGuards toPosix ctx) as [d|e];
      cbn [bind ret catch Monad_Result Exc_Result fst snd].
    - now rewrite runLoop_flat, after_nil.
    - destruct (failureText e) as [failure|raised];
        cbn [bind ret Monad_Result fst snd]; [|reflexivity].
      apply runLoop_flat. }
  split; [exact Hform|].
  intros Hdisc Hrules. rewrite Hform.
  assert (Hall : forall st,
             exists out,
               Props.ruleFindings (Engine.withStash ctx st) rules = Ok out).
  { intros st. unfold Props.ruleFindings. apply runEach_returns.
    intros r Hr. apply filter_In in Hr as [Hin Happ].
    destruct (Hrules st r Hin Happ) as (promise & Hrun & Htext).
    unfold Props.findingsOf. rewrite Hrun.
    destruct promise as [fs|e]; [now eexists|].
    destruct (Htext e eq_refl) as [failure ->]. now eexists. }
  destruct (Discovery.discoverAuthGuards toPosix ctx) as [d|e].
  - apply Hall.
  - destruct (Hdisc e eq_refl) as [failure ->].
    destruct (Hall StashedEmpty) as [out ->]. now eexists.
Qed.

(** X10.  The registry selects the rules that list the stack itself: a rule
    is selected exactly when it is registered and lists the stack.  In a
    context of that stack the engine skips none of the selected rules: it
    returns what all of them give, one after the other.  A rule that lists
    only the wildcard is not selected for a stack other than the wildcard,
    though the engine would run it. *)
Theorem rulesForStack_all_run (ALL_RULES : list Rule) (ctx : RuleContext) :
  (forall r s, In r (Registry.rulesForStack ALL_RULES s)
               <-> In r ALL_RULES /\ In s (stack r))
  /\ (forall st out,
        Engine.runLoop (Engine.withStash ctx st)
          (Registry.rulesForStack ALL_RULES (repoStack ctx)) out
        = Props.after out
            (Props.runEach (Engine.withStash ctx st)
               (Registry.rulesForStack ALL_RULES (repoStack ctx))))
  /\ (forall r s, stack r = [auto] -> s <> auto ->
        ~ In r (Registry.rulesForStack ALL_RULES s)
        /\ Engine.applicable ctx r = true).
Proof.
  split; [|split].
  - intros r s. unfold Registry.rulesForStack.
    now rewrite filter_In, stackIncludes_In.
  - intros st out. rewrite runLoop_flat. unfold Props.ruleFindings.
    rewrite forallb_filter_id; [reflexivity|].
    apply forallb_forall. intros r Hr.
    unfold Registry.rulesForStack in Hr.
    apply filter_In in Hr. destruct Hr as [_ Hr].
    unfold Engine.applicable. cbn [repoStack Engine.withStash].
    rewrite Hr. now rewrite andb_false_r.
  - intros r s Hr Hs. split.
    + unfold Registry.rulesForStack. rewrite filter_In, stackIncludes_In, Hr.
      intros [_ [E|[]]]. congruence.
    + unfold Engine.applicable. rewrite Hr. reflexivity.
Qed.

End EngineMore.

(* ================================================================== *)
(** ** More on the discovery prepass *)
(* ================================================================== *)

Lemma Subsequence_refl (A : Type) (l : list A) : Props.Subsequence l l.
Proof. induction l; constructor; assumption. Qed.

Lemma Subsequence_trans (A : Type) (l2 l3 : list A) :
  Props.Subsequence l2 l3 ->
  forall l1, Props.Subsequence l1 l2 -> Props.Subsequence l1 l3.
Proof.
  induction 1 as [|x l2 l3 _ IH|x l2 l3 _ IH]; intros l1 H1.
  - exact H1.
  - inversion H1; subst; constructor; now apply IH.
  - constructor. now apply IH.
Qed.

Lemma Subsequence_filter (A : Type) (p : A -> bool) (l : list A) :
  Props.Subsequence (filter p l) l.
Proof.
  induction l as [|x l IH]; simpl; [constructor|].
  destruct (p x); constructor; exact IH.
Qed.

Lemma Subsequence_nil (A : Type) (l : list A) : Props.Subsequence [] l.
Proof. induction l; constructor; assumption. Qed.

Lemma setAddAll_grows (xs : list text) :
  forall s, exists t,
    Discovery.setAddAll s xs = s ++ t /\ Props.Subsequence t xs.
Proof.
  unfold Discovery.setAddAll.
  induction xs as [|x xs IH]; intros s; simpl.
  - exists []. split; [now rewrite app_nil_r|constructor].
  - destruct (IH (Discovery.setAdd s x)) as (t & Ht & Hsub).
    rewrite Ht. unfold Discovery.setAdd.
    destruct (Discovery.mem x s).
    + exists t. split; [reflexivity|now constructor].
    + exists (x :: t). split; [now rewrite <- app_assoc|now constructor].
Qed.

Lemma setAddAll_NoDup (xs : list text) :
  forall s, NoDup (s ++ xs) -> Discovery.setAddAll s xs = s ++ xs.
Proof.
  unfold Discovery.setAddAll.
  induction xs as [|x xs IH]; intros s H; simpl; [now rewrite app_nil_r|].
  assert (Hx : ~ In x s).
  { apply NoDup_remove_2 in H. intros Hin. apply H.
    apply in_or_app. now left. }
  unfold Discovery.setAdd.
  destruct (Discovery.mem x s) eqn:E; [apply mem_In in E; contradiction|].
  rewrite IH; rewrite <- app_assoc; [reflexivity|exact H].
Qed.

Lemma uniq_snoc (l : list text) (z : text) :
  Discovery.uniq (l ++ [z])
  = if Discovery.nonEmpty z then Discovery.setAdd (Discovery.uniq l) z
    else Discovery.uniq l.
Proof.
  unfold Discovery.uniq, Discovery.setAddAll. rewrite filter_app.
  cbn [filter]. destruct (Discovery.nonEmpty z).
  - now rewrite fold_left_app.
  - now rewrite app_nil_r.
Qed.

Lemma FirstIndex_lt (x : text) (l : list text) (p : nat) :
  Props.FirstIndex x l p -> p < length l.
Proof. intros [H _]. apply nth_error_Some. congruence. Qed.

Lemma FirstIndex_app (x : text) (l more : list text) (p : nat) :
  Props.FirstIndex x l p -> Props.FirstIndex x (l ++ more) p.
Proof.
  intros H. pose proof (FirstIndex_lt _ _ _ H) as Hp.
  destruct H as [Hat Hfirst]. split.
  - now rewrite nth_error_app1.
  - intros k Hk. rewrite nth_error_app1 by lia. now apply Hfirst.
Qed.

Lemma FirstIndex_new (x : text) (l : list text) :
  ~ In x l -> Props.FirstIndex x (l ++ [x]) (length l).
Proof.
  intros Hx. split.
  - rewrite nth_error_app2, Nat.sub_diag by lia. reflexivity.
  - intros k Hk E. rewrite nth_error_app1 in E by lia.
    apply Hx. eapply nth_error_In. exact E.
Qed.

Lemma In_FirstIndex (x : text) (l : list text) :
  In x l -> exists p, Props.FirstIndex x l p.
Proof.
  induction l as [|a l IH]; intros H; [destruct H|].
  destruct (list_eq_dec N.eq_dec a x) as [->|Hax].
  - exists 0. split; [reflexivity|]. intros k Hk. lia.
  - destruct H as [H|H]; [congruence|].
    destruct (IH H) as (p & Hat & Hfirst). exists (S p). split.
    + exact Hat.
    + intros [|k] Hk; cbn [nth_error]; [congruence|].
      apply Hfirst. lia.
Qed.

Lemma uniq_ordered (arr : list text) :
  forall i j x y,
    i < j ->
    nth_error (Discovery.uniq arr) i = Some x ->
    nth_error (Discovery.uniq arr) j = Some y ->
    exists p q,
      p < q /\ Props.FirstIndex x arr p /\ Props.FirstIndex y arr q.
Proof.
  induction arr as [|z l IH] using rev_ind; intros i j x y Hij Hx Hy.
  - destruct i; discriminate.
  - assert (Hold :
              nth_error (Discovery.uniq l) i = Some x ->
              nth_error (Discovery.uniq l) j = Some y ->
              exists p q,
                p < q /\ Props.FirstIndex x (l ++ [z]) p
                /\ Props.FirstIndex y (l ++ [z]) q).
    { intros Hx' Hy'. destruct (IH i j x y Hij Hx' Hy') as (p & q & H & Hp & Hq).
      exists p, q. split; [exact H|]. split; now apply FirstIndex_app. }
    rewrite uniq_snoc in Hx, Hy.
    destruct (Discovery.nonEmpty z) eqn:Hz; [|now apply Hold].
    unfold Discovery.setAdd in Hx, Hy.
    destruct (Discovery.mem z (Discovery.uniq l)) eqn:Hm; [now apply Hold|].
    assert (Hnew : ~ In z l).
    { intros Hin.
      assert (Hu : In z (Discovery.uniq l)) by (apply In_uniq; now split).
      apply mem_In in Hu. congruence. }
    destruct (Nat.lt_ge_cases j (length (Discovery.uniq l))) as [Hj|Hj].
    + rewrite nth_error_app1 in Hx, Hy by lia. now apply Hold.
    + rewrite nth_error_app2 in Hy by lia.
      destruct (j - length (Discovery.uniq l)) as [|d] eqn:Ed;
        [|destruct d; discriminate].
      injection Hy as <-.
      assert (Hi : i < length (Discovery.uniq l)) by lia.
      rewrite nth_error_app1 in Hx by lia.
      apply nth_error_In in Hx. apply In_uniq in Hx as [Hx _].
      destruct (In_FirstIndex _ _ Hx) as (p & Hp).
      exists p, (length l).
      split; [now apply (FirstIndex_lt x l)|].
      split; [now apply FirstIndex_app|now apply FirstIndex_new].
Qed.

(** X11.  [uniq] keeps the first occurrence of every non-empty string and
    nothing else, in the order of the first occurrences: its result has
    no duplicate and no empty string, has the non-empty members of its
    argument, and lists them as their first occurrences follow one
    another in the argument; so it is a subsequence of the argument, and
    is left as it is by [uniq]. *)
Theorem uniq_first_occurrences (arr : list text) :
  NoDup (Discovery.uniq arr)
  /\ (forall x, In x (Discovery.uniq arr) <-> In x arr /\ x <> [])
  /\ (forall i j x y,
        i < j ->
        nth_error (Discovery.uniq arr) i = Some x ->
        nth_error (Discovery.uniq arr) j = Some y ->
        exists p q,
          p < q /\ Props.FirstIndex x arr p /\ Props.FirstIndex y arr q)
  /\ Props.Subsequence (Discovery.uniq arr) arr
  /\ Discovery.uniq (Discovery.uniq arr) = Discovery.uniq arr.
Proof.
  assert (Hne : forall x, Discovery.nonEmpty x = true <-> x <> [])
    by (intros [|c x]; simpl; split; congruence).
  split; [apply NoDup_uniq|]. split; [|split; [|split]].
  - intros x. now rewrite In_uniq, Hne.
  - apply uniq_ordered.
  - unfold Discovery.uniq.
    destruct (setAddAll_grows (filter Discovery.nonEmpty arr) [])
      as (t & -> & Hsub).
    simpl. eapply Subsequence_trans; [apply Subsequence_filter|exact Hsub].
  - unfold Discovery.uniq at 1.
    assert (Hf : filter Discovery.nonEmpty (Discovery.uniq arr)
                 = Discovery.uniq arr).
    { apply forallb_filter_id. apply forallb_forall.
      intros x Hx. now apply In_uniq in Hx. }
    rewrite Hf. apply (setAddAll_NoDup (Discovery.uniq arr) []).
    apply NoDup_uniq.
Qed.

Lemma dropSpaces_nil (s : text) :
  dropSpaces s = [] <-> forallb isSpace s = true.
Proof.
  induction s as [|c s IH]; simpl; [tauto|].
  destruct (isSpace c); simpl; [exact IH|].
  split; discriminate.
Qed.

Lemma dropSpaces_head (s : text) :
  match dropSpaces s with
  | [] => True
  | c :: _ => isSpace c = false
  end.
Proof.
  induction s as [|c s IH]; simpl; [exact I|].
  destruct (isSpace c) eqn:E; [exact IH|exact E].
Qed.

Lemma forallb_rev (A : Type) (p : A -> bool) (l : list A) :
  forallb p (rev l) = forallb p l.
Proof.
  induction l as [|x l IH]; simpl; [reflexivity|].
  rewrite forallb_app, IH. simpl. rewrite andb_true_r. apply andb_comm.
Qed.

Lemma trim_nil (p : text) : trim p = [] <-> Props.blank p = true.
Proof.
  unfold trim, Props.blank. split.
  - intros H. apply (f_equal (@rev N)) in H.
    rewrite rev_involutive in H. simpl in H.
    apply dropSpaces_nil in H. rewrite forallb_rev in H.
    pose proof (dropSpaces_head p) as Hh.
    destruct (dropSpaces p) as [|c r] eqn:E.
    + now apply dropSpaces_nil.
    + simpl in H. rewrite Hh in H. discriminate.
  - intros H. apply dropSpaces_nil in H. rewrite H. reflexivity.
Qed.

Lemma normalizeApiPath_cases (p : text) :
  (Props.blank p = true /\ Discovery.normalizeApiPath p = [])
  \/ (Props.blank p = false
      /\ exists r, Discovery.normalizeApiPath p = 47%N :: r).
Proof.
  unfold Discovery.normalizeApiPath. cbv zeta.
  pose proof (trim_nil p) as Hb.
  destruct (trim p) as [|c s] eqn:Et.
  - left. split; [now apply Hb|reflexivity].
  - right. split.
    { destruct (Props.blank p); [|reflexivity].
      destruct Hb as [_ Hb]. now specialize (Hb eq_refl). }
    cbn [Discovery.nonEmpty negb].
    assert (Hs : exists r, (if negb (startsWith (c :: s) (str "/"))
                            then str "/" ++ c :: s else c :: s)
                           = 47%N :: r).
    { destruct (startsWith (c :: s) (str "/")) eqn:E; cbn [negb].
      - exists s. change (str "/") with [47%N] in E. cbn [startsWith] in E.
        apply andb_prop in E as [E _]. apply N.eqb_eq in E. now subst.
      - exists (c :: s). reflexivity. }
    destruct Hs as (r & ->).
    destruct r as [|d r].
    + exists []. reflexivity.
    + destruct ((1 <? length (47%N :: d :: r))
                && endsWith (47%N :: d :: r) (str "/")).
      * exists (removelast (d :: r)). reflexivity.
      * exists (d :: r). reflexivity.
Qed.

Lemma normalizeApiPath_rooted (p : text) :
  Discovery.nonEmpty (Discovery.normalizeApiPath p) = true ->
  Props.slashFirst (Discovery.normalizeApiPath p) = true.
Proof.
  destruct (normalizeApiPath_cases p) as [[_ ->]|[_ [r ->]]].
  - discriminate.
  - intros _. destruct r; reflexivity.
Qed.

(** X12.  [normalizeApiPath] gives the empty string exactly for a blank
    path, and a path that begins with a slash for every other. *)
Theorem normalizeApiPath_leading_slash (p : text) :
  Discovery.nonEmpty (Discovery.normalizeApiPath p) = negb (Props.blank p)
  /\ Props.slashFirst (Discovery.normalizeApiPath p) = negb (Props.blank p).
Proof.
  destruct (normalizeApiPath_cases p) as [[-> ->]|[-> [r ->]]].
  - split; reflexivity.
  - split; [reflexivity|destruct r; reflexivity].
Qed.

Lemma uniq_rooted (A B : list text) :
  Forall (fun p => Props.slashFirst p = true) A ->
  Forall (fun p => Props.slashFirst p = true)
         (Discovery.uniq (A ++ map Discovery.normalizeApiPath B)).
Proof.
  intros HA. apply Forall_forall. intros x Hx.
  apply In_uniq in Hx as [Hx Hne].
  apply in_app_or in Hx as [Hx|Hx].
  - rewrite Forall_forall in HA. now apply HA.
  - apply in_map_iff in Hx as (y & <- & _).
    now apply normalizeApiPath_rooted.
Qed.

Lemma uniq_nonEmpty (arr : list text) :
  Forall (fun g => g <> []) (Discovery.uniq arr).
Proof.
  apply Forall_forall. intros x Hx. apply In_uniq in Hx as [_ Hne].
  now destruct x.
Qed.

Lemma fold_left_invariant (A B : Type) (P : A -> Prop) (f : A -> B -> A)
  (l : list B) :
  (forall a x, In x l -> P a -> P (f a x)) ->
  forall a, P a -> P (fold_left f l a).
Proof.
  induction l as [|x l IH]; intros Hf a Ha; simpl; [exact Ha|].
  apply IH.
  - intros a' y Hy. apply Hf. now right.
  - apply Hf; [now left|exact Ha].
Qed.

Lemma addDeclared_NoDup (gs : list text) (name : text) :
  NoDup gs -> NoDup (Discovery.addDeclared gs name).
Proof.
  intros H. unfold Discovery.addDeclared. cbv zeta.
  destruct (Discovery.mem name Discovery.COMMON_GUARDS);
    destruct (_ || _); repeat apply NoDup_setAdd; exact H.
Qed.

Lemma addDeclared_In (gs : list text) (name y : text) :
  In y (Discovery.addDeclared gs name) ->
  In y gs
  \/ (y = name
      /\ (In name Discovery.COMMON_GUARDS \/ Props.guardLike name = true)).
Proof.
  unfold Discovery.addDeclared. cbv zeta. fold (Props.guardLike name).
  destruct (Discovery.mem name Discovery.COMMON_GUARDS) eqn:Em;
    destruct (Props.guardLike name) eqn:Eg; intros H;
    repeat (apply In_setAdd in H as [H| ->]);
    try (left; assumption);
    right; (split; [reflexivity|]);
    first [left; now apply mem_In | right; assumption | right; reflexivity].
Qed.

Lemma addDeclared_keeps (gs : list text) (name y : text) :
  In y gs -> In y (Discovery.addDeclared gs name).
Proof.
  intros H. unfold Discovery.addDeclared. cbv zeta.
  destruct (Discovery.mem name Discovery.COMMON_GUARDS);
    destruct (_ || _); repeat (apply In_setAdd; left); exact H.
Qed.

Lemma fold_mentioned (code : text) (L : list text) :
  forall gs g,
    In g gs \/ (In g L /\ includes code g = true) ->
    In g (fold_left (fun gs g => if includes code g
                                 then Discovery.setAdd gs g else gs) L gs).
Proof.
  induction L as [|x L IH]; intros gs g H; simpl.
  - destruct H as [H|[[] _]]. exact H.
  - apply IH. destruct H as [H|[[->|H] Hg]].
    + left. destruct (includes code x); [apply In_setAdd; now left|exact H].
    + left. rewrite Hg. apply In_setAdd. now right.
    + right. now split.
Qed.

(** X13.  The guard names [discoverAuthGuardsFromCode] finds in a file are
    distinct; each is a catalogue name or begins with [require] or [with]
    (in any case of letters); and every catalogue name that occurs
    anywhere in the text of the file is among them. *)
Theorem guards_from_code (code : text) :
  let found := Discovery.discoverAuthGuardsFromCode code in
  NoDup found
  /\ (forall name, In name found ->
       In name Discovery.COMMON_GUARDS \/ Props.guardLike name = true)
  /\ (forall g, In g Discovery.COMMON_GUARDS ->
       includes code g = true -> In g found).
Proof.
  unfold Discovery.discoverAuthGuardsFromCode. cbv zeta.
  split; [|split].
  - apply fold_left_invariant.
    { intros a x _ Ha. destruct (includes code x);
        [now apply NoDup_setAdd|exact Ha]. }
    apply fold_left_invariant.
    { intros a x _ Ha. now apply addDeclared_NoDup. }
    apply fold_left_invariant.
    { intros a x _ Ha. now apply addDeclared_NoDup. }
    constructor.
  - intros name.
    apply (fold_left_invariant _ _
             (fun gs => In name gs ->
                        In name Discovery.COMMON_GUARDS
                        \/ Props.guardLike name = true)).
    { intros a x Hx Ha H. destruct (includes code x); [|now apply Ha].
      apply In_setAdd in H as [H| ->]; [now apply Ha|now left]. }
    apply (fold_left_invariant _ _
             (fun gs => In name gs ->
                        In name Discovery.COMMON_GUARDS
                        \/ Props.guardLike name = true)).
    { intros a x _ Ha H.
      apply addDeclared_In in H as [H|[-> H]]; [now apply Ha|exact H]. }
    apply (fold_left_invariant _ _
             (fun gs => In name gs ->
                        In name Discovery.COMMON_GUARDS
                        \/ Props.guardLike name = true)).
    { intros a x _ Ha H.
      apply addDeclared_In in H as [H|[-> H]]; [now apply Ha|exact H]. }
    intros [].
  - intros g Hg Hin. apply fold_mentioned. right. now split.
Qed.

Lemma startsWith_prefix (a b : text) :
  forall s, startsWith s (a ++ b) = true -> startsWith s a = true.
Proof.
  induction a as [|x a IH]; intros s H; [now destruct s|].
  destruct s as [|c s]; simpl in *; [discriminate|].
  apply andb_prop in H as [-> H]. now rewrite (IH _ H).
Qed.

Lemma findFrom_None (needle rest : text) :
  forall k, findFrom needle rest k = None ->
            forall d, startsWith (skipn d rest) needle = false.
Proof.
  induction rest as [|c rest IH]; intros k H d.
  - cbn [findFrom] in H. rewrite skipn_nil.
    destruct (startsWith [] needle); [discriminate|reflexivity].
  - cbn [findFrom] in H.
    destruct (startsWith (c :: rest) needle) eqn:E; [discriminate|].
    destruct d as [|d]; [exact E|].
    cbn [skipn]. now apply (IH (S k)).
Qed.

Lemma includes_prefix (s a b : text) :
  includes s (a ++ b) = true -> includes s a = true.
Proof.
  unfold includes, indexOf. cbn [skipn].
  destruct (findFrom (a ++ b) s _) as [pos|] eqn:E; [intros _|discriminate].
  apply findFrom_Some in E as (d & _ & _ & Hd & _).
  apply startsWith_prefix in Hd.
  destruct (findFrom a s _) eqn:Ea; [reflexivity|].
  rewrite (findFrom_None _ _ _ Ea d) in Hd. discriminate.
Qed.

(** X14.  Proxy prefixes are inferred only for a path that has the segment
    [/app/api/] with its leading slash: for any other path, such as one
    relative to a root that holds [app/] itself, nothing is inferred. *)
Theorem inferred_prefix_needs_slash_app_api (posixPath : text) :
  includes posixPath (str "/app/api/") = false ->
  Discovery.inferProxyPrefixesFromPath posixPath = [].
Proof.
  intros H.
  assert (Hno : forall rest,
             includes posixPath (str "/app/api/" ++ rest) = false).
  { intros rest. destruct (includes posixPath (str "/app/api/" ++ rest)) eqn:E;
      [|reflexivity].
    apply includes_prefix in E. congruence. }
  unfold Discovery.inferProxyPrefixesFromPath. cbv zeta.
  assert (E1 : includes posixPath (str "/app/api/embed-proxy/") = false)
    by exact (Hno (str "embed-proxy/")).
  assert (E2 : includes posixPath (str "/app/api/og/") = false)
    by exact (Hno (str "og/")).
  assert (E3 : includes posixPath (str "/app/api/stripe/webhook/") = false)
    by exact (Hno (str "stripe/webhook/")).
  assert (E4 : includes posixPath (str "/app/api/health/") = false)
    by exact (Hno (str "health/")).
  assert (E5 : includes posixPath (str "/app/api/_debug/") = false)
    by exact (Hno (str "_debug/")).
  rewrite E1, E2, E3, E4, E5. reflexivity.
Qed.

Lemma inferred_prefix_needs_slash_app_api_witness :
  Discovery.inferProxyPrefixesFromPath (str "app/api/og/route.ts") = [].
Proof.
  apply inferred_prefix_needs_slash_app_api. vm_compute. reflexivity.
Defined.

Section DiscoveryMore.

Variable toPosix : text -> text.

Lemma scanFiles_frame (ctx1 ctx2 : RuleContext) :
  relPaths ctx1 = relPaths ctx2 ->
  forall rest,
    (forall abs, In abs rest -> readFile ctx1 abs = readFile ctx2 abs) ->
    forall i acc,
      Discovery.scanFiles toPosix ctx1 rest i acc
      = Discovery.scanFiles toPosix ctx2 rest i acc.
Proof.
  intros Hrel rest. induction rest as [|abs rest IH]; intros Hread i acc.
  - reflexivity.
  - cbn [Discovery.scanFiles]. rewrite Hrel.
    assert (IH' := IH (fun a Ha => Hread a (or_intror Ha))).
    rewrite (Hread abs (or_introl eq_refl)).
    rewrite !IH'.
    destruct (negb (Discovery.hasScriptExtension _)); [reflexivity|].
    destruct (negb (Discovery.shouldScanFileForGuards _ _)); [reflexivity|].
    destruct (readFile ctx2 abs) as [code|e]; [|reflexivity].
    cbn. destruct (negb (Discovery.nonEmpty code));
      first [reflexivity | apply IH'].
Qed.

(** X15.  The prepass reads the file list, the relative paths, the text of
    the listed files and [config.auth], and nothing else: two contexts
    that agree on these get the same answer, whatever their other
    settings, the list [authGuards] among them. *)
Theorem discovery_reads_files_and_auth (ctx1 ctx2 : RuleContext) :
  files ctx1 = files ctx2 ->
  relPaths ctx1 = relPaths ctx2 ->
  auth (config ctx1) = auth (config ctx2) ->
  (forall abs, In abs (files ctx1) ->
               readFile ctx1 abs = readFile ctx2 abs) ->
  Discovery.discoverAuthGuards toPosix ctx1
  = Discovery.discoverAuthGuards toPosix ctx2.
Proof.
  intros Hfiles Hrel Hauth Hread.
  unfold Discovery.discoverAuthGuards. cbv zeta.
  rewrite (scanFiles_frame ctx1 ctx2 Hrel (files ctx1) Hread).
  rewrite Hfiles.
  destruct (Discovery.scanFiles toPosix ctx2 (files ctx2) 0 _) as [acc|e];
    [|reflexivity].
  cbn. unfold Discovery.mergeWithUserConfig, Discovery.cfgAuthObject.
  rewrite Hauth. reflexivity.
Qed.

(** X16.  What the prepass returns is well formed: no guard name is empty,
    every public or proxy path begins with a slash, and no list has a
    duplicate. *)
Theorem discovered_lists_wellformed (ctx : RuleContext) :
  match Discovery.discoverAuthGuards toPosix ctx with
  | Ok d =>
    (NoDup (guards d) /\ Forall (fun g => g <> []) (guards d))
    /\ (NoDup (publicApiExact d)
        /\ Forall (fun p => Props.slashFirst p = true) (publicApiExact d))
    /\ (NoDup (publicApiPrefix d)
        /\ Forall (fun p => Props.slashFirst p = true) (publicApiPrefix d))
    /\ (NoDup (proxyApiPrefix d)
        /\ Forall (fun p => Props.slashFirst p = true) (proxyApiPrefix d))
  | Threw _ => True
  end.
Proof.
  unfold Discovery.discoverAuthGuards. cbv zeta.
  destruct (Discovery.scanFiles toPosix ctx (files ctx) 0 _) as [acc|e];
    [|exact I].
  cbn. unfold Discovery.mergeWithUserConfig. cbv zeta.
  cbn [guards publicApiExact publicApiPrefix proxyApiPrefix].
  assert (Hroot : forall l,
             Forall (fun p => Props.slashFirst p = true)
                    (Discovery.uniq (map Discovery.normalizeApiPath l))).
  { intros l. rewrite <- (app_nil_l (map _ l)).
    apply uniq_rooted. constructor. }
  repeat split; try apply NoDup_uniq; try apply uniq_nonEmpty;
    apply uniq_rooted; apply Hroot.
Qed.

End DiscoveryMore.

Lemma discovery_reads_files_and_auth_witness :
  Discovery.discoverAuthGuards Sample.posix Sample.routeContext
  = Discovery.discoverAuthGuards Sample.posix
      (Props.withAuthGuards Sample.routeContext [str "checkSession"]).
Proof.
  apply discovery_reads_files_and_auth.
  - reflexivity.
  - reflexivity.
  - reflexivity.
  - intros abs _. reflexivity.
Defined.

(* ================================================================== *)
(** ** The Next.js route rules *)
(* ================================================================== *)

Lemma located_start (f : Finding) (code : text) :
  Shared.located f code 0
  = {| ruleId := ruleId f; severity := severity f; message := message f;
       file := file f; line := Some 1; col := Some 0;
       fixHint := fixHint f |}.
Proof. reflexivity. Qed.

Lemma severityFor_cases (d : DiscoveredAuth) (routePath : text) :
  NextRules.severityFor d routePath = high
  \/ NextRules.severityFor d routePath = info.
Proof.
  unfold NextRules.severityFor. destruct (_ || _); [now right|now left].
Qed.

Lemma slashes_plain (s : text) :
  ~ In Ch.BACKSLASH s -> NextRules.slashes s = s.
Proof.
  induction s as [|c s IH]; intros H; [reflexivity|].
  cbn [NextRules.slashes map].
  destruct (c =? Ch.BACKSLASH)%N eqn:E.
  - apply N.eqb_eq in E. subst. exfalso. apply H. now left.
  - f_equal. apply IH. intros Hin. apply H. now right.
Qed.

Lemma dynamicSegments_prefix (a rest : text) :
  ~ In Ch.LBRACKET a ->
  NextRules.dynamicSegments false (a ++ rest)
  = a ++ NextRules.dynamicSegments false rest.
Proof.
  induction a as [|c a IH]; intros H; [reflexivity|].
  cbn [app NextRules.dynamicSegments].
  destruct (c =? Ch.LBRACKET)%N eqn:E.
  - apply N.eqb_eq in E. subst. exfalso. apply H. now left.
  - cbn [andb]. f_equal. apply IH. intros Hin. apply H. now right.
Qed.

Lemma dynamicSegments_plain (s : text) :
  ~ In Ch.LBRACKET s -> NextRules.dynamicSegments false s = s.
Proof.
  intros H. rewrite <- (app_nil_r s) at 1.
  rewrite dynamicSegments_prefix by exact H. apply app_nil_r.
Qed.

Lemma takeWhile_notClosing (name rest : text) :
  ~ In Ch.RBRACKET name ->
  Discovery.takeWhile NextRules.notClosing (name ++ Ch.RBRACKET :: rest)
  = name.
Proof.
  induction name as [|c name IH]; intros H; [reflexivity|].
  cbn [app Discovery.takeWhile]. unfold NextRules.notClosing at 1.
  destruct (c =? Ch.RBRACKET)%N eqn:E.
  - apply N.eqb_eq in E. subst. exfalso. apply H. now left.
  - cbn [negb]. f_equal. apply IH. intros Hin. apply H. now right.
Qed.

Lemma dynamicSegments_inside (name rest : text) :
  ~ In Ch.RBRACKET name ->
  NextRules.dynamicSegments true (name ++ Ch.RBRACKET :: rest)
  = name ++ NextRules.dynamicSegments false rest.
Proof.
  induction name as [|c name IH]; intros H.
  - reflexivity.
  - cbn [app NextRules.dynamicSegments].
    destruct (c =? Ch.RBRACKET)%N eqn:E.
    + apply N.eqb_eq in E. subst. exfalso. apply H. now left.
    + f_equal. apply IH. intros Hin. apply H. now right.
Qed.

Lemma dynamicSegments_segment (name rest : text) :
  name <> [] -> ~ In Ch.RBRACKET name ->
  NextRules.dynamicSegments false
    (Ch.LBRACKET :: name ++ Ch.RBRACKET :: rest)
  = Ch.COLON :: name ++ NextRules.dynamicSegments false rest.
Proof.
  intros Hne Hname. cbn [NextRules.dynamicSegments].
  assert (Hc : NextRules.closes (name ++ Ch.RBRACKET :: rest) = true).
  { unfold NextRules.closes, Discovery.capture1.
    rewrite takeWhile_notClosing by exact Hname.
    destruct name as [|c name]; [congruence|].
    cbn [Discovery.nonEmpty].
    rewrite skipn_app, skipn_all, Nat.sub_diag.
    cbn [app skipn startsWith]. rewrite N.eqb_refl. now destruct rest. }
  rewrite Hc, N.eqb_refl. cbn [andb].
  f_equal. now apply dynamicSegments_inside.
Qed.

Lemma endsWith_app (s lit : text) : endsWith (s ++ lit) lit = true.
Proof. unfold endsWith. rewrite rev_app_distr. apply startsWith_app. Qed.

Lemma dropLast_app (s lit : text) :
  NextRules.dropLast (length lit) (s ++ lit) = s.
Proof.
  unfold NextRules.dropLast. rewrite length_app.
  replace (length s + length lit - length lit) with (length s) by lia.
  rewrite firstn_app, Nat.sub_diag, firstn_all. cbn [firstn].
  apply app_nil_r.
Qed.

Lemma stripRouteFile_route (seg ext : text) :
  In ext [str "ts"; str "tsx"; str "js"; str "jsx"] ->
  NextRules.stripRouteFile (seg ++ str "/route." ++ ext) = seg.
Proof.
  assert (Hno : forall lit1 lit2 : text,
             startsWith (rev lit1 ++ rev seg) (rev lit2) = false ->
             endsWith (seg ++ lit1) lit2 = false).
  { intros lit1 lit2 H. unfold endsWith. now rewrite rev_app_distr. }
  intros Hext. unfold NextRules.stripRouteFile.
  cbn [In] in Hext. destruct Hext as [<-|[<-|[<-|[<-|[]]]]].
  - change (str "/route." ++ str "ts") with (str "/route.ts").
    rewrite endsWith_app. apply dropLast_app.
  - change (str "/route." ++ str "tsx") with (str "/route.tsx").
    rewrite (Hno (str "/route.tsx") (str "/route.ts")) by reflexivity.
    rewrite endsWith_app. apply dropLast_app.
  - change (str "/route." ++ str "js") with (str "/route.js").
    rewrite (Hno (str "/route.js") (str "/route.ts")) by reflexivity.
    rewrite (Hno (str "/route.js") (str "/route.tsx")) by reflexivity.
    rewrite endsWith_app. apply dropLast_app.
  - change (str "/route." ++ str "jsx") with (str "/route.jsx").
    rewrite (Hno (str "/route.jsx") (str "/route.ts")) by reflexivity.
    rewrite (Hno (str "/route.jsx") (str "/route.tsx")) by reflexivity.
    rewrite (Hno (str "/route.jsx") (str "/route.js")) by reflexivity.
    rewrite endsWith_app. apply dropLast_app.
Qed.

Lemma toRoutePath_under_app_api (rest : text) :
  ~ In Ch.BACKSLASH rest ->
  NextRules.toRoutePathFromRelPath (str "app/api/" ++ rest)
  = str "/api/"
    ++ NextRules.dynamicSegments false (NextRules.stripRouteFile rest).
Proof.
  intros H. unfold NextRules.toRoutePathFromRelPath. cbv zeta.
  assert (Hs : NextRules.slashes (str "app/api/" ++ rest)
               = str "app/api/" ++ rest).
  { unfold NextRules.slashes. rewrite map_app.
    fold (NextRules.slashes rest). rewrite (slashes_plain _ H).
    reflexivity. }
  rewrite Hs. unfold indexOf. cbn [skipn].
  destruct (str "app/api/" ++ rest) as [|c r] eqn:E; [discriminate|].
  cbn [findFrom]. rewrite <- E. rewrite startsWith_app.
  cbn [Nat.min Nat.add].
  change (length (str "app/api/")) with (length (str "app/api/") + 0).
  rewrite skipn_app, skipn_all2 by lia.
  replace (length (str "app/api/") + 0 - length (str "app/api/")) with 0
    by lia.
  reflexivity.
Qed.

Lemma not_in_literal (c : N) (lit : text) :
  forallb (fun x => negb (x =? c)%N) lit = true -> ~ In c lit.
Proof.
  intros H Hin. rewrite forallb_forall in H. specialize (H c Hin).
  rewrite N.eqb_refl in H. discriminate.
Qed.

Lemma not_in_route_file (c : N) (ext : text) :
  forallb (fun x => negb (x =? c)%N) (str "/route.tsxj") = true ->
  In ext [str "ts"; str "tsx"; str "js"; str "jsx"] ->
  ~ In c (str "/route." ++ ext).
Proof.
  intros H Hext. apply not_in_literal.
  rewrite forallb_forall in H. apply forallb_forall. intros x Hx.
  apply H. cbn [In] in Hext.
  destruct Hext as [<-|[<-|[<-|[<-|[]]]]]; vm_compute in Hx |- *; tauto.
Qed.

(** X17.  The route path of a route file under [app/api/]: for a path
    [app/api/<seg>/route.<ext>] with one of the extensions [ts], [tsx],
    [js], [jsx] and no backslash or bracket in [<seg>], it is
    [/api/<seg>]. *)
Theorem route_path_of_route_file (seg ext : text) :
  ~ In Ch.BACKSLASH seg -> ~ In Ch.LBRACKET seg ->
  In ext [str "ts"; str "tsx"; str "js"; str "jsx"] ->
  NextRules.toRoutePathFromRelPath
    (str "app/api/" ++ seg ++ str "/route." ++ ext)
  = str "/api/" ++ seg.
Proof.
  intros Hb Hl Hext.
  rewrite toRoutePath_under_app_api.
  - rewrite (stripRouteFile_route seg ext Hext).
    now rewrite dynamicSegments_plain.
  - intros Hin. apply in_app_or in Hin as [Hin|Hin]; [now apply Hb|].
    revert Hin. now apply not_in_route_file.
Qed.

Lemma route_path_of_route_file_witness :
  NextRules.toRoutePathFromRelPath
    (str "app/api/" ++ str "health" ++ str "/route." ++ str "ts")
  = str "/api/" ++ str "health".
Proof.
  apply route_path_of_route_file.
  - apply not_in_literal. vm_compute. reflexivity.
  - apply not_in_literal. vm_compute. reflexivity.
  - vm_compute. tauto.
Defined.

(** X18.  A dynamic segment [[name]] of a route becomes [:name]: for a path
    [app/api/<a>[<name>]<b>/route.<ext>] with no backslash, no opening
    bracket in [<a>] and [<b>], and a non-empty [<name>] without a closing
    bracket, the route path is [/api/<a>:<name><b>]. *)
Theorem dynamic_segment_becomes_parameter (a name b ext : text) :
  ~ In Ch.BACKSLASH (a ++ name ++ b) ->
  ~ In Ch.LBRACKET (a ++ b) ->
  name <> [] -> ~ In Ch.RBRACKET name ->
  In ext [str "ts"; str "tsx"; str "js"; str "jsx"] ->
  NextRules.toRoutePathFromRelPath
    (str "app/api/"
     ++ (a ++ Ch.LBRACKET :: name ++ Ch.RBRACKET :: b)
     ++ str "/route." ++ ext)
  = str "/api/" ++ a ++ Ch.COLON :: name ++ b.
Proof.
  intros Hb Hl Hne Hname Hext.
  rewrite toRoutePath_under_app_api.
  - rewrite (stripRouteFile_route _ ext Hext).
    rewrite dynamicSegments_prefix
      by (intros Hin; apply Hl; apply in_or_app; now left).
    rewrite dynamicSegments_segment by assumption.
    rewrite dynamicSegments_plain
      by (intros Hin; apply Hl; apply in_or_app; now right).
    reflexivity.
  - intros Hin. apply in_app_or in Hin as [Hin|Hin].
    + apply Hb.
      apply in_app_or in Hin as [Hin|Hin]; [apply in_or_app; now left|].
      destruct Hin as [Hin|Hin]; [discriminate|].
      apply in_app_or in Hin as [Hin|Hin].
      * apply in_or_app. right. apply in_or_app. now left.
      * destruct Hin as [Hin|Hin]; [discriminate|].
        apply in_or_app. right. apply in_or_app. now right.
    + revert Hin. now apply not_in_route_file.
Qed.

Lemma dynamic_segment_becomes_parameter_witness :
  NextRules.toRoutePathFromRelPath
    (str "app/api/"
     ++ (str "users/" ++ Ch.LBRACKET :: str "id" ++ Ch.RBRACKET :: str "/posts")
     ++ str "/route." ++ str "ts")
  = str "/api/" ++ str "users/" ++ Ch.COLON :: str "id" ++ str "/posts".
Proof.
  apply dynamic_segment_becomes_parameter.
  - apply not_in_literal. vm_compute. reflexivity.
  - apply not_in_literal. vm_compute. reflexivity.
  - vm_compute. discriminate.
  - apply not_in_literal. vm_compute. reflexivity.
  - vm_compute. tauto.
Defined.

Section NextRuleFacts.

Variable toPosix : text -> text.

Lemma apiAuthGuardLoop_outcome (ctx : RuleContext) (rest : list text) :
  forall out,
    match NextRules.apiAuthGuardLoop toPosix ctx rest out with
    | Ok fs =>
      exists added,
        fs = out ++ added
        /\ map file added = filter (Props.unguardedRoute toPosix ctx) rest
        /\ Forall (fun f =>
                     exists code,
                       f = NextRules.unguarded
                             (NextRules.guardsOf (config ctx))
                             (NextRules.discovered (config ctx))
                             (NextRules.toRoutePathFromRelPath
                                (NextRules.rel toPosix ctx (file f)))
                             (file f) code) added
    | Threw e =>
      exists abs,
        In abs rest
        /\ NextRules.isNextApiRoute toPosix (NextRules.rel toPosix ctx abs)
           = true
        /\ readFile ctx abs = Threw e
    end.
Proof.
  induction rest as [|abs rest IH]; intros out.
  - cbn. exists []. rewrite app_nil_r. repeat split. constructor.
  - cbn [NextRules.apiAuthGuardLoop filter]. unfold Props.unguardedRoute at 1.
    destruct (NextRules.isNextApiRoute toPosix _) eqn:Eroute; cbn [negb andb].
    2: { specialize (IH out).
         destruct (NextRules.apiAuthGuardLoop toPosix ctx rest out);
           [exact IH|].
         destruct IH as (a & Ha & Hr). exists a. split; [now right|exact Hr]. }
    destruct (readFile ctx abs) as [code|e] eqn:Eread;
      cbn [bind Monad_Result].
    2: { exists abs. split; [now left|split; assumption]. }
    assert (Hskip :
              match NextRules.apiAuthGuardLoop toPosix ctx rest out with
              | Ok fs =>
                exists added,
                  fs = out ++ added
                  /\ map file added
                     = filter (Props.unguardedRoute toPosix ctx) rest
                  /\ Forall (fun f =>
                     exists code,
                       f = NextRules.unguarded
                             (NextRules.guardsOf (config ctx))
                             (NextRules.discovered (config ctx))
                             (NextRules.toRoutePathFromRelPath
                                (NextRules.rel toPosix ctx (file f)))
                             (file f) code) added
              | Threw e =>
                exists abs0,
                  In abs0 (abs :: rest)
                  /\ NextRules.isNextApiRoute toPosix
                       (NextRules.rel toPosix ctx abs0) = true
                  /\ readFile ctx abs0 = Threw e
              end).
    { specialize (IH out).
      destruct (NextRules.apiAuthGuardLoop toPosix ctx rest out);
        [exact IH|].
      destruct IH as (a & Ha & Hr). exists a. split; [now right|exact Hr]. }
    destruct (Discovery.nonEmpty code); cbn [negb andb]; [|exact Hskip].
    destruct (includes code (str "vibecheck:public")); cbn [negb andb];
      [exact Hskip|].
    destruct (NextRules.hasGuard _ code); cbn [negb andb]; [exact Hskip|].
    clear Hskip.
    specialize (IH (out ++ [NextRules.unguarded
                              (NextRules.guardsOf (config ctx))
                              (NextRules.discovered (config ctx))
                              (NextRules.toRoutePathFromRelPath
                                 (NextRules.rel toPosix ctx abs))
                              abs code])).
    destruct (NextRules.apiAuthGuardLoop toPosix ctx rest _) as [fs|e].
    + destruct IH as (added & -> & Hfiles & Hall).
      eexists (_ :: added). split; [now rewrite <- app_assoc|].
      split.
      * cbn [map]. rewrite Hfiles. reflexivity.
      * constructor; [|exact Hall]. exists code. reflexivity.
    + destruct IH as (a & Ha & Hr). exists a. split; [now right|exact Hr].
Qed.

(** X19.  [nextApiAuthGuardRule] reports, in the order of the scanned files
    and once for each, exactly the API routes whose text is read and is
    not empty, has no [vibecheck:public] marker and calls none of the
    guards; it fails only when the text of an API route cannot be read. *)
Theorem api_guard_reports_unguarded_routes (ctx : RuleContext) :
  match run (NextRules.nextApiAuthGuardRule toPosix) ctx with
  | Returned (Ok fs) =>
    map file fs = filter (Props.unguardedRoute toPosix ctx) (files ctx)
  | Returned (Threw e) =>
    exists abs,
      In abs (files ctx)
      /\ NextRules.isNextApiRoute toPosix (NextRules.rel toPosix ctx abs)
         = true
      /\ readFile ctx abs = Threw e
  | Throws _ => False
  end.
Proof.
  cbn [run NextRules.nextApiAuthGuardRule]. unfold async.
  pose proof (apiAuthGuardLoop_outcome ctx (files ctx) []) as H.
  destruct (NextRules.apiAuthGuardLoop toPosix ctx (files ctx) []);
    [|exact H].
  destruct H as (added & -> & Hfiles & _). exact Hfiles.
Qed.

(** X20.  A finding of [nextApiAuthGuardRule] carries the rule's id and the
    position line 1, column 0; it is [info] when the route path of its
    file matches a discovered public or proxy entry and [high] otherwise,
    never a blocker: on its own the rule never makes the exit status 2. *)
Theorem api_guard_finding_shape (ctx : RuleContext) :
  match run (NextRules.nextApiAuthGuardRule toPosix) ctx with
  | Returned (Ok fs) =>
    Forall (fun f =>
              ruleId f = id (NextRules.nextApiAuthGuardRule toPosix)
              /\ line f = Some 1 /\ col f = Some 0
              /\ severity f
                 = NextRules.severityFor
                     (NextRules.discovered (config ctx))
                     (NextRules.toRoutePathFromRelPath
                        (NextRules.rel toPosix ctx (file f)))
              /\ (severity f = high \/ severity f = info)) fs
    /\ forall strict, Report.exitCode fs strict <> 2%Z
  | Returned (Threw _) => True
  | Throws _ => False
  end.
Proof.
  cbn [run NextRules.nextApiAuthGuardRule]. unfold async.
  pose proof (apiAuthGuardLoop_outcome ctx (files ctx) []) as H.
  destruct (NextRules.apiAuthGuardLoop toPosix ctx (files ctx) [])
    as [fs|e]; [|exact I].
  destruct H as (added & -> & _ & Hall). cbn [app].
  assert (Hshape :
            Forall (fun f =>
              ruleId f = id (NextRules.nextApiAuthGuardRule toPosix)
              /\ line f = Some 1 /\ col f = Some 0
              /\ severity f
                 = NextRules.severityFor
                     (NextRules.discovered (config ctx))
                     (NextRules.toRoutePathFromRelPath
                        (NextRules.rel toPosix ctx (file f)))
              /\ (severity f = high \/ severity f = info)) added).
  { eapply Forall_impl; [|exact Hall].
    intros f (code & Hf). unfold NextRules.unguarded in Hf.
    cbv zeta in Hf. rewrite located_start in Hf.
    cbn [ruleId severity message file fixHint] in Hf.
    rewrite Hf at 1 2 3 4 6 7.
    cbn [ruleId severity line col id NextRules.nextApiAuthGuardRule].
    repeat split. apply severityFor_cases. }
  split; [exact Hshape|].
  intros strict. rewrite exitCode_exitStatus. unfold Spec.exitStatus.
  destruct strict; [|discriminate].
  assert (Hnb : existsb Spec.isBlocker added = false).
  { apply not_true_is_false. intros Hex.
    apply existsb_exists in Hex as (f & Hin & Hb).
    rewrite Forall_forall in Hshape.
    destruct (Hshape f Hin) as (_ & _ & _ & _ & [E|E]);
      unfold Spec.isBlocker in Hb; rewrite E in Hb; discriminate. }
  rewrite Hnb. destruct (existsb Spec.isHigh added); discriminate.
Qed.

(** X21.  A route file whose text has a comment that begins with
    [vibecheck:public], the hints [vibecheck:public-api] and
    [vibecheck:public-api-prefix] among them, is never reported by
    [nextApiAuthGuardRule], whatever the discovered lists hold. *)
Theorem public_hint_silences_route (ctx : RuleContext)
  (abs code suffix : text) :
  readFile ctx abs = Ok code ->
  includes code (str "vibecheck:public" ++ suffix) = true ->
  match run (NextRules.nextApiAuthGuardRule toPosix) ctx with
  | Returned (Ok fs) => ~ In abs (map file fs)
  | Returned (Threw _) => True
  | Throws _ => False
  end.
Proof.
  intros Hread Hmark.
  cbn [run NextRules.nextApiAuthGuardRule]. unfold async.
  pose proof (apiAuthGuardLoop_outcome ctx (files ctx) []) as H.
  destruct (NextRules.apiAuthGuardLoop toPosix ctx (files ctx) []);
    [|exact I].
  destruct H as (added & -> & Hfiles & _). cbn [app].
  rewrite Hfiles. intros Hin. apply filter_In in Hin as [_ Hin].
  unfold Props.unguardedRoute in Hin. rewrite Hread in Hin.
  apply includes_prefix in Hmark. rewrite Hmark in Hin.
  cbn [negb] in Hin. rewrite andb_false_r in Hin. cbn [andb] in Hin.
  rewrite andb_false_r in Hin. discriminate.
Qed.

Lemma unguarded_frame (gs : list text) (d d' : DiscoveredAuth)
  (routePath abs code : text) :
  publicApiExact d = publicApiExact d' ->
  publicApiPrefix d = publicApiPrefix d' ->
  proxyApiPrefix d = proxyApiPrefix d' ->
  NextRules.unguarded gs d routePath abs code
  = NextRules.unguarded gs d' routePath abs code.
Proof.
  intros E1 E2 E3. unfold NextRules.unguarded, NextRules.severityFor.
  now rewrite E1, E2, E3.
Qed.

Lemma apiAuthGuardLoop_frame (ctx1 ctx2 : RuleContext) :
  rootDir ctx1 = rootDir ctx2 ->
  readFile ctx1 = readFile ctx2 ->
  NextRules.guardsOf (config ctx1) = NextRules.guardsOf (config ctx2) ->
  publicApiExact (NextRules.discovered (config ctx1))
  = publicApiExact (NextRules.discovered (config ctx2)) ->
  publicApiPrefix (NextRules.discovered (config ctx1))
  = publicApiPrefix (NextRules.discovered (config ctx2)) ->
  proxyApiPrefix (NextRules.discovered (config ctx1))
  = proxyApiPrefix (NextRules.discovered (config ctx2)) ->
  forall rest out,
    NextRules.apiAuthGuardLoop toPosix ctx1 rest out
    = NextRules.apiAuthGuardLoop toPosix ctx2 rest out.
Proof.
  intros Hroot Hread Hg E1 E2 E3 rest.
  induction rest as [|abs rest IH]; intros out; [reflexivity|].
  cbn [NextRules.apiAuthGuardLoop]. unfold NextRules.rel.
  rewrite Hroot, Hread, Hg.
  destruct (negb (NextRules.isNextApiRoute toPosix _)); [apply IH|].
  destruct (readFile ctx2 abs) as [code|e]; cbn [bind Monad_Result];
    [|reflexivity].
  destruct (negb (Discovery.nonEmpty code)); [apply IH|].
  destruct (includes code (str "vibecheck:public")); [apply IH|].
  destruct (NextRules.hasGuard _ code); [apply IH|].
  rewrite (unguarded_frame _ _ _ _ _ _ E1 E2 E3). apply IH.
Qed.

(** X22.  The guard names the user lists in [authGuards] take the place of
    the discovered ones: when that list is not empty, the guard names
    found by the prepass have no part in what [nextApiAuthGuardRule]
    reports. *)
Theorem user_guards_replace_discovered (ctx : RuleContext)
  (d d' : DiscoveredAuth) :
  NextRules.hasEntries (authGuards (config ctx)) = true ->
  publicApiExact d = publicApiExact d' ->
  publicApiPrefix d = publicApiPrefix d' ->
  proxyApiPrefix d = proxyApiPrefix d' ->
  run (NextRules.nextApiAuthGuardRule toPosix)
      (Engine.withStash ctx (Stashed d))
  = run (NextRules.nextApiAuthGuardRule toPosix)
        (Engine.withStash ctx (Stashed d')).
Proof.
  intros Hg E1 E2 E3. cbn [run NextRules.nextApiAuthGuardRule].
  unfold async. f_equal.
  cbn [files Engine.withStash].
  apply apiAuthGuardLoop_frame; try reflexivity; try assumption.
  unfold NextRules.guardsOf. cbn [config Engine.withStash authGuards].
  now rewrite Hg.
Qed.

Lemma middlewareLoop_outcome (ctx : RuleContext) (rest : list text) :
  forall out,
    match NextRules.middlewareLoop toPosix ctx rest out with
    | Ok fs =>
      exists added,
        fs = out ++ added
        /\ map file added
           = filter (Props.uncoveredMiddleware toPosix ctx) rest
        /\ Forall (fun f => severity f = med) added
    | Threw e => exists abs, In abs rest /\ readFile ctx abs = Threw e
    end.
Proof.
  induction rest as [|abs rest IH]; intros out.
  - cbn. exists []. rewrite app_nil_r. repeat split. constructor.
  - cbn [NextRules.middlewareLoop filter].
    unfold Props.uncoveredMiddleware at 1. cbv zeta.
    assert (Hskip :
              match NextRules.middlewareLoop toPosix ctx rest out with
              | Ok fs =>
                exists added,
                  fs = out ++ added
                  /\ map file added
                     = filter (Props.uncoveredMiddleware toPosix ctx) rest
                  /\ Forall (fun f => severity f = med) added
              | Threw e =>
                exists abs0, In abs0 (abs :: rest)
                             /\ readFile ctx abs0 = Threw e
              end).
    { specialize (IH out).
      destruct (NextRules.middlewareLoop toPosix ctx rest out);
        [exact IH|].
      destruct IH as (a & Ha & Hr). exists a. split; [now right|exact Hr]. }
    destruct (endsWith _ (str "middleware.ts"));
      destruct (endsWith _ (str "middleware.js")); cbn [negb andb orb];
      try exact Hskip.
    all: destruct (readFile ctx abs) as [code|e] eqn:Eread;
      cbn [bind Monad_Result];
      [|exists abs; split; [now left|assumption]].
    all: destruct (Discovery.nonEmpty code); cbn [negb andb orb];
      [|exact Hskip].
    all: destruct (includes code (str "export const config"));
      destruct (includes code (str "matcher")); cbn [negb andb orb];
      try exact Hskip.
    all: clear Hskip;
      specialize (IH (out ++ [NextRules.noMatcher abs code]));
      destruct (NextRules.middlewareLoop toPosix ctx rest _) as [fs|e];
      [destruct IH as (added & -> & Hfiles & Hall);
       exists (NextRules.noMatcher abs code :: added);
       split; [now rewrite <- app_assoc|];
       split; [cbn [map]; rewrite Hfiles; reflexivity|];
       constructor; [reflexivity|exact Hall]
      |destruct IH as (a & Ha & Hr); exists a; split;
       [now right|exact Hr]].
Qed.

(** X23.  [nextMiddlewareMatcherCoverageRule] reports, in the order of the
    scanned files, exactly the middleware files whose text lacks
    [export const config] or [matcher]; its findings are all [med], so
    adding them to any findings leaves the exit status as it was. *)
Theorem middleware_findings_leave_exit_status (ctx : RuleContext) :
  match run (NextRules.nextMiddlewareMatcherCoverageRule toPosix) ctx with
  | Returned (Ok mw) =>
    map file mw = filter (Props.uncoveredMiddleware toPosix ctx) (files ctx)
    /\ Forall (fun f => severity f = med) mw
    /\ forall fs strict,
         Report.exitCode (fs ++ mw) strict = Report.exitCode fs strict
  | Returned (Threw e) =>
    exists abs, In abs (files ctx) /\ readFile ctx abs = Threw e
  | Throws _ => False
  end.
Proof.
  cbn [run NextRules.nextMiddlewareMatcherCoverageRule]. unfold async.
  pose proof (middlewareLoop_outcome ctx (files ctx) []) as H.
  destruct (NextRules.middlewareLoop toPosix ctx (files ctx) [])
    as [mw|e]; [|exact H].
  destruct H as (added & -> & Hfiles & Hall). cbn [app].
  split; [exact Hfiles|]. split; [exact Hall|].
  intros fs strict. rewrite !exitCode_exitStatus. unfold Spec.exitStatus.
  rewrite !existsb_app.
  assert (Hb : existsb Spec.isBlocker added = false).
  { apply not_true_is_false. intros Hex.
    apply existsb_exists in Hex as (f & Hin & Hf).
    rewrite Forall_forall in Hall. unfold Spec.isBlocker in Hf.
    rewrite (Hall f Hin) in Hf. discriminate. }
  assert (Hh : existsb Spec.isHigh added = false).
  { apply not_true_is_false. intros Hex.
    apply existsb_exists in Hex as (f & Hin & Hf).
    rewrite Forall_forall in Hall. unfold Spec.isHigh in Hf.
    rewrite (Hall f Hin) in Hf. discriminate. }
  now rewrite Hb, Hh, !orb_false_r.
Qed.

End NextRuleFacts.

Lemma public_hint_silences_route_witness :
  match run (NextRules.nextApiAuthGuardRule Sample.posix)
            Sample.routeContext with
  | Returned (Ok fs) =>
    ~ In (str "/repo/src/app/api/og/route.ts") (map file fs)
  | Returned (Threw _) => True
  | Throws _ => False
  end.
Proof.
  apply (public_hint_silences_route Sample.posix Sample.routeContext
           (str "/repo/src/app/api/og/route.ts") Sample.routeCode
           (str "-api")).
  - reflexivity.
  - vm_compute. reflexivity.
Defined.

(** The route of [Sample.guardContext] calls [auth], which the user's
    list does not name and the discovered list does: the route is
    reported, as it is when nothing was discovered.  Without a user's
    list the discovered one decides, and the route is not reported. *)
Lemma user_guards_replace_discovered_witness :
  run (NextRules.nextApiAuthGuardRule Sample.posix)
      (Engine.withStash Sample.guardContext (Stashed Sample.typedDiscovered))
  = run (NextRules.nextApiAuthGuardRule Sample.posix)
        (Engine.withStash Sample.guardContext
           (Stashed {| guards := []; publicApiExact := [];
                       publicApiPrefix := []; proxyApiPrefix := [] |})).
Proof.
  apply user_guards_replace_discovered.
  - reflexivity.
  - reflexivity.
  - reflexivity.
  - reflexivity.
Defined.

Example guard_lists_at_work :
  match run (NextRules.nextApiAuthGuardRule Sample.posix)
            (Engine.withStash Sample.guardContext
               (Stashed Sample.typedDiscovered)) with
  | Returned (Ok fs) => map file fs = [str "/repo/app/api/users/route.ts"]
  | _ => False
  end
  /\ run (NextRules.nextApiAuthGuardRule Sample.posix)
         (Engine.withStash (Props.withAuthGuards Sample.guardContext [])
            (Stashed Sample.typedDiscovered))
     = Returned (Ok []).
Proof. split; reflexivity. Qed.

(* ================================================================== *)
(** ** The tenant-boundary rule's helpers *)
(* ================================================================== *)

Lemma dropStars_cons (a : N) (q : text) :
  Tenant.dropStars (a :: q)
  = if negb (a =? Ch.STAR)%N then a :: Tenant.dropStars q
    else Tenant.dropStars q.
Proof. reflexivity. Qed.

Lemma dropDoubleStars_cons (a b : N) (r : text) :
  Tenant.dropDoubleStars (a :: b :: r)
  = if (a =? Ch.STAR)%N && (b =? Ch.STAR)%N then Tenant.dropDoubleStars r
    else a :: Tenant.dropDoubleStars (b :: r).
Proof. reflexivity. Qed.

Lemma dropStars_dropDoubleStars (p : text) :
  Tenant.dropStars (Tenant.dropDoubleStars p) = Tenant.dropStars p.
Proof.
  assert (H : forall n (q : text), length q <= n ->
               Tenant.dropStars (Tenant.dropDoubleStars q)
               = Tenant.dropStars q).
  { induction n as [|n IH]; intros q Hq.
    - destruct q; [reflexivity|simpl in Hq; lia].
    - destruct q as [|a [|b r]]; [reflexivity|reflexivity|].
      rewrite dropDoubleStars_cons.
      destruct ((a =? Ch.STAR)%N && (b =? Ch.STAR)%N) eqn:E.
      + apply andb_prop in E as [Ea Eb].
        rewrite IH by (simpl in Hq |- *; lia).
        rewrite !dropStars_cons. now rewrite Ea, Eb.
      + rewrite (dropStars_cons a (Tenant.dropDoubleStars (b :: r))).
        rewrite (dropStars_cons a (b :: r)).
        rewrite IH by (simpl in Hq |- *; lia).
        reflexivity. }
  now apply (H (length p)).
Qed.

(** X24.  [simplePathMatch] reads a pattern as the text left once every
    star is taken out of it, and asks for that text to be part of the
    path: it holds exactly when some pattern has a character other than a
    star and the path contains its star-free text. *)
Theorem simplePathMatch_star_free_substring (rp : text)
  (patterns : list text) :
  Tenant.simplePathMatch rp patterns = true
  <-> exists p, In p patterns
                /\ Tenant.dropStars p <> []
                /\ includes rp (Tenant.dropStars p) = true.
Proof.
  unfold Tenant.simplePathMatch. rewrite existsb_exists.
  split.
  - intros (p & Hin & H). cbv zeta in H.
    rewrite dropStars_dropDoubleStars in H.
    apply andb_prop in H as [Hne Hinc].
    exists p. repeat split; auto.
    intros E. rewrite E in Hne. discriminate.
  - intros (p & Hin & Hne & Hinc). exists p. split; [exact Hin|].
    cbv zeta. rewrite dropStars_dropDoubleStars, Hinc.
    destruct (Tenant.dropStars p); [congruence|reflexivity].
Qed.

Lemma startsWith_nil (s : text) : startsWith s [] = true.
Proof. now destruct s. Qed.

Lemma startsWith_firstn (m : text) :
  forall (u : text) (k : nat),
    startsWith (firstn k u) m = startsWith u m && (length m <=? k).
Proof.
  induction m as [|x m IH]; intros u k.
  - now rewrite !startsWith_nil.
  - destruct k as [|k].
    + cbn [firstn startsWith length]. now rewrite andb_false_r.
    + destruct u as [|c u]; [reflexivity|].
      cbn [firstn startsWith length]. rewrite IH.
      change (S (length m) <=? S k) with (length m <=? k).
      now rewrite andb_assoc.
Qed.

Lemma includes_iff (s m : text) :
  includes s m = true <-> exists d, startsWith (skipn d s) m = true.
Proof.
  unfold includes, indexOf. cbn [skipn]. split.
  - destruct (findFrom m s _) as [pos|] eqn:E; [intros _|discriminate].
    apply findFrom_Some in E as (d & _ & _ & Hd & _). now exists d.
  - intros (d & Hd).
    destruct (findFrom m s _) eqn:E; [reflexivity|].
    rewrite (findFrom_None _ _ _ E d) in Hd. discriminate.
Qed.

(** X25.  A call is suppressed exactly when the marker
    [vibecheck:tenant-ok] stands whole within the 300 characters before
    the call site: it begins no more than 300 characters before the site
    and ends at or before it. *)
Theorem suppression_window (code : text) (absIdx : nat) :
  Tenant.hasSuppression code absIdx = true
  <-> exists pos,
        absIdx - 300 <= pos
        /\ pos + length (str "vibecheck:tenant-ok") <= absIdx
        /\ Props.OccursAt (str "vibecheck:tenant-ok") code pos.
Proof.
  unfold Tenant.hasSuppression, Props.OccursAt, slice. cbv zeta.
  rewrite includes_iff. split.
  - intros (d & Hd).
    rewrite skipn_firstn_comm, skipn_skipn, startsWith_firstn in Hd.
    apply andb_prop in Hd as [Hocc Hlen]. apply Nat.leb_le in Hlen.
    exists (d + (absIdx - 300)).
    change (length (str "vibecheck:tenant-ok")) with 19 in *.
    repeat split; [lia|lia|exact Hocc].
  - intros (pos & Hlo & Hhi & Hocc).
    exists (pos - (absIdx - 300)).
    rewrite skipn_firstn_comm, skipn_skipn, startsWith_firstn.
    replace (pos - (absIdx - 300) + (absIdx - 300)) with pos by lia.
    rewrite Hocc. cbn [andb]. apply Nat.leb_le.
    change (length (str "vibecheck:tenant-ok")) with 19 in *. lia.
Qed.

Lemma searchIndex_spec (p : pattern) (rest : text) :
  forall prev k pos,
    Tenant.searchIndex p prev rest k = Some pos
    <-> exists d,
          pos = k + d /\ d <= length rest
          /\ matchHere p (Spec.prevAfter prev (firstn d rest))
                       (skipn d rest) = true
          /\ forall q, q < d ->
                       matchHere p (Spec.prevAfter prev (firstn q rest))
                                 (skipn q rest) = false.
Proof.
  induction rest as [|x r IH]; intros prev k pos; cbn [Tenant.searchIndex].
  - destruct (matchHere p prev []) eqn:E; split.
    + intros [= <-]. exists 0. repeat split; [lia|lia|exact E|lia].
    + intros (d & -> & Hd & _). cbn [length] in Hd.
      f_equal. lia.
    + discriminate.
    + intros (d & _ & Hd & Hm & _). cbn [length] in Hd.
      assert (d = 0) as -> by lia.
      cbn [firstn skipn] in Hm. rewrite prevAfter_nil in Hm. congruence.
  - destruct (matchHere p prev (x :: r)) eqn:E; split.
    + intros [= <-]. exists 0.
      repeat split; [lia|cbn [length]; lia|exact E|lia].
    + intros (d & -> & _ & _ & Hfirst).
      destruct d as [|d]; [f_equal; lia|].
      specialize (Hfirst 0 ltac:(lia)).
      cbn [firstn skipn] in Hfirst. rewrite prevAfter_nil in Hfirst.
      congruence.
    + intros H. apply IH in H as (d & -> & Hd & Hm & Hfirst).
      exists (S d). cbn [firstn skipn length].
      rewrite prevAfter_cons.
      repeat split; [lia|lia|exact Hm|].
      intros [|q] Hq.
      * cbn [firstn skipn]. now rewrite prevAfter_nil.
      * cbn [firstn skipn]. rewrite prevAfter_cons. apply Hfirst. lia.
    + intros (d & -> & Hd & Hm & Hfirst).
      destruct d as [|d].
      { cbn [firstn skipn] in Hm. rewrite prevAfter_nil in Hm.
        congruence. }
      apply IH. exists d. cbn [firstn skipn length] in Hd, Hm.
      rewrite prevAfter_cons in Hm.
      repeat split; [lia|lia|exact Hm|].
      intros q Hq. specialize (Hfirst (S q) ltac:(lia)).
      cbn [firstn skipn] in Hfirst. now rewrite prevAfter_cons in Hfirst.
Qed.

Lemma matchHere_where (prev : option N) (rest : text) :
  matchHere Tenant.wherePattern prev rest = true
  <-> isWordAt prev = false
      /\ exists ws post,
           rest = str "where" ++ ws ++ Ch.COLON :: post
           /\ forallb isSpace ws = true.
Proof.
  unfold Tenant.wherePattern. rewrite matchHere_boundary.
  rewrite andb_true_iff, matchHere_lits. split.
  - intros (Hb & rest' & -> & H).
    apply matchHere_star in H as (ws & rest'' & -> & Hws & H).
    apply matchHere_colon in H as (post & ->).
    split; [|now exists ws, post].
    change (hd_error (str "where" ++ ws ++ Ch.COLON :: post))
      with (Some 119%N) in Hb.
    destruct (isWordAt prev); [discriminate|reflexivity].
  - intros (Hp & ws & post & -> & Hws). split.
    + rewrite Hp. reflexivity.
    + exists (ws ++ Ch.COLON :: post). split; [reflexivity|].
      apply matchHere_star. exists ws, (Ch.COLON :: post).
      split; [reflexivity|split; [exact Hws|]].
      apply matchHere_colon. now exists post.
Qed.

Lemma WhereKeyAt_matchHere (s : text) (w : nat) :
  Props.WhereKeyAt s w
  <-> w <= length s
      /\ matchHere Tenant.wherePattern
                   (Spec.prevAfter None (firstn w s)) (skipn w s) = true.
Proof.
  unfold Props.WhereKeyAt. rewrite matchHere_where.
  assert (E : Spec.prevAfter None (firstn w s)
              = Spec.lastOf (firstn w s)).
  { unfold Spec.prevAfter, Spec.lastOf.
    now destruct (rev (firstn w s)). }
  rewrite E. tauto.
Qed.

Lemma FirstAt_skipn (needle s : text) (w b : nat) :
  needle <> [] -> w <= length s ->
  Spec.FirstAt needle (skipn w s) 0 b <-> Spec.FirstAt needle s w (w + b).
Proof.
  intros Hne Hw. unfold Spec.FirstAt.
  rewrite skipn_skipn, length_skipn, (Nat.add_comm b w). split.
  - intros (_ & Hocc & Hlen & Hfirst).
    repeat split; [lia|exact Hocc|lia|].
    intros q Hq. specialize (Hfirst (q - w) ltac:(lia)).
    rewrite skipn_skipn in Hfirst.
    now replace (q - w + w) with q in Hfirst by lia.
  - intros (_ & Hocc & Hlen & Hfirst).
    repeat split; [lia|exact Hocc|lia|].
    intros q Hq. rewrite skipn_skipn. apply Hfirst. lia.
Qed.

(** X26.  [extractWhereBlock] cuts the balanced block that opens at the
    first brace at or after the first key [where] of the argument,
    whatever stands between the two: it returns a text exactly when that
    key, that brace and the brace that balances it all exist. *)
Theorem where_block_first_brace_after_where (argObj r : text) :
  Tenant.extractWhereBlock argObj = Some r
  <-> exists w b j,
        Props.WhereKeyAt argObj w
        /\ (forall q, q < w -> ~ Props.WhereKeyAt argObj q)
        /\ Spec.FirstAt [Ch.LBRACE] argObj w b
        /\ Spec.SubstringAt argObj b j r
        /\ Spec.BalancedBlock r.
Proof.
  unfold Tenant.extractWhereBlock, Tenant.search. split.
  - destruct (Tenant.searchIndex _ None argObj 0) as [w|] eqn:Es;
      [|discriminate].
    apply searchIndex_spec in Es as (d & Hw & Hd & Hm & Hfirst).
    cbn [Nat.add] in Hw. subst d. cbv zeta.
    destruct (indexOf (skipn w argObj) [Ch.LBRACE] 0) as [b|] eqn:Eb;
      [|discriminate].
    apply indexOf_FirstAt in Eb; [|discriminate].
    apply FirstAt_skipn in Eb; [|discriminate|exact Hd].
    intros Hbal.
    assert (Hnth : nth_error argObj (w + b) = Some Ch.LBRACE).
    { destruct Eb as (_ & Hocc & _). rewrite <- hd_skipn.
      destruct (skipn (w + b) argObj) as [|c t]; [discriminate|].
      cbn [startsWith] in Hocc. apply andb_prop in Hocc as [Hc _].
      apply N.eqb_eq in Hc. now subst. }
    destruct (balancedFrom_sound _ _ _ Hnth Hbal) as (j & Hsub & Hblock).
    exists w, (w + b), j.
    split; [apply WhereKeyAt_matchHere; now split|].
    split.
    { intros q Hq Hk. apply WhereKeyAt_matchHere in Hk as [_ Hk].
      rewrite (Hfirst q Hq) in Hk. discriminate. }
    split; [exact Eb|]. split; assumption.
  - intros (w & b & j & Hk & Hfirst & Hb & Hsub & Hblock).
    apply WhereKeyAt_matchHere in Hk as [Hw Hm].
    assert (Es : Tenant.searchIndex Tenant.wherePattern None argObj 0
                 = Some w).
    { apply searchIndex_spec. exists w.
      repeat split; [exact Hw|exact Hm|].
      intros q Hq.
      destruct (matchHere Tenant.wherePattern _ (skipn q argObj)) eqn:E;
        [|reflexivity].
      exfalso. apply (Hfirst q Hq). apply WhereKeyAt_matchHere.
      split; [lia|exact E]. }
    rewrite Es. cbv zeta.
    assert (Hwb : w <= b) by apply Hb.
    replace b with (w + (b - w)) in Hb by lia.
    apply FirstAt_skipn in Hb; [|discriminate|exact Hw].
    apply indexOf_FirstAt in Hb; [|discriminate].
    rewrite Hb. replace (w + (b - w)) with b by lia.
    now apply (balancedFrom_complete _ _ j).
Qed.

Lemma extractWhereBlock_balanced (argObj r : text) :
  Tenant.extractWhereBlock argObj = Some r -> Spec.BalancedBlock r.
Proof.
  unfold Tenant.extractWhereBlock, Tenant.search.
  destruct (Tenant.searchIndex _ None argObj 0) as [w|] eqn:Es;
    [|discriminate].
  apply searchIndex_spec in Es as (d & Hw & Hd & _).
  cbn [Nat.add] in Hw. subst d. cbv zeta.
  destruct (indexOf (skipn w argObj) [Ch.LBRACE] 0) as [b|] eqn:Eb;
    [|discriminate].
  apply indexOf_FirstAt in Eb; [|discriminate].
  apply FirstAt_skipn in Eb; [|discriminate|exact Hd].
  intros Hbal.
  assert (Hnth : nth_error argObj (w + b) = Some Ch.LBRACE).
  { destruct Eb as (_ & Hocc & _). rewrite <- hd_skipn.
    destruct (skipn (w + b) argObj) as [|c t]; [discriminate|].
    cbn [startsWith] in Hocc. apply andb_prop in Hocc as [Hc _].
    apply N.eqb_eq in Hc. now subst. }
  now destruct (balancedFrom_sound _ _ _ Hnth Hbal) as (j & _ & Hblock).
Qed.

Lemma BalancedBlock_nonEmpty (r : text) :
  Spec.BalancedBlock r -> Discovery.nonEmpty r = true.
Proof. intros (H & _). now destruct r. Qed.

Lemma whereHasTenantKey_plain (whereBlock : text) (keys : list text) :
  forallb Spec.plainKey keys = true ->
  whereHasTenantKey whereBlock keys
  = Some (existsb (fun key => test (Spec.keyPattern key) whereBlock) keys).
Proof.
  induction keys as [|key keys IH]; intros H; [reflexivity|].
  cbn [forallb] in H. apply andb_prop in H as [Hk Hks].
  cbn [whereHasTenantKey existsb]. rewrite (parse_tenantKeyPattern _ Hk).
  destruct (test (Spec.keyPattern key) whereBlock); [reflexivity|].
  now apply IH.
Qed.

Lemma passes_decides (code : text) (idx : nat) (keys : list text) :
  forallb Spec.plainKey keys = true ->
  exists b,
    Tenant.passes code idx keys = Some b
    /\ (b = true
        <-> Tenant.hasSuppression code idx = false
            /\ exists argObj whereBlock,
                 Spec.InlineArgument
                   (Tenant.aroundText (Tenant.sliceAround code idx 200 5000))
                   argObj
                 /\ Tenant.extractWhereBlock argObj = Some whereBlock
                 /\ forall key, In key keys ->
                                ~ Spec.KeyOccurs whereBlock key).
Proof.
  intros Hkeys. unfold Tenant.passes.
  destruct (Tenant.hasSuppression code idx).
  { exists false. split; [reflexivity|].
    split; [discriminate|]. intros [H _]. discriminate. }
  destruct (extractInlineFirstArgObject _) as [argObj|] eqn:Earg.
  2: { exists false. split; [reflexivity|].
       split; [discriminate|]. intros (_ & a & wb & Ha & _).
       apply extract_iff in Ha. congruence. }
  assert (Ha : Spec.InlineArgument
                 (Tenant.aroundText (Tenant.sliceAround code idx 200 5000))
                 argObj) by now apply extract_iff.
  assert (Hne : Discovery.nonEmpty argObj = true).
  { destruct Ha as (p & k & j & _ & _ & _ & _ & Hb).
    now apply BalancedBlock_nonEmpty. }
  rewrite Hne. cbn [negb].
  destruct (Tenant.extractWhereBlock argObj) as [wb|] eqn:Ewb.
  2: { exists false. split; [reflexivity|].
       split; [discriminate|]. intros (_ & a & wb & Ha' & Hwb & _).
       apply extract_iff in Ha'. congruence. }
  rewrite (BalancedBlock_nonEmpty _ (extractWhereBlock_balanced _ _ Ewb)).
  cbn [negb]. rewrite (whereHasTenantKey_plain _ _ Hkeys).
  eexists. split; [reflexivity|].
  rewrite negb_true_iff. split.
  - intros Hno. split; [reflexivity|]. exists argObj, wb.
    split; [exact Ha|]. split; [exact Ewb|].
    intros key Hin Hocc. apply test_keyPattern in Hocc.
    assert (Hex : existsb (fun key => test (Spec.keyPattern key) wb) keys
                  = true)
      by (apply existsb_exists; now exists key).
    congruence.
  - intros (_ & a & wb' & Ha' & Hwb & Hno).
    apply extract_iff in Ha'.
    assert (a = argObj) by congruence. subst a.
    assert (wb' = wb) by congruence. subst wb'.
    apply not_true_is_false. intros Hex.
    apply existsb_exists in Hex as (key & Hin & Ht).
    apply test_keyPattern in Ht. now apply (Hno key).
Qed.

Lemma sitesLoop_capped (abs code : text) (keys : list text)
  (c : text * Severity) :
  forallb Spec.plainKey keys = true ->
  forall idxs n out,
    Tenant.sitesLoop abs code keys c idxs n out
    = let pushed :=
        firstn (Tenant.FILE_CAP - n)
               (map (Tenant.missingTenantKey abs code c)
                    (filter (Props.passing code keys) idxs)) in
      Some (n + length pushed, out ++ pushed).
Proof.
  intros Hkeys. induction idxs as [|idx rest IH]; intros n out; cbv zeta.
  - cbn [Tenant.sitesLoop filter map]. rewrite firstn_nil.
    cbn [length]. now rewrite Nat.add_0_r, app_nil_r.
  - cbn [Tenant.sitesLoop filter].
    destruct (Nat.leb_spec Tenant.FILE_CAP n) as [Hcap|Hcap].
    + replace (Tenant.FILE_CAP - n) with 0 by lia. cbn [firstn length].
      now rewrite Nat.add_0_r, app_nil_r.
    + destruct (passes_decides code idx keys Hkeys) as (b & Hb & _).
      assert (Hp : Props.passing code keys idx = b)
        by (unfold Props.passing; rewrite Hb; now destruct b).
      rewrite Hb, Hp. destruct b.
      * rewrite IH. cbv zeta. cbn [map].
        replace (Tenant.FILE_CAP - n) with (S (Tenant.FILE_CAP - S n))
          by lia.
        cbn [firstn length]. rewrite <- app_assoc. cbn [app].
        f_equal. f_equal. lia.
      * apply IH.
Qed.

Lemma callsLoop_capped (abs code : text) (keys : list text) :
  forallb Spec.plainKey keys = true ->
  forall cs n out,
    Tenant.callsLoop abs code keys cs n out
    = let pushed :=
        firstn (Tenant.FILE_CAP - n)
               (flat_map
                  (fun c =>
                     map (Tenant.missingTenantKey abs code c)
                         (filter (Props.passing code keys)
                                 (Tenant.findAllCallSites code (fst c))))
                  cs) in
      Some (n + length pushed, out ++ pushed).
Proof.
  intros Hkeys. induction cs as [|c rest IH]; intros n out; cbv zeta.
  - cbn [Tenant.callsLoop flat_map]. rewrite firstn_nil.
    cbn [length]. now rewrite Nat.add_0_r, app_nil_r.
  - cbn [Tenant.callsLoop flat_map].
    destruct (Nat.leb_spec Tenant.FILE_CAP n) as [Hcap|Hcap].
    + replace (Tenant.FILE_CAP - n) with 0 by lia. cbn [firstn length].
      now rewrite Nat.add_0_r, app_nil_r.
    + rewrite (sitesLoop_capped abs code keys c Hkeys).
      cbv beta iota zeta. rewrite IH. cbv zeta.
      set (A := map (Tenant.missingTenantKey abs code c)
                    (filter (Props.passing code keys)
                            (Tenant.findAllCallSites code (fst c)))).
      set (B := flat_map _ rest).
      rewrite firstn_app.
      assert (HB : firstn (Tenant.FILE_CAP
                           - (n + length (firstn (Tenant.FILE_CAP - n) A))) B
                   = firstn (Tenant.FILE_CAP - n - length A) B).
      { rewrite length_firstn.
        destruct (Nat.le_ge_cases (length A) (Tenant.FILE_CAP - n)) as [H|H].
        - rewrite Nat.min_r by lia. f_equal. lia.
        - rewrite Nat.min_l by lia.
          replace (Tenant.FILE_CAP - (n + (Tenant.FILE_CAP - n))) with 0
            by lia.
          replace (Tenant.FILE_CAP - n - length A) with 0 by lia.
          reflexivity. }
      rewrite HB, length_app, <- app_assoc. f_equal. f_equal. lia.
Qed.

(** X27.  With tenant keys free of regular-expression syntax the tenant
    heuristic always decides.  A call passes the tests of the loop body
    exactly when no marker suppresses it, the first parenthesis of the
    window around it opens an inline object, that object has a [where]
    block, and no tenant key occurs in the block.  The findings of a file
    are those of the passing calls, the calls of [updateMany] before
    those of [deleteMany] and each in the order of the call sites, cut
    after the first six: a seventh passing call is not reported. *)
Theorem reported_call_has_no_tenant_key (code : text) (keys : list text) :
  forallb Spec.plainKey keys = true ->
  (forall idx,
      exists b,
        Tenant.passes code idx keys = Some b
        /\ (b = true
            <-> Tenant.hasSuppression code idx = false
                /\ exists argObj whereBlock,
                     Spec.InlineArgument
                       (Tenant.aroundText
                          (Tenant.sliceAround code idx 200 5000))
                       argObj
                     /\ Tenant.extractWhereBlock argObj = Some whereBlock
                     /\ forall key, In key keys ->
                                    ~ Spec.KeyOccurs whereBlock key))
  /\ forall abs out,
       Tenant.tenantHeuristic abs code keys out
       = let pushed :=
           firstn Tenant.FILE_CAP (Props.uncapped abs code keys) in
         Some (length pushed, out ++ pushed).
Proof.
  intros Hkeys. split.
  - intros idx. now apply passes_decides.
  - intros abs out. unfold Tenant.tenantHeuristic.
    rewrite (callsLoop_capped abs code keys Hkeys). cbv zeta.
    now rewrite Nat.sub_0_r.
Qed.

(** Seven calls that pass, of which six are reported. *)
Lemma reported_call_has_no_tenant_key_witness :
  let code :=
    concat (repeat (str "db.user.deleteMany({ where: { id: 1 } });
") 7) in
  let keys := [str "workspaceId"; str "orgId"] in
  (forall idx,
      exists b,
        Tenant.passes code idx keys = Some b
        /\ (b = true
            <-> Tenant.hasSuppression code idx = false
                /\ exists argObj whereBlock,
                     Spec.InlineArgument
                       (Tenant.aroundText
                          (Tenant.sliceAround code idx 200 5000))
                       argObj
                     /\ Tenant.extractWhereBlock argObj = Some whereBlock
                     /\ forall key, In key keys ->
                                    ~ Spec.KeyOccurs whereBlock key))
  /\ forall abs out,
       Tenant.tenantHeuristic abs code keys out
       = let pushed :=
           firstn Tenant.FILE_CAP (Props.uncapped abs code keys) in
         Some (length pushed, out ++ pushed).
Proof.
  intros code keys. apply reported_call_has_no_tenant_key. reflexivity.
Defined.

Example seventh_call_not_reported :
  let code :=
    concat (repeat (str "db.user.deleteMany({ where: { id: 1 } });
") 7) in
  let keys := [str "workspaceId"; str "orgId"] in
  length (Props.uncapped (str "/repo/lib/server/db.ts") code keys) = 7
  /\ match Tenant.tenantHeuristic (str "/repo/lib/server/db.ts")
             code keys [] with
     | Some (fileFindings, out) => fileFindings = 6 /\ length out = 6
     | None => False
     end.
Proof. vm_compute. repeat split. Qed.

Lemma FirstAt_firstn (needle u : text) (n d : nat) :
  Spec.FirstAt needle u 0 d -> d + length needle <= n ->
  Spec.FirstAt needle (firstn n u) 0 d.
Proof.
  intros (_ & Hocc & Hlen & Hfirst) Hn. unfold Spec.FirstAt.
  rewrite skipn_firstn_comm, startsWith_firstn, Hocc, length_firstn.
  repeat split; [lia| |lia|].
  - cbn [andb]. apply Nat.leb_le. lia.
  - intros q Hq. rewrite skipn_firstn_comm, startsWith_firstn.
    now rewrite (Hfirst q Hq).
Qed.

Lemma nth_error_slice (code : text) (a b i : nat) :
  a + i < b ->
  nth_error (slice code a b) i = nth_error code (a + i).
Proof.
  intros H. unfold slice.
  rewrite nth_error_firstn.
  destruct (Nat.ltb_spec i (b - a)); [|lia].
  apply nth_error_skipn.
Qed.

Lemma first_parenthesis_fails (code : text) (idx : nat)
  (keys : list text) (p : nat) (c : N) :
  Spec.FirstAt [Ch.LPAREN] code (idx - 200) p ->
  p + 1 < idx + 5000 ->
  nth_error code (p + 1) = Some c ->
  isSpace c = false -> c <> Ch.SLASH -> c <> Ch.LBRACE ->
  Tenant.passes code idx keys = Some false.
Proof.
  intros Hp Hwin Hc Hsp Hsl Hbr. unfold Tenant.passes.
  destruct (Tenant.hasSuppression code idx); [reflexivity|].
  unfold Tenant.sliceAround. cbv zeta. cbn [Tenant.aroundText].
  set (start := idx - 200) in *.
  set (stop := Nat.min (length code) (idx + 5000)).
  assert (Hlen : p + 1 < length code) by (eapply nth_error_lt; eauto).
  assert (Hstart : start <= p) by apply Hp.
  assert (Hstop : p + 1 < stop) by (unfold stop; lia).
  assert (Hopen : indexOf (slice code start stop) [Ch.LPAREN] 0
                  = Some (p - start)).
  { apply indexOf_FirstAt; [discriminate|].
    unfold slice. apply FirstAt_firstn; [|cbn [length]; lia].
    replace p with (start + (p - start)) in Hp by lia.
    apply FirstAt_skipn in Hp; [exact Hp|discriminate|].
    unfold start. lia. }
  unfold extractInlineFirstArgObject. rewrite Hopen.
  assert (Hnth : nth_error (slice code start stop) (p - start + 1) = Some c).
  { rewrite nth_error_slice by lia.
    now replace (start + (p - start + 1)) with (p + 1) by lia. }
  cbn [skipTrivia]. rewrite Hnth, Hsp.
  assert (Hns : (c =? Ch.SLASH)%N = false) by now apply N.eqb_neq.
  rewrite Hns. cbn [andb].
  unfold charIs. rewrite Hnth.
  assert (Hnb : (c =? Ch.LBRACE)%N = false) by now apply N.eqb_neq.
  rewrite Hnb. reflexivity.
Qed.

(** X28.  The argument looked at is the one of the first parenthesis in the
    window, which begins 200 characters before the call site: when the
    first parenthesis from there on is followed by a character that is
    neither white space, nor a slash, nor an opening brace, the call does
    not pass the tests of the loop body, and so is not reported, whatever
    its own argument is. *)
Theorem first_parenthesis_decides (code : text) (idx : nat)
  (keys : list text) (p : nat) (c : N) :
  Spec.FirstAt [Ch.LPAREN] code (idx - 200) p ->
  p + 1 < idx + 5000 ->
  nth_error code (p + 1) = Some c ->
  isSpace c = false -> c <> Ch.SLASH -> c <> Ch.LBRACE ->
  Tenant.passes code idx keys = Some false
  /\ forall sites, ~ In idx (filter (Props.passing code keys) sites).
Proof.
  intros Hp Hwin Hc Hsp Hsl Hbr.
  pose proof (first_parenthesis_fails code idx keys p c
                Hp Hwin Hc Hsp Hsl Hbr) as H.
  split; [exact H|].
  intros sites Hin. apply filter_In in Hin as [_ Hin].
  unfold Props.passing in Hin. rewrite H in Hin. discriminate.
Qed.

Lemma first_parenthesis_decides_witness :
  Tenant.passes
    (str "log(x); db.user.deleteMany({ where: { id: 1 } })") 15
    [str "workspaceId"; str "orgId"]
  = Some false
  /\ forall sites,
       ~ In 15
            (filter
               (Props.passing
                  (str "log(x); db.user.deleteMany({ where: { id: 1 } })")
                  [str "workspaceId"; str "orgId"])
               sites).
Proof.
  apply (first_parenthesis_decides _ _ _ 3 120%N).
  - vm_compute. repeat split; try lia.
    intros q Hq. assert (q = 0 \/ q = 1 \/ q = 2) as [->|[->| ->]] by lia;
      reflexivity.
  - vm_compute. lia.
  - reflexivity.
  - reflexivity.
  - discriminate.
  - discriminate.
Defined.

Lemma startsWith_decompose (n : text) :
  forall s, startsWith s n = true -> s = n ++ skipn (length n) s.
Proof.
  induction n as [|x n IH]; intros s H; [reflexivity|].
  destruct s as [|c s]; [discriminate|].
  cbn [startsWith] in H. apply andb_prop in H as [Hc H].
  apply N.eqb_eq in Hc. subst c.
  cbn [app length skipn]. f_equal. now apply IH.
Qed.

Lemma literal_Some (lit s r : text) :
  Discovery.literal lit s = Some r <-> s = lit ++ r.
Proof.
  unfold Discovery.literal. split.
  - destruct (startsWith s lit) eqn:E; [|discriminate].
    intros [= <-]. now apply startsWith_decompose.
  - intros ->. rewrite startsWith_app.
    rewrite skipn_app, skipn_all, Nat.sub_diag. reflexivity.
Qed.

Lemma dropWhile_spaces (ws : text) (c : N) (post : text) :
  forallb isSpace ws = true -> isSpace c = false ->
  Discovery.dropWhile isSpace (ws ++ c :: post) = c :: post.
Proof.
  intros Hws Hc. induction ws as [|x ws IH].
  - cbn [app Discovery.dropWhile]. now rewrite Hc.
  - cbn [forallb] in Hws. apply andb_prop in Hws as [Hx Hws].
    cbn [app Discovery.dropWhile]. rewrite Hx. now apply IH.
Qed.

Lemma dropWhile_split (p : N -> bool) (s : text) :
  exists ws, s = ws ++ Discovery.dropWhile p s /\ forallb p ws = true.
Proof.
  induction s as [|c s (ws & Hs & Hws)].
  - now exists [].
  - cbn [Discovery.dropWhile]. destruct (p c) eqn:E.
    + exists (c :: ws). cbn [app forallb]. rewrite E, Hws.
      split; [now f_equal|reflexivity].
    + now exists [].
Qed.

Lemma matchCall_Some (callName s : text) (len : nat) :
  Tenant.matchCall callName s = Some len
  <-> exists ws post,
        s = Ch.DOT :: callName ++ ws ++ Ch.LPAREN :: post
        /\ forallb isSpace ws = true
        /\ len = length callName + length ws + 2.
Proof.
  unfold Tenant.matchCall, Discovery.andThen. split.
  - destruct (Discovery.literal (Ch.DOT :: callName) s) as [r1|] eqn:E1;
      [|discriminate].
    destruct (Discovery.literal [Ch.LPAREN] _) as [r2|] eqn:E2;
      [|discriminate].
    intros [= <-].
    apply literal_Some in E1. apply literal_Some in E2.
    destruct (dropWhile_split isSpace r1) as (ws & Hr1 & Hws).
    rewrite E2 in Hr1. exists ws, r2. subst s.
    split; [cbn [app]; now rewrite Hr1 at 1|]. split; [exact Hws|].
    rewrite Hr1 at 1. cbn [app length]. rewrite !length_app.
    cbn [length]. lia.
  - intros (ws & post & -> & Hws & ->).
    assert (E1 : Discovery.literal (Ch.DOT :: callName)
                   (Ch.DOT :: callName ++ ws ++ Ch.LPAREN :: post)
                 = Some (ws ++ Ch.LPAREN :: post))
      by now apply literal_Some.
    rewrite E1, (dropWhile_spaces ws Ch.LPAREN post Hws eq_refl).
    assert (E2 : Discovery.literal [Ch.LPAREN] (Ch.LPAREN :: post)
                 = Some post) by now apply literal_Some.
    rewrite E2. f_equal. cbn [length]. rewrite !length_app. cbn [length].
    lia.
Qed.

Lemma matchCall_other (callName s : text) (c : N) :
  hd_error s = Some c -> c <> Ch.DOT -> Tenant.matchCall callName s = None.
Proof.
  intros Hs Hc. destruct s as [|x s]; [discriminate|].
  injection Hs as ->. unfold Tenant.matchCall, Discovery.literal.
  cbn [startsWith]. apply N.eqb_neq in Hc. now rewrite Hc.
Qed.

Lemma matchCall_nil (callName : text) : Tenant.matchCall callName [] = None.
Proof. reflexivity. Qed.

Lemma matchCall_apart (callName s : text) (len : nat) :
  forallb isWordChar callName = true ->
  Tenant.matchCall callName s = Some len ->
  forall d, 0 < d < len -> Tenant.matchCall callName (skipn d s) = None.
Proof.
  intros Hname H d Hd.
  apply matchCall_Some in H as (ws & post & -> & Hws & ->).
  destruct d as [|d]; [lia|]. cbn [skipn].
  assert (Hin : exists c, nth_error (callName ++ ws ++ [Ch.LPAREN]) d
                          = Some c).
  { destruct (nth_error (callName ++ ws ++ [Ch.LPAREN]) d) eqn:E;
      [now eexists|].
    apply nth_error_None in E. rewrite !length_app in E.
    cbn [length] in E. lia. }
  destruct Hin as (c & Hc).
  apply (matchCall_other _ _ c).
  - rewrite hd_skipn.
    replace (callName ++ ws ++ Ch.LPAREN :: post)
      with ((callName ++ ws ++ [Ch.LPAREN]) ++ post)
      by (now rewrite <- !app_assoc).
    rewrite nth_error_app1; [exact Hc|].
    apply nth_error_Some. congruence.
  - apply nth_error_In in Hc. intros ->.
    apply in_app_or in Hc as [Hc|Hc].
    + rewrite forallb_forall in Hname. now specialize (Hname _ Hc).
    + apply in_app_or in Hc as [Hc|[Hc|[]]].
      * rewrite forallb_forall in Hws. now specialize (Hws _ Hc).
      * discriminate.
Qed.

Lemma execIndices_spec (callName : text) :
  forallb isWordChar callName = true ->
  forall (s : text) (skip k : nat),
    (forall d, d < skip ->
               Tenant.matchCall callName (skipn d s) = None) ->
    forall i,
      In i (Tenant.execIndices (Tenant.matchCall callName) skip k s)
      <-> exists d, i = k + d
                    /\ Tenant.matchCall callName (skipn d s) <> None.
Proof.
  intros Hname. induction s as [|x rest IH]; intros skip k Hskip i.
  - cbn [Tenant.execIndices In]. split; [tauto|].
    intros (d & _ & H). rewrite skipn_nil in H. now apply H.
  - cbn [Tenant.execIndices]. destruct skip as [|skip].
    + destruct (Tenant.matchCall callName (x :: rest)) as [len|] eqn:E.
      * cbn [In]. rewrite (IH (len - 1) (S k)).
        2: { intros d Hd.
             apply (matchCall_apart _ _ _ Hname E (S d)). lia. }
        split.
        -- intros [<-|(d & -> & H)].
           ++ exists 0. split; [lia|]. cbn [skipn]. congruence.
           ++ exists (S d). split; [lia|exact H].
        -- intros ([|d] & -> & H).
           ++ left. lia.
           ++ right. exists d. split; [lia|exact H].
      * rewrite (IH 0 (S k)) by (intros d Hd; lia).
        split.
        -- intros (d & -> & H). exists (S d). split; [lia|exact H].
        -- intros ([|d] & -> & H).
           ++ cbn [skipn] in H. congruence.
           ++ exists d. split; [lia|exact H].
    + rewrite (IH skip (S k)).
      2: { intros d Hd. apply (Hskip (S d)). lia. }
      split.
      * intros (d & -> & H). exists (S d). split; [lia|exact H].
      * intros ([|d] & -> & H).
        -- exfalso. apply H. apply (Hskip 0). lia.
        -- exists d. split; [lia|exact H].
Qed.

Lemma execIndices_sorted (matchAt : text -> option nat) (s : text) :
  forall skip k,
    StronglySorted lt (Tenant.execIndices matchAt skip k s)
    /\ Forall (fun i => k <= i) (Tenant.execIndices matchAt skip k s).
Proof.
  induction s as [|x rest IH]; intros skip k.
  - split; constructor.
  - cbn [Tenant.execIndices].
    assert (Hup : forall sk,
               StronglySorted lt
                 (Tenant.execIndices matchAt sk (S k) rest)
               /\ Forall (fun i => k <= i)
                         (Tenant.execIndices matchAt sk (S k) rest)).
    { intros sk. destruct (IH sk (S k)) as [Hs Hf]. split; [exact Hs|].
      eapply Forall_impl; [|exact Hf]. cbv beta. intros; lia. }
    destruct skip as [|skip]; [|apply Hup].
    destruct (matchAt (x :: rest)) as [len|]; [|apply Hup].
    destruct (IH (len - 1) (S k)) as [Hs Hf]. split.
    + constructor; [exact Hs|].
      eapply Forall_impl; [|exact Hf]. cbv beta. intros; lia.
    + constructor; [lia|]. apply Hup.
Qed.

(** X29.  For a call name of word characters, [findAllCallSites] returns
    the positions at which [.name] stands followed, after optional white
    space, by an opening parenthesis: all of them, each once, in
    increasing order. *)
Theorem call_sites_found (code callName : text) :
  forallb isWordChar callName = true ->
  (forall idx, In idx (Tenant.findAllCallSites code callName)
               <-> Props.CallAt code callName idx)
  /\ StronglySorted lt (Tenant.findAllCallSites code callName).
Proof.
  intros Hname. split; [|apply execIndices_sorted].
  intros idx. unfold Tenant.findAllCallSites.
  rewrite (execIndices_spec _ Hname code 0 0) by (intros d Hd; lia).
  unfold Props.CallAt. split.
  - intros (d & -> & H). cbn [Nat.add].
    destruct (Tenant.matchCall callName (skipn d code)) as [len|] eqn:E;
      [|congruence].
    apply matchCall_Some in E as (ws & post & Hs & Hws & _).
    now exists ws, post.
  - intros (ws & post & Hs & Hws). exists idx. split; [reflexivity|].
    assert (E : Tenant.matchCall callName (skipn idx code)
                = Some (length callName + length ws + 2)).
    { apply matchCall_Some. now exists ws, post. }
    congruence.
Qed.

Lemma call_sites_found_witness :
  (forall idx,
      In idx (Tenant.findAllCallSites
                (str "a.deleteMany (x); b.deleteMany({})") (str "deleteMany"))
      <-> Props.CallAt (str "a.deleteMany (x); b.deleteMany({})")
                       (str "deleteMany") idx)
  /\ StronglySorted lt
       (Tenant.findAllCallSites
          (str "a.deleteMany (x); b.deleteMany({})") (str "deleteMany")).
Proof.
  apply call_sites_found. reflexivity.
Defined.

(* ================================================================== *)
(** ** The CORS rule *)
(* ================================================================== *)

Lemma includes_suffix (s a b : text) :
  includes s (a ++ b) = true -> includes s b = true.
Proof.
  rewrite !includes_iff. intros (d & Hd).
  exists (length a + d). rewrite <- skipn_skipn.
  apply startsWith_decompose in Hd. rewrite Hd.
  rewrite <- app_assoc, skipn_app, skipn_all, Nat.sub_diag.
  cbn [app skipn]. apply startsWith_app.
Qed.

Lemma includesFrom_found (code needle : text) (i : nat) :
  needle <> [] ->
  indexOf code needle 0 = Some i -> Cors.includesFrom code needle i = true.
Proof.
  intros Hne H. apply indexOf_FirstAt in H; [|exact Hne].
  destruct H as (_ & Hocc & Hlen & _).
  assert (E : indexOf code needle i = Some i).
  { apply indexOf_FirstAt; [exact Hne|].
    repeat split; [lia|exact Hocc|exact Hlen|]. intros q Hq. lia. }
  unfold Cors.includesFrom. now rewrite E.
Qed.

Lemma hasWildcard_anywhere (code : text) :
  Cors.hasWildcard code (indexOf code (str "Access-Control-Allow-Origin") 0)
  = includes code (str "Access-Control-Allow-Origin")
    && (includes code (str "Access-Control-Allow-Origin: *")
        || includes code [NextRules.DQUOTE; Ch.STAR; NextRules.DQUOTE]
        || includes code (str "'*'")).
Proof.
  unfold Cors.hasWildcard.
  destruct (indexOf code (str "Access-Control-Allow-Origin") 0) as [i|]
    eqn:E.
  - assert (Hi : includes code (str "Access-Control-Allow-Origin") = true)
      by (unfold includes; now rewrite E).
    rewrite Hi.
    rewrite (includesFrom_found code (str "Access-Control-Allow-Origin") i)
      by (discriminate || exact E).
    cbn [andb]. now rewrite orb_assoc.
  - assert (Hi : includes code (str "Access-Control-Allow-Origin") = false)
      by (unfold includes; now rewrite E).
    now rewrite Hi.
Qed.

Lemma hasCreds_anywhere (code : text) :
  Cors.hasCreds code
    (indexOf code (str "Access-Control-Allow-Credentials") 0)
  = includes code (str "Access-Control-Allow-Credentials")
    && includes code (str "true").
Proof.
  unfold Cors.hasCreds.
  destruct (indexOf code (str "Access-Control-Allow-Credentials") 0)
    as [i|] eqn:E.
  2: { assert (Hi : includes code (str "Access-Control-Allow-Credentials")
                    = false) by (unfold includes; now rewrite E).
       now rewrite Hi. }
  assert (Hi : includes code (str "Access-Control-Allow-Credentials")
               = true) by (unfold includes; now rewrite E).
  rewrite Hi.
  rewrite (includesFrom_found code
             (str "Access-Control-Allow-Credentials") i)
    by (discriminate || exact E).
  cbn [andb].
  destruct (includes code (str "Access-Control-Allow-Credentials: true"))
    eqn:Ef; [|reflexivity].
  cbn [orb]. symmetry.
  apply (includes_suffix code (str "Access-Control-Allow-Credentials: ")
           (str "true")).
  exact Ef.
Qed.

Section CorsFacts.

Variable toPosix : text -> text.

Lemma corsLoop_outcome (ctx : RuleContext) (rest : list text) :
  forall out,
    match Cors.corsLoop toPosix ctx rest out with
    | Ok fs =>
      exists added,
        fs = out ++ added
        /\ map file added = filter (Props.corsSuspect toPosix ctx) rest
        /\ Forall (fun f => severity f = high) added
    | Threw e => exists abs, In abs rest /\ readFile ctx abs = Threw e
    end.
Proof.
  induction rest as [|abs rest IH]; intros out.
  - cbn. exists []. rewrite app_nil_r. repeat split. constructor.
  - cbn [Cors.corsLoop filter]. unfold Props.corsSuspect at 1.
    assert (Hskip :
              match Cors.corsLoop toPosix ctx rest out with
              | Ok fs =>
                exists added,
                  fs = out ++ added
                  /\ map file added
                     = filter (Props.corsSuspect toPosix ctx) rest
                  /\ Forall (fun f => severity f = high) added
              | Threw e =>
                exists abs0, In abs0 (abs :: rest)
                             /\ readFile ctx abs0 = Threw e
              end).
    { specialize (IH out).
      destruct (Cors.corsLoop toPosix ctx rest out); [exact IH|].
      destruct IH as (a & Ha & Hr). exists a. split; [now right|exact Hr]. }
    destruct (Discovery.hasScriptExtension _); cbn [negb andb];
      [|exact Hskip].
    destruct (readFile ctx abs) as [code|e] eqn:Eread;
      cbn [bind Monad_Result];
      [|exists abs; split; [now left|assumption]].
    cbv zeta. rewrite hasWildcard_anywhere, hasCreds_anywhere.
    destruct (Discovery.nonEmpty code) eqn:Ene; cbn [negb].
    2: { destruct code; [|discriminate].
         replace (includes [] (str "Access-Control-Allow-Origin"))
           with false by reflexivity.
         cbn [andb]. exact Hskip. }
    destruct (includes code (str "Access-Control-Allow-Origin"));
      cbn [andb]; [|exact Hskip].
    destruct (includes code (str "Access-Control-Allow-Credentials"));
      cbn [andb]; [|rewrite andb_false_r; exact Hskip].
    destruct (includes code (str "true")); cbn [andb];
      [|rewrite andb_false_r; exact Hskip].
    rewrite andb_true_r.
    destruct (_ || _ || _); [|exact Hskip].
    clear Hskip.
    specialize (IH (out ++ [Cors.wildcardWithCredentials abs code
                              (indexOf code
                                 (str "Access-Control-Allow-Origin") 0)])).
    destruct (Cors.corsLoop toPosix ctx rest _) as [fs|e].
    + destruct IH as (added & -> & Hfiles & Hall).
      eexists (_ :: added). split; [now rewrite <- app_assoc|].
      split; [cbn [map]; rewrite Hfiles; reflexivity|].
      constructor; [reflexivity|exact Hall].
    + destruct IH as (a & Ha & Hr). exists a. split; [now right|exact Hr].
Qed.

(** X30.  [corsWildcardCredentialsRule] reports, in scan order, exactly the
    script files whose text has the two header names, the word [true],
    and either a starred origin header or a quoted star, each anywhere
    in the text: the positions passed to [includes] and the check for
    [Access-Control-Allow-Credentials: true] add nothing.  Its findings
    are all [high]. *)
Theorem cors_rule_looks_anywhere (ctx : RuleContext) :
  match run (Cors.corsWildcardCredentialsRule toPosix) ctx with
  | Returned (Ok fs) =>
    map file fs = filter (Props.corsSuspect toPosix ctx) (files ctx)
    /\ Forall (fun f => severity f = high) fs
  | Returned (Threw e) =>
    exists abs, In abs (files ctx) /\ readFile ctx abs = Threw e
  | Throws _ => False
  end.
Proof.
  cbn [run Cors.corsWildcardCredentialsRule]. unfold async.
  pose proof (corsLoop_outcome ctx (files ctx) []) as H.
  destruct (Cors.corsLoop toPosix ctx (files ctx) []) as [fs|e];
    [|exact H].
  destruct H as (added & -> & Hfiles & Hall). now split.
Qed.

End CorsFacts.
